(** * omartaha.ca: client-side behaviour of the portfolio page

    A shallow embedding of [script.js] (orchestrator, navigation, scroll,
    animation and theme components, throttle helper) and of [tracking.js]
    (visitor beacon), with the properties the specification states about
    them.

    Conventions.
    - JavaScript numbers that hold pixel offsets or millisecond clocks are
      integers of [Z].
    - A method of a class is a function on the pair of its receiver ([this])
      and the browser [World]; a method that may throw returns in [Eff],
      which keeps the state reached when the exception was raised.
    - Browser objects the scripts only talk to (the document, storage,
      listeners, timers, the console) are fields of [World]. *)

From stdpp Require Import gmap strings list pretty.

(** ** JavaScript values and completions *)

Module Js.

Inductive JsError :=
| ErrorObj (message : string)
| TypeErrorObj (message : string)
| RangeErrorObj (message : string).

(** A computation over a mutable state [S]: it ends normally with a value or
    abruptly with a thrown error, and in both cases leaves a state behind. *)
Definition Eff (S A : Type) : Type := S → (JsError + A) * S.

Definition ret {S A} (a : A) : Eff S A := λ s, (inr a, s).

Definition bind {S A B} (m : Eff S A) (k : A → Eff S B) : Eff S B :=
  λ s, match m s with
       | (inr a, s') => k a s'
       | (inl e, s') => (inl e, s')
       end.

Definition modify {S} (f : S → S) : Eff S unit := λ s, (inr tt, f s).

(** [try { body } catch (error) { handler(error) }] *)
Definition try_catch {S A} (body : Eff S A) (handler : JsError → Eff S A) : Eff S A :=
  λ s, match body s with
       | (inr a, s') => (inr a, s')
       | (inl e, s') => handler e s'
       end.

(** Truthiness of a value that is either [null] or a string. *)
Definition truthy (v : option string) : bool :=
  match v with
  | None => false
  | Some s => negb (bool_decide (s = ""))
  end.

(** [a || b] on such values. *)
Definition or_else (a b : option string) : option string :=
  if truthy a then a else b.

(** [str.substring(1)], for a string whose first character is one code
    unit, as the [#] of an anchor is. *)
Definition substring1 (s : string) : string :=
  match s with
  | EmptyString => EmptyString
  | String _ rest => rest
  end.

End Js.

Notation "m ;;; k" := (Js.bind m (λ _, k))
  (at level 100, k at level 200, right associativity).

(** ** The document, the window and the console *)

Module Dom.

(** An element.  [pageTop] is its distance from the top of the document, so
    that [getBoundingClientRect().top] is [pageTop - scrollY]. *)
Record Element := mkElement {
  tagName : string;
  parentNode : option nat;
  attributes : gmap string string;
  classList : list string;
  style : gmap string string;
  textContent : string;
  pageTop : Z;
  offsetHeight : Z
}.

Definition createElement (tag : string) : Element :=
  mkElement tag None ∅ [] ∅ "" 0 0.

Definition setAttribute (name value : string) (e : Element) : Element :=
  mkElement (tagName e) (parentNode e) (<[name := value]> (attributes e))
            (classList e) (style e) (textContent e) (pageTop e) (offsetHeight e).

Definition getAttribute (name : string) (e : Element) : option string :=
  attributes e !! name.

Definition setClassList (cl : list string) (e : Element) : Element :=
  mkElement (tagName e) (parentNode e) (attributes e)
            cl (style e) (textContent e) (pageTop e) (offsetHeight e).

Definition setStyle (prop value : string) (e : Element) : Element :=
  mkElement (tagName e) (parentNode e) (attributes e)
            (classList e) (<[prop := value]> (style e)) (textContent e)
            (pageTop e) (offsetHeight e).

Definition setTextContent (txt : string) (e : Element) : Element :=
  mkElement (tagName e) (parentNode e) (attributes e)
            (classList e) (style e) txt (pageTop e) (offsetHeight e).

(** [DOMTokenList]: an ordered set of class names. *)
Definition contains (c : string) (e : Element) : bool :=
  bool_decide (c ∈ classList e).

Definition classList_add (c : string) (e : Element) : Element :=
  if contains c e then e else setClassList (classList e ++ [c]) e.

Definition classList_remove (c : string) (e : Element) : Element :=
  setClassList (filter (λ x, x ≠ c) (classList e)) e.

(** [classList.toggle(c, force)] *)
Definition classList_toggle (c : string) (force : bool) (e : Element) : Element :=
  if force then classList_add c e else classList_remove c e.

Inductive EventTarget :=
| WindowTarget
| DocumentTarget
| MediaQueryTarget (query : string)
| NodeTarget (handle : nat).

(** The function handed to [addEventListener] or [setTimeout]: a bound
    method, one of the rate-limiting wrappers around one, or an arrow
    function of the source named by its place. *)
Inductive Callback :=
| Bound (class method : string)
| Throttled (func : Callback) (limit : Z)
| Debounced (func : Callback) (wait : Z)
| Arrow (place : string).

Record Listener := mkListener {
  target : EventTarget;
  type : string;
  callback : Callback
}.

Inductive Level := LevelLog | LevelWarn | LevelError | LevelDebug.

Record LogEntry := mkLog {
  level : Level;
  message : string;
  detail : option Js.JsError
}.

(** The browser as the scripts see it.  [nodes] lists, in document order,
    every element other than the root and the body; an element is named by
    its position in that list.  A [parentNode] of [None] stands for a
    parent that is the body (or the root). *)
Record World := mkWorld {
  documentElement : Element;
  body : Element;
  nodes : list Element;
  scrollY : Z;
  prefersDark : bool;
  localStorage : gmap string string;
  listeners : list Listener;
  timers : list (Z * Callback);
  console : list LogEntry
}.

Definition setDocumentElement (e : Element) (w : World) : World :=
  mkWorld e (body w) (nodes w) (scrollY w) (prefersDark w)
          (localStorage w) (listeners w) (timers w) (console w).

Definition setNodes (ns : list Element) (w : World) : World :=
  mkWorld (documentElement w) (body w) ns (scrollY w) (prefersDark w)
          (localStorage w) (listeners w) (timers w) (console w).

Definition setLocalStorage (st : gmap string string) (w : World) : World :=
  mkWorld (documentElement w) (body w) (nodes w) (scrollY w) (prefersDark w)
          st (listeners w) (timers w) (console w).

Definition setListeners (ls : list Listener) (w : World) : World :=
  mkWorld (documentElement w) (body w) (nodes w) (scrollY w) (prefersDark w)
          (localStorage w) ls (timers w) (console w).

Definition setTimers (ts : list (Z * Callback)) (w : World) : World :=
  mkWorld (documentElement w) (body w) (nodes w) (scrollY w) (prefersDark w)
          (localStorage w) (listeners w) ts (console w).

Definition setConsole (c : list LogEntry) (w : World) : World :=
  mkWorld (documentElement w) (body w) (nodes w) (scrollY w) (prefersDark w)
          (localStorage w) (listeners w) (timers w) c.

(** [target.addEventListener(type, callback)]; every callback of the source
    is a fresh function object, so no registration is ever merged with an
    earlier one. *)
Definition addEventListener (t : EventTarget) (ty : string) (cb : Callback)
    (w : World) : World :=
  setListeners (listeners w ++ [mkListener t ty cb]) w.

(** [setTimeout(callback, delay)] *)
Definition setTimeout (cb : Callback) (delay : Z) (w : World) : World :=
  setTimers (timers w ++ [(delay, cb)]) w.

Definition console_log (msg : string) (w : World) : World :=
  setConsole (console w ++ [mkLog LevelLog msg None]) w.

Definition console_warn (msg : string) (w : World) : World :=
  setConsole (console w ++ [mkLog LevelWarn msg None]) w.

Definition console_error (msg : string) (e : Js.JsError) (w : World) : World :=
  setConsole (console w ++ [mkLog LevelError msg (Some e)]) w.

(** Update of the element named by [h]. *)
Definition updateNode (h : nat) (f : Element → Element) (w : World) : World :=
  setNodes (alter f h (nodes w)) w.

(** Whether the element named by [h] exists and satisfies [p]. *)
Definition satisfies (p : Element → bool) (w : World) (h : nat) : bool :=
  match nodes w !! h with
  | Some e => p e
  | None => false
  end.

(** Whether class [c] is on the element named by [h]. *)
Definition hasClass (c : string) (h : nat) (w : World) : bool :=
  satisfies (contains c) w h.

(** Handles of the elements that satisfy [p], in document order. *)
Definition selectAll (p : Element → bool) (w : World) : list nat :=
  filter (λ h, satisfies p w h = true) (seq 0 (length (nodes w))).

(** [document.getElementById(id)] *)
Definition getElementById (id : string) (w : World) : option nat :=
  head (selectAll (λ e, bool_decide (getAttribute "id" e = Some id)) w).

(** [document.querySelectorAll('.' + c)] *)
Definition querySelectorAll_class (c : string) (w : World) : list nat :=
  selectAll (contains c) w.

(** [document.querySelectorAll('section[id]')] *)
Definition querySelectorAll_section_id (w : World) : list nat :=
  selectAll (λ e, bool_decide (tagName e = "section") &&
                  bool_decide (is_Some (getAttribute "id" e))) w.

(** [document.querySelector('meta[name="theme-color"]')] *)
Definition querySelector_meta_theme_color (w : World) : option nat :=
  head (selectAll (λ e, bool_decide (tagName e = "meta") &&
                        bool_decide (getAttribute "name" e = Some "theme-color")) w).

(** Whether a proper ancestor of [h] carries class [c]; the walk up the
    tree ends at the body and the root. *)
Fixpoint hasAncestor (fuel : nat) (c : string) (w : World) (h : nat) : bool :=
  match fuel with
  | O => false
  | S fuel' =>
      match nodes w !! h with
      | None => false
      | Some e =>
          match parentNode e with
          | None => contains c (body w) || contains c (documentElement w)
          | Some p =>
              match nodes w !! p with
              | None => false
              | Some pe => contains c pe || hasAncestor fuel' c w p
              end
          end
      end
  end.

(** [document.querySelector('.hero-title .gradient-text')] *)
Definition querySelector_hero_title (w : World) : option nat :=
  head (filter (λ h, hasAncestor (length (nodes w)) "hero-title" w h = true)
               (querySelectorAll_class "gradient-text" w)).

Definition setBody (e : Element) (w : World) : World :=
  mkWorld (documentElement w) e (nodes w) (scrollY w) (prefersDark w)
          (localStorage w) (listeners w) (timers w) (console w).

(** The browser moves the page to offset [y]. *)
Definition setScrollY (y : Z) (w : World) : World :=
  mkWorld (documentElement w) (body w) (nodes w) y (prefersDark w)
          (localStorage w) (listeners w) (timers w) (console w).

(** [element.style.prop = value]: the empty string removes the
    declaration, any other value sets it. *)
Definition assignStyle (prop value : string) (e : Element) : Element :=
  if bool_decide (value = "")
  then mkElement (tagName e) (parentNode e) (attributes e) (classList e)
                 (delete prop (style e)) (textContent e) (pageTop e) (offsetHeight e)
  else setStyle prop value e.

(** [element.style.prop] read back: the empty string when not declared. *)
Definition styleOf (prop : string) (e : Element) : string :=
  default "" (style e !! prop).

(** Where a click lands: on one of the listed elements, on the body, or on
    the root. *)
Inductive ClickTarget :=
| OnNode (h : nat)
| OnBody
| OnRoot.

(** Whether [b] is [a] or lies below it in the tree. *)
Fixpoint isSelfOrDescendant (fuel : nat) (w : World) (a b : nat) : bool :=
  bool_decide (a = b) ||
  match fuel with
  | O => false
  | S fuel' =>
      match nodes w !! b ≫= parentNode with
      | Some p => isSelfOrDescendant fuel' w a p
      | None => false
      end
  end.

(** [a.contains(target)] for a listed element [a]. *)
Definition nodeContains (w : World) (a : nat) (target : ClickTarget) : bool :=
  match target with
  | OnNode b => isSelfOrDescendant (length (nodes w)) w a b
  | OnBody | OnRoot => false
  end.

End Dom.

(** ** ThemeManager *)

Module ThemeManager.
Import Dom.

Record t := mk {
  currentTheme : string;
  prefersDarkMode : bool
}.

Definition constructor : t := mk "light" false.

Definition hasUserPreference (w : World) : bool :=
  bool_decide (is_Some (localStorage w !! "portfolio-theme")).

Definition updateMetaThemeColor (this : t) (w : World) : World :=
  match querySelector_meta_theme_color w with
  | Some metaThemeColor =>
      let color := if bool_decide (currentTheme this = "dark") then "#1e293b" else "#ffffff" in
      updateNode metaThemeColor (setAttribute "content" color) w
  | None => w
  end.

Definition applyTheme (this : t) (w : World) : World :=
  updateMetaThemeColor this
    (setDocumentElement (setAttribute "data-theme" (currentTheme this) (documentElement w)) w).

Definition detectSystemPreference (s : t * World) : t * World :=
  let '(this, w) := s in
  (mk (currentTheme this) (prefersDark w),
   addEventListener (MediaQueryTarget "(prefers-color-scheme: dark)") "change"
                    (Arrow "ThemeManager.detectSystemPreference") w).

Definition loadSavedTheme (s : t * World) : t * World :=
  let '(this, w) := s in
  let savedTheme := localStorage w !! "portfolio-theme" in
  if Js.truthy savedTheme && bool_decide (savedTheme ∈ [Some "light"; Some "dark"])
  then (mk (default "" savedTheme) (prefersDarkMode this), w)
  else (mk (if prefersDarkMode this then "dark" else "light") (prefersDarkMode this), w).

Definition saveTheme (this : t) (w : World) : World :=
  setLocalStorage (<["portfolio-theme" := currentTheme this]> (localStorage w)) w.

Definition toggleTheme (s : t * World) : t * World :=
  let '(this, w) := s in
  let this' := mk (if bool_decide (currentTheme this = "light") then "dark" else "light")
                  (prefersDarkMode this) in
  (this', saveTheme this' (applyTheme this' w)).

(** The listener installed by [detectSystemPreference], run on a change of
    the system colour scheme to [matches]. *)
Definition onSystemChange (matches : bool) (s : t * World) : t * World :=
  let '(this, w) := s in
  if negb (hasUserPreference w)
  then let this' := mk (if matches then "dark" else "light") (prefersDarkMode this) in
       (this', applyTheme this' w)
  else (this, w).

Definition init (s : t * World) : t * World :=
  let s1 := detectSystemPreference s in
  let s2 := loadSavedTheme s1 in
  (s2.1, applyTheme s2.1 s2.2).

(** What can happen to the theme once it is initialised: the user toggles
    it, or the system colour scheme changes to dark ([true]) or light. *)
Inductive Event :=
| Toggle
| SystemChange (matches : bool).

Definition step (s : t * World) (ev : Event) : t * World :=
  match ev with
  | Toggle => toggleTheme s
  | SystemChange matches => onSystemChange matches s
  end.

Definition run (evs : list Event) (s : t * World) : t * World :=
  foldl step s evs.

(** The colour [updateMetaThemeColor] writes for a theme. *)
Definition themeColor (theme : string) : string :=
  if bool_decide (theme = "dark") then "#1e293b" else "#ffffff".

End ThemeManager.

(** ** NavigationManager *)

Module NavigationManager.
Import Dom.

Record t := mk {
  navbar : option nat;
  navToggle : option nat;
  navMenu : option nat;
  navLinks : list nat;
  isMenuOpen : bool;
  scrollThreshold : Z
}.

Definition constructor : t := mk None None None [] false 50.

(** Reading a property of [null] raises a [TypeError]. *)
Definition deref (what : string) (r : option nat) (w : World) : Js.JsError + Element :=
  match r with
  | None => inl (Js.TypeErrorObj ("Cannot read properties of null: " +:+ what))
  | Some h =>
      match nodes w !! h with
      | Some e => inr e
      | None => inl (Js.TypeErrorObj ("Cannot read properties of null: " +:+ what))
      end
  end.

Definition cacheElements : Js.Eff (t * World) unit := λ s,
  let '(this, w) := s in
  let this' := mk (getElementById "navbar" w)
                  (getElementById "mobile-menu" w)
                  (getElementById "nav-menu" w)
                  (querySelectorAll_class "nav-link" w)
                  (isMenuOpen this) (scrollThreshold this) in
  match navbar this', navToggle this', navMenu this' with
  | Some _, Some _, Some _ => (inr tt, (this', w))
  | _, _, _ => (inl (Js.ErrorObj "Required navigation elements not found"), (this', w))
  end.

Definition bindEvents : Js.Eff (t * World) unit := λ s,
  let '(this, w) := s in
  match navToggle this with
  | None => (inl (Js.TypeErrorObj "Cannot read properties of null: addEventListener"), s)
  | Some toggle =>
      let w1 := addEventListener (NodeTarget toggle) "click"
                  (Bound "NavigationManager" "toggleMobileMenu") w in
      let w2 := foldl (λ acc link,
                  addEventListener (NodeTarget link) "click"
                    (Bound "NavigationManager" "handleNavLinkClick") acc) w1 (navLinks this) in
      let w3 := addEventListener DocumentTarget "click"
                  (Bound "NavigationManager" "handleOutsideClick") w2 in
      let w4 := addEventListener WindowTarget "scroll"
                  (Throttled (Bound "NavigationManager" "handleScroll") 16) w3 in
      (inr tt, (this, w4))
  end.

(** The loop over [section[id]]: the id of the last section whose top is
    not below [scrollPosition], or the initial [''] . *)
Definition findCurrentSection (scrollPosition : Z) (w : World) : string :=
  foldl (λ currentSection h,
           match nodes w !! h with
           | Some section =>
               let sectionTop := (pageTop section - scrollY w + scrollY w)%Z in
               if (scrollPosition >=? sectionTop)%Z
               then default "" (getAttribute "id" section)
               else currentSection
           | None => currentSection
           end)
        "" (querySelectorAll_section_id w).

(** The loop over [this.navLinks]; a link without [href] makes
    [getAttribute('href')] null and [.substring(1)] throw. *)
Fixpoint updateLinks (currentSection : string) (links : list nat) (w : World)
    : (Js.JsError + unit) * World :=
  match links with
  | [] => (inr tt, w)
  | link :: rest =>
      match nodes w !! link ≫= getAttribute "href" with
      | None => (inl (Js.TypeErrorObj "Cannot read properties of null: substring"), w)
      | Some href =>
          let targetId := Js.substring1 href in
          updateLinks currentSection rest
            (updateNode link
               (classList_toggle "active" (bool_decide (targetId = currentSection))) w)
      end
  end.

Definition setActiveLink : Js.Eff (t * World) unit := λ s,
  let '(this, w) := s in
  match deref "offsetHeight" (navbar this) w with
  | inl e => (inl e, s)
  | inr nav =>
      let scrollPosition := (scrollY w + offsetHeight nav + 100)%Z in
      let currentSection := findCurrentSection scrollPosition w in
      match updateLinks currentSection (navLinks this) w with
      | (r, w') => (r, (this, w'))
      end
  end.

Definition init : Js.Eff (t * World) unit :=
  cacheElements ;;; bindEvents ;;; setActiveLink.

(** In the words of the specification: the last section, in document
    order, whose top offset is at most [position]. *)
Definition lastSectionAtOrAbove (position : Z) (w : World) : option nat :=
  last (filter (λ h, satisfies (λ e, (pageTop e <=? position)%Z) w h = true)
               (querySelectorAll_section_id w)).

Definition sectionId (h : nat) (w : World) : string :=
  default "" (nodes w !! h ≫= getAttribute "id").

Definition setMenuOpen (open : bool) (this : t) : t :=
  mk (navbar this) (navToggle this) (navMenu this) (navLinks this) open
     (scrollThreshold this).

Definition toggleMobileMenu : Js.Eff (t * World) unit := λ s,
  let '(this, w) := s in
  let this' := setMenuOpen (negb (isMenuOpen this)) this in
  match navMenu this' with
  | None => (inl (Js.TypeErrorObj "Cannot read properties of null: classList"), (this', w))
  | Some menu =>
      let w1 := updateNode menu (classList_toggle "active" (isMenuOpen this')) w in
      match navToggle this' with
      | None =>
          (inl (Js.TypeErrorObj "Cannot read properties of null: classList"), (this', w1))
      | Some toggle =>
          let w2 := updateNode toggle (classList_toggle "active" (isMenuOpen this')) w1 in
          let w3 := setBody (assignStyle "overflow"
                               (if isMenuOpen this' then "hidden" else "") (body w2)) w2 in
          let w4 := updateNode toggle
                      (setAttribute "aria-expanded"
                         (if isMenuOpen this' then "true" else "false")) w3 in
          (inr tt, (this', w4))
      end
  end.

(** [handleOutsideClick(event)], by [event.target]; the conjunction stops
    at its first false operand. *)
Definition handleOutsideClick (target : ClickTarget) : Js.Eff (t * World) unit := λ s,
  let '(this, w) := s in
  if isMenuOpen this then
    match navMenu this with
    | None => (inl (Js.TypeErrorObj "Cannot read properties of null: contains"), s)
    | Some menu =>
        if negb (nodeContains w menu target) then
          match navToggle this with
          | None => (inl (Js.TypeErrorObj "Cannot read properties of null: contains"), s)
          | Some toggle =>
              if negb (nodeContains w toggle target) then toggleMobileMenu s
              else (inr tt, s)
          end
        else (inr tt, s)
    end
  else (inr tt, s).

(** [handleResize()], by the [window.innerWidth] it reads. *)
Definition handleResize (innerWidth : Z) : Js.Eff (t * World) unit := λ s,
  if (innerWidth >? 768)%Z && isMenuOpen s.1 then toggleMobileMenu s else (inr tt, s).

Definition handleScroll : Js.Eff (t * World) unit := λ s,
  let '(this, w) := s in
  match navbar this with
  | None => (inl (Js.TypeErrorObj "Cannot read properties of null: classList"), s)
  | Some nav =>
      setActiveLink
        (this, updateNode nav
                 (classList_toggle "scrolled" (scrollY w >? scrollThreshold this)%Z) w)
  end.

(** What the page can do to the navigation once it is initialised, one
    run of a listener each: the toggle's click listener
    ([toggleMobileMenu]), the document's click listener
    ([handleOutsideClick], for an event with that target), the resize
    handler and the scroll handler.  A click on the toggle runs the toggle's
    listener and then the document's. *)
Inductive Event :=
| ToggleClick
| Click (target : ClickTarget)
| Resized (innerWidth : Z)
| Scrolled (y : Z).

(** One event, handled; an exception ends the handler and is reported by
    the dispatcher. *)
Definition step (s : t * World) (ev : Event) : t * World :=
  match ev with
  | ToggleClick => (toggleMobileMenu s).2
  | Click target => (handleOutsideClick target s).2
  | Resized innerWidth => (handleResize innerWidth s).2
  | Scrolled y => (handleScroll (s.1, setScrollY y s.2)).2
  end.

Definition run (evs : list Event) (s : t * World) : t * World :=
  foldl step s evs.

(** The menu's open state is mirrored on the page: both elements carry
    [active], the body is locked and [aria-expanded] says [true] exactly
    when the menu is open. *)
Definition inSync (s : t * World) : Prop :=
  ∃ menu toggle,
    navMenu s.1 = Some menu ∧ navToggle s.1 = Some toggle ∧
    is_Some (nodes s.2 !! menu) ∧
    hasClass "active" menu s.2 = isMenuOpen s.1 ∧
    hasClass "active" toggle s.2 = isMenuOpen s.1 ∧
    styleOf "overflow" (body s.2) = (if isMenuOpen s.1 then "hidden" else "") ∧
    (nodes s.2 !! toggle ≫= getAttribute "aria-expanded")
      = Some (if isMenuOpen s.1 then "true" else "false").

End NavigationManager.

(** ** ScrollManager *)

Module ScrollManager.
Import Dom.

Record t := mk {
  scrollToTopButton : option nat;
  scrollThreshold : Z
}.

Definition constructor : t := mk None 300.

(** The declarations of the [style.cssText] assigned to the button. *)
Definition buttonStyle : gmap string string :=
  list_to_map
    [("position", "fixed"); ("bottom", "30px"); ("right", "30px");
     ("width", "50px"); ("height", "50px");
     ("background", "var(--primary-color)"); ("color", "white");
     ("border", "none"); ("border-radius", "50%"); ("cursor", "pointer");
     ("opacity", "0"); ("visibility", "hidden");
     ("transition", "all 0.3s ease"); ("z-index", "1000");
     ("box-shadow", "var(--shadow-medium)")].

(** The button and the icon its [innerHTML] creates are appended at the end
    of the body. *)
Definition createScrollToTopButton (s : t * World) : t * World :=
  let '(this, w) := s in
  let h := length (nodes w) in
  let button :=
    mkElement "button" None {["aria-label" := "Scroll to top"]}
              ["scroll-to-top"] buttonStyle "" 0 0 in
  let icon :=
    mkElement "i" (Some h) ∅ ["fas"; "fa-arrow-up"] ∅ "" 0 0 in
  (mk (Some h) (scrollThreshold this), setNodes (nodes w ++ [button; icon]) w).

Definition bindEvents : Js.Eff (t * World) unit := λ s,
  let '(this, w) := s in
  let w1 := addEventListener WindowTarget "scroll"
              (Throttled (Bound "ScrollManager" "handleScroll") 16) w in
  match scrollToTopButton this with
  | Some b => (inr tt, (this, addEventListener (NodeTarget b) "click"
                                (Bound "ScrollManager" "scrollToTop") w1))
  | None => (inl (Js.TypeErrorObj "Cannot read properties of null: addEventListener"),
             (this, w1))
  end.

Definition init : Js.Eff (t * World) unit :=
  Js.modify createScrollToTopButton ;;; bindEvents.

Definition handleScroll : Js.Eff (t * World) unit := λ s,
  let '(this, w) := s in
  let shouldShow := (scrollY w >? scrollThreshold this)%Z in
  match scrollToTopButton this with
  | None => (inl (Js.TypeErrorObj "Cannot read properties of null: style"), s)
  | Some button =>
      let w1 := updateNode button
                  (assignStyle "opacity" (if shouldShow then "1" else "0")) w in
      let w2 := updateNode button
                  (assignStyle "visibility" (if shouldShow then "visible" else "hidden"))
                  w1 in
      let w3 := updateNode button
                  (assignStyle "transform"
                     (if shouldShow then "translateY(0)" else "translateY(10px)")) w2 in
      (inr tt, (this, w3))
  end.

(** The style declaration [prop] of the element named by [h]. *)
Definition styleAt (prop : string) (h : nat) (w : World) : option string :=
  styleOf prop <$> nodes w !! h.

End ScrollManager.

(** ** AnimationManager *)

Module AnimationManager.
Import Dom.

(** What the browser hands to the observer's callback for one target. *)
Record IntersectionObserverEntry := mkEntry {
  target : nat;
  isIntersecting : bool
}.

(** [intersectionObserver] is [null] or the observer; of the observer the
    component only ever uses its set of observation targets.  The options it
    was created with (threshold 0.1, root margin) decide which entries the
    browser reports as intersecting. *)
Record t := mk {
  observedElements : gset nat;
  intersectionObserver : option (gset nat);
  isAnimationPaused : bool
}.

Definition constructor : t := mk ∅ None false.

Definition animateElement (element : nat) (w : World) : World :=
  updateNode element (classList_add "animated") w.

(** [this.intersectionObserver.unobserve(element)], inside the callback. *)
Definition unobserve (element : nat) (this : t) : t :=
  mk (observedElements this)
     ((λ targets, targets ∖ {[element]}) <$> intersectionObserver this)
     (isAnimationPaused this).

(** The arrow function given to [entries.forEach]. *)
Definition onEntry (s : t * World) (entry : IntersectionObserverEntry) : t * World :=
  if isIntersecting entry
  then (unobserve (target entry) s.1, animateElement (target entry) s.2)
  else s.

(** The arrow function given to [new IntersectionObserver]. *)
Definition observerCallback (entries : list IntersectionObserverEntry)
    (s : t * World) : t * World :=
  if isAnimationPaused s.1 then s
  else foldl onEntry s entries.

Definition setupIntersectionObserver (s : t * World) : t * World :=
  (mk (observedElements s.1) (Some ∅) (isAnimationPaused s.1), s.2).

Definition selectors : list string :=
  ["section-header"; "timeline-item"; "skill-category"; "project-card";
   "about-text"; "contact-item"; "education-card"].

(** The inner [elements.forEach((element, index) => ...)]. *)
Fixpoint observeEach (index : nat) (elements : list nat) : Js.Eff (t * World) unit :=
  match elements with
  | [] => Js.ret tt
  | element :: rest => λ s,
      let '(this, w) := s in
      let w1 := updateNode element (classList_add "animate-on-scroll") w in
      let w2 := updateNode element
                  (setStyle "animationDelay" (pretty (index * 100) +:+ "ms")) w1 in
      match intersectionObserver this with
      | None =>
          (inl (Js.TypeErrorObj "Cannot read properties of null: observe"), (this, w2))
      | Some targets =>
          observeEach (S index) rest
            (mk (observedElements this ∪ {[element]})
                (Some (targets ∪ {[element]}))
                (isAnimationPaused this), w2)
      end
  end.

(** The outer [selectors.forEach(selector => ...)]. *)
Fixpoint observeSelectors (sels : list string) : Js.Eff (t * World) unit :=
  match sels with
  | [] => Js.ret tt
  | selector :: rest => λ s,
      Js.bind (observeEach 0 (querySelectorAll_class selector s.2))
              (λ _, observeSelectors rest) s
  end.

Definition observeElements : Js.Eff (t * World) unit :=
  observeSelectors selectors.

(** The synchronous part of the typewriter effect; the typing itself runs
    from the timer it schedules. *)
Definition addTypingEffect (s : t * World) : t * World :=
  let '(this, w) := s in
  match querySelector_hero_title w with
  | None => s
  | Some heroTitle =>
      let w1 := updateNode heroTitle (setTextContent "") w in
      let w2 := updateNode heroTitle
                  (setStyle "borderRight" "2px solid var(--primary-color)") w1 in
      (this, setTimeout (Arrow "AnimationManager.addTypingEffect.typeText") 500 w2)
  end.

Definition init : Js.Eff (t * World) unit :=
  Js.modify setupIntersectionObserver ;;; observeElements ;;; Js.modify addTypingEffect.

Definition pause (this : t) : t :=
  mk (observedElements this) (intersectionObserver this) true.

Definition resume (this : t) : t :=
  mk (observedElements this) (intersectionObserver this) false.

Definition handleResize : Js.Eff (t * World) unit := λ s,
  if bool_decide (size (observedElements s.1) = 0)
  then observeElements s
  else (inr tt, s).

(** The browser's side of the observer: it reports entries only for
    elements that are observation targets, by calling the callback. *)
Definition notify (entries : list IntersectionObserverEntry) (s : t * World) : t * World :=
  match intersectionObserver s.1 with
  | None => s
  | Some targets => observerCallback (filter (λ entry, target entry ∈ targets) entries) s
  end.

(** What can happen to the component once it is initialised. *)
Inductive Event :=
| Pause
| Resume
| Intersection (entries : list IntersectionObserverEntry)
| Resize.

Definition step (s : t * World) (ev : Event) : t * World :=
  match ev with
  | Pause => (pause s.1, s.2)
  | Resume => (resume s.1, s.2)
  | Intersection entries => notify entries s
  | Resize => (handleResize s).2
  end.

Definition run (evs : list Event) (s : t * World) : t * World :=
  foldl step s evs.

(** Whether the observer exists and has [h] among its targets. *)
Definition isObserved (h : nat) (this : t) : bool :=
  match intersectionObserver this with
  | Some targets => bool_decide (h ∈ targets)
  | None => false
  end.

(** Every target of the observer is in the component's own set. *)
Definition recorded (this : t) : Prop :=
  ∀ h, isObserved h this = true → h ∈ observedElements this.

(** Whether [observeElements] selects the element named by [h]: it
    carries the class of one of the selectors. *)
Definition matchesSelector (sels : list string) (h : nat) (w : World) : Prop :=
  ∃ selector, selector ∈ sels ∧ hasClass selector h w = true.

(** *** The typewriter

    [text.length] and [text.charAt(i)] count UTF-16 code units.  A string
    here is a sequence of bytes, and the bytes of a text are its code
    units exactly when all its characters are ASCII: the typewriter is
    embedded for such a headline, and what is proved of it assumes
    [isAscii] of the text. *)

Definition isAscii (s : string) : bool :=
  forallb (λ a, (Ascii.N_of_ascii a <? 128)%N) (String.list_ascii_of_string s).

(** The variables that the closure [typeText] of [addTypingEffect] keeps:
    the element, the text it had, and how much of it has been typed. *)
Record Typing := mkTyping {
  heroTitle : nat;
  text : string;
  charIndex : nat
}.

(** [s.charAt(i)] for an ASCII text: the character at [i], and the empty
    string when [i] is out of range. *)
Definition charAt (i : nat) (s : string) : string :=
  match String.get i s with
  | Some c => String c EmptyString
  | None => ""
  end.

Definition textOf (h : nat) (w : World) : string :=
  from_option textContent "" (nodes w !! h).

(** The closure as [addTypingEffect] creates it, when the headline is on
    the page. *)
Definition typing (w : World) : option Typing :=
  (λ h, mkTyping h (textOf h w) 0) <$> querySelector_hero_title w.

(** One run of [typeText], from a timer, for an ASCII text ([text.length]
    is then the number of its characters). *)
Definition typeText (s : Typing * World) : Typing * World :=
  let '(c, w) := s in
  if charIndex c <? String.length (text c) then
    let w1 := updateNode (heroTitle c)
                (λ e, setTextContent (textContent e +:+ charAt (charIndex c) (text c)) e) w in
    (mkTyping (heroTitle c) (text c) (S (charIndex c)),
     setTimeout (Arrow "AnimationManager.addTypingEffect.typeText") 100 w1)
  else
    (c, setTimeout (Arrow "AnimationManager.addTypingEffect.removeCursor") 1000 w).

(** The arrow function that [typeText] schedules at the end. *)
Definition removeCursor (c : Typing) (w : World) : World :=
  updateNode (heroTitle c) (setStyle "borderRight" "none") w.

End AnimationManager.

(** ** PortfolioApp, the orchestrator *)

Module PortfolioApp.
Import Dom.

Inductive Component :=
| Navigation (c : NavigationManager.t)
| Scroll (c : ScrollManager.t)
| Animation (c : AnimationManager.t)
| Theme (c : ThemeManager.t).

(** [component.init()], dispatched on the class of the component. *)
Definition Component_init : Js.Eff (Component * World) unit := λ s,
  match s with
  | (Navigation c, w) =>
      let '(r, (c', w')) := NavigationManager.init (c, w) in (r, (Navigation c', w'))
  | (Scroll c, w) =>
      let '(r, (c', w')) := ScrollManager.init (c, w) in (r, (Scroll c', w'))
  | (Animation c, w) =>
      let '(r, (c', w')) := AnimationManager.init (c, w) in (r, (Animation c', w'))
  | (Theme c, w) =>
      let '(c', w') := ThemeManager.init (c, w) in (inr tt, (Theme c', w'))
  end.

Section Registry.
Context {C : Type}.
Variable component_init : Js.Eff (C * World) unit.

(** [Map.prototype.set]: a known key keeps its place, a new one goes last. *)
Fixpoint map_set (name : string) (c : C) (m : list (string * C)) : list (string * C) :=
  match m with
  | [] => [(name, c)]
  | (k, v) :: rest =>
      if bool_decide (k = name) then (k, c) :: rest else (k, v) :: map_set name c rest
  end.

(** The body of the [forEach] callback: the [try]/[catch] around one
    component's [init()]. *)
Definition initializeOne (name : string) : Js.Eff (C * World) unit :=
  Js.try_catch
    (component_init ;;;
     Js.modify (λ s, (s.1, console_log (name +:+ " component initialized") s.2)))
    (λ error,
     Js.modify (λ s, (s.1, console_error ("Failed to initialize " +:+ name +:+ " component:")
                                         error s.2))).

(** [this.components.forEach(...)], in insertion order; the completion of
    the callback is the completion of the loop. *)
Fixpoint initializeComponents (components : list (string * C))
    : Js.Eff World (list (string * C)) :=
  match components with
  | [] => Js.ret []
  | (name, component) :: rest => λ w,
      match initializeOne name (component, w) with
      | (inr _, (component', w')) =>
          match initializeComponents rest w' with
          | (inr rest', w'') => (inr ((name, component') :: rest'), w'')
          | (inl e, w'') => (inl e, w'')
          end
      | (inl e, (_, w')) => (inl e, w')
      end
  end.

End Registry.

(** The console entry the [forEach] callback writes for a component, by
    the completion of its [init()]. *)
Definition logged (name : string) (r : Js.JsError + unit) (w : World) : World :=
  match r with
  | inr _ => console_log (name +:+ " component initialized") w
  | inl error => console_error ("Failed to initialize " +:+ name +:+ " component:") error w
  end.

Record t := mk {
  components : list (string * Component);
  isInitialized : bool
}.

Definition constructor : t := mk [] false.

Definition registerComponents (s : t * World) : t * World :=
  let '(this, w) := s in
  let m1 := map_set "navigation" (Navigation NavigationManager.constructor) (components this) in
  let m2 := map_set "scroll" (Scroll ScrollManager.constructor) m1 in
  let m3 := map_set "animation" (Animation AnimationManager.constructor) m2 in
  let m4 := map_set "theme" (Theme ThemeManager.constructor) m3 in
  (mk m4 (isInitialized this), w).

Definition initializeAll : Js.Eff (t * World) unit := λ s,
  let '(this, w) := s in
  match initializeComponents Component_init (components this) w with
  | (inr cs, w') => (inr tt, (mk cs (isInitialized this), w'))
  | (inl e, w') => (inl e, (this, w'))
  end.

Definition bindEvents (s : t * World) : t * World :=
  let '(this, w) := s in
  let w1 := addEventListener DocumentTarget "visibilitychange"
              (Bound "PortfolioApp" "handleVisibilityChange") w in
  let w2 := addEventListener WindowTarget "resize"
              (Debounced (Bound "PortfolioApp" "handleResize") 250) w1 in
  let w3 := addEventListener WindowTarget "error"
              (Bound "PortfolioApp" "handleError") w2 in
  (this, w3).

Definition init : Js.Eff (t * World) unit := λ s,
  if isInitialized s.1
  then (inr tt, (s.1, console_warn "Application already initialized" s.2))
  else
    Js.try_catch
      (Js.modify registerComponents ;;;
       initializeAll ;;;
       Js.modify bindEvents ;;;
       Js.modify (λ s, (mk (components s.1) true, s.2)) ;;;
       Js.modify (λ s, (s.1, console_log "Portfolio application initialized successfully" s.2)))
      (λ error,
       Js.modify (λ s, (s.1, console_error "Failed to initialize application:" error s.2)))
      s.

(** [Map.prototype.get] *)
Fixpoint map_get {C} (name : string) (m : list (string * C)) : option C :=
  match m with
  | [] => None
  | (k, v) :: rest => if bool_decide (k = name) then Some v else map_get name rest
  end.

(** [handleVisibilityChange()], by the [document.visibilityState] it
    reads.  The optional call does nothing when no component is registered
    under [animation]; of the components only the animation manager has
    [resume] and [pause]. *)
Definition handleVisibilityChange (visibilityState : string) : Js.Eff (t * World) unit :=
  λ s,
  let '(this, w) := s in
  match map_get "animation" (components this) with
  | None => (inr tt, s)
  | Some (Animation c) =>
      let c' := if bool_decide (visibilityState = "visible")
                then AnimationManager.resume c else AnimationManager.pause c in
      (inr tt, (mk (map_set "animation" (Animation c') (components this))
                   (isInitialized this), w))
  | Some _ =>
      (inl (Js.TypeErrorObj
              (if bool_decide (visibilityState = "visible")
               then "resume is not a function" else "pause is not a function")), s)
  end.

(** The class of a component. *)
Definition kind (c : Component) : string :=
  match c with
  | Navigation _ => "NavigationManager"
  | Scroll _ => "ScrollManager"
  | Animation _ => "AnimationManager"
  | Theme _ => "ThemeManager"
  end.

(** [component.handleResize()], by the [window.innerWidth] it reads.  The
    navigation and the animation manager have the method; for the other
    classes [typeof component.handleResize] is not ['function'] and the
    callback does nothing. *)
Definition Component_handleResize (innerWidth : Z) : Js.Eff (Component * World) unit := λ s,
  match s with
  | (Navigation c, w) =>
      let '(r, (c', w')) := NavigationManager.handleResize innerWidth (c, w) in
      (r, (Navigation c', w'))
  | (Animation c, w) =>
      let '(r, (c', w')) := AnimationManager.handleResize (c, w) in
      (r, (Animation c', w'))
  | (Scroll _, _) | (Theme _, _) => (inr tt, s)
  end.

(** [this.components.forEach(...)] of [handleResize()]: nothing catches
    here, so an exception ends the loop with the later components
    untouched. *)
Fixpoint resizeEach (innerWidth : Z) (cs : list (string * Component)) (w : World)
    : (Js.JsError + unit) * (list (string * Component) * World) :=
  match cs with
  | [] => (inr tt, ([], w))
  | (name, c) :: rest =>
      match Component_handleResize innerWidth (c, w) with
      | (inr _, (c', w')) =>
          let '(r, (rest', w'')) := resizeEach innerWidth rest w' in
          (r, ((name, c') :: rest', w''))
      | (inl e, (c', w')) => (inl e, ((name, c') :: rest, w'))
      end
  end.

Definition handleResize (innerWidth : Z) : Js.Eff (t * World) unit := λ s,
  let '(r, (cs, w')) := resizeEach innerWidth (components s.1) s.2 in
  (r, (mk cs (isInitialized s.1), w')).

End PortfolioApp.

(** ** Utils.throttle

    [NavigationManager.throttle] and [ScrollManager.throttle] are the same
    function, word for word, so this one embedding stands for the three. *)

Module Utils.

(** The closure of one wrapper together with the part of the event loop it
    lives in: the clock, the closure variable [inThrottle] ([undefined] at
    first, which is falsy), the due times of the pending
    [() => inThrottle = false] timers in the order they were set, the times
    at which [func] was applied, and the variables [func] works on. *)
Record Loop (S : Type) := mkLoop {
  now : Z;
  inThrottle : bool;
  resets : list Z;
  applied : list Z;
  context : S
}.
Arguments mkLoop {S}.
Arguments now {S}.
Arguments inThrottle {S}.
Arguments resets {S}.
Arguments applied {S}.
Arguments context {S}.

Definition setContext {S} (c : S) (l : Loop S) : Loop S :=
  mkLoop (now l) (inThrottle l) (resets l) (applied l) c.

Inductive Tick :=
| Call
| Elapse (ms : N)
| Timer.

(** What one application of [func] does, as far as its wrapper can tell.
    It returns or it throws, leaving its variables at [c]; on the way it
    may call the wrapper it was given to.  [Reenters c k]: with its
    variables at [c] the handler calls the wrapper, and then goes on as [k]
    says, from the completion of that call and from the variables the call
    left. *)
Inductive Run (S : Type) :=
| Returns (c : S)
| Throws (e : Js.JsError) (c : S)
| Reenters (c : S) (k : Js.JsError + unit → S → Run S).
Arguments Returns {S}.
Arguments Throws {S}.
Arguments Reenters {S}.

Section Throttle.
Context {S : Type}.
Variable func : S → Run S.
Variable limit : Z.

(** The run of a handler that has been applied; [wrapper] serves the
    calls it makes. *)
Fixpoint exec (wrapper : Js.Eff (Loop S) unit) (p : Run S) : Js.Eff (Loop S) unit := λ l,
  match p with
  | Returns c => (inr tt, setContext c l)
  | Throws e c => (inl e, setContext c l)
  | Reenters c k =>
      let '(r, l1) := wrapper (setContext c l) in
      exec wrapper (k r (context l1)) l1
  end.

(** A call for which the stack has no room left. *)
Definition overflow : Js.Eff (Loop S) unit := λ l,
  (inl (Js.RangeErrorObj "Maximum call stack size exceeded"), l).

(** The function [throttle(func, limit)] returns, on a stack with room for
    [stack] nested calls of it below this one.  [func] is applied first;
    the flag is set and the timer started only when it has returned, so a
    call of the wrapper that [func] makes finds the flag clear, and an
    exception of [func] leaves it clear.  A timer never runs before its
    delay has passed, and a negative delay counts as zero. *)
Fixpoint throttled (stack : nat) : Js.Eff (Loop S) unit := λ l,
  if negb (inThrottle l) then
    let nested := match stack with
                  | O => overflow
                  | Datatypes.S below => throttled below
                  end in
    match exec nested (func (context l))
               (mkLoop (now l) (inThrottle l) (resets l) (applied l ++ [now l])
                       (context l)) with
    | (inr _, l1) =>
        (inr tt, mkLoop (now l1) true (resets l1 ++ [(now l1 + Z.max 0 limit)%Z])
                        (applied l1) (context l1))
    | (inl e, l1) => (inl e, l1)
    end
  else (inr tt, l).

(** The oldest pending timer runs if it is due. *)
Definition fireTimer (l : Loop S) : Loop S :=
  match resets l with
  | due :: rest =>
      if (due <=? now l)%Z
      then mkLoop (now l) false rest (applied l) (context l)
      else l
  | [] => l
  end.

Variable stack : nat.

(** One turn of the event loop.  An exception that leaves the wrapper is
    reported by the dispatcher of the event and the loop goes on. *)
Definition step (l : Loop S) (t : Tick) : Loop S :=
  match t with
  | Call => (throttled stack l).2
  | Elapse ms => mkLoop (now l + Z.of_N ms)%Z (inThrottle l) (resets l) (applied l) (context l)
  | Timer => fireTimer l
  end.

Definition run (ticks : list Tick) (l : Loop S) : Loop S :=
  foldl step l ticks.

End Throttle.

(** A wrapper that has just been created, at clock [t0]. *)
Definition fresh {S} (t0 : Z) (c : S) : Loop S := mkLoop t0 false [] [] c.

(** The applications of [func] that fall in the window [[a, a + w)]. *)
Definition inWindow (a w : Z) (times : list Z) : list Z :=
  filter (λ t, (a ≤ t < a + w)%Z) times.

(** Any two entries of a list of times are at least [w] apart, in order. *)
Fixpoint Apart (w : Z) (times : list Z) : Prop :=
  match times with
  | [] => True
  | t :: rest => Forall (λ u, (t + w ≤ u)%Z) rest ∧ Apart w rest
  end.

(** What holds between the wrapper's flag, its pending timer and the
    applications of [func] made so far, when [func] returns normally
    without calling the wrapper. *)
Definition throttle_inv {S} (limit : Z) (l : Loop S) : Prop :=
  Apart limit (applied l) ∧
  if inThrottle l
  then ∃ due, resets l = [due] ∧ Forall (λ t, (t + limit ≤ due)%Z) (applied l)
  else resets l = [] ∧ Forall (λ t, (t + limit ≤ now l)%Z) (applied l).


(** A handler that counts its calls and throws on each of them, as
    [handleScroll] does when a navigation link has no [href]. *)
Definition alwaysThrows (calls : nat) : Run nat :=
  Throws (Js.TypeErrorObj "Cannot read properties of null: substring") (S calls).

(** A handler that counts its calls and returns. *)
Definition counting (calls : nat) : Run nat :=
  Returns (S calls).

(** A handler that counts its calls and, the first two times, calls its
    own wrapper before it returns:
    [f = () => { n++; if (n < 3) t(); }] with [t = throttle(f, limit)].
    It does not catch what the call may throw. *)
Definition reentering (calls : nat) : Run nat :=
  if S calls <? 3
  then Reenters (S calls) (λ r n, match r with
                                  | inr _ => Returns n
                                  | inl e => Throws e n
                                  end)
  else Returns (S calls).

(** *** Utils.isValidEmail

    A JavaScript string is a sequence of UTF-16 code units, and a regular
    expression without the [u] flag matches code unit by code unit. *)

Inductive Re :=
| ReEmpty
| ReEps
| ReSet (p : N → bool)
| ReSeq (r1 r2 : Re)
| ReAlt (r1 r2 : Re)
| ReStar (r : Re).

(** [r+] *)
Definition RePlus (r : Re) : Re := ReSeq r (ReStar r).

(** The strings a pattern stands for. *)
Inductive Matches : Re → list N → Prop :=
| MEps : Matches ReEps []
| MSet p c : p c = true → Matches (ReSet p) [c]
| MSeq r1 r2 s1 s2 : Matches r1 s1 → Matches r2 s2 → Matches (ReSeq r1 r2) (s1 ++ s2)
| MAltL r1 r2 s : Matches r1 s → Matches (ReAlt r1 r2) s
| MAltR r1 r2 s : Matches r2 s → Matches (ReAlt r1 r2) s
| MStarNil r : Matches (ReStar r) []
| MStarCons r s1 s2 : Matches r s1 → Matches (ReStar r) s2 → Matches (ReStar r) (s1 ++ s2).

Fixpoint nullable (r : Re) : bool :=
  match r with
  | ReEmpty => false
  | ReEps => true
  | ReSet _ => false
  | ReSeq r1 r2 => nullable r1 && nullable r2
  | ReAlt r1 r2 => nullable r1 || nullable r2
  | ReStar _ => true
  end.

(** What is left of the pattern once it has read [c]. *)
Fixpoint deriv (c : N) (r : Re) : Re :=
  match r with
  | ReEmpty => ReEmpty
  | ReEps => ReEmpty
  | ReSet p => if p c then ReEps else ReEmpty
  | ReSeq r1 r2 =>
      if nullable r1
      then ReAlt (ReSeq (deriv c r1) r2) (deriv c r2)
      else ReSeq (deriv c r1) r2
  | ReAlt r1 r2 => ReAlt (deriv c r1) (deriv c r2)
  | ReStar r1 => ReSeq (deriv c r1) (ReStar r1)
  end.

(** [/^r$/.test(s)] *)
Definition test (r : Re) (s : list N) : bool :=
  nullable (foldl (λ r c, deriv c r) r s).

(** The class [\s]: the white space and line terminator code points. *)
Definition isSpace (c : N) : bool :=
  bool_decide (c ∈ [9; 10; 11; 12; 13; 32; 160; 5760; 8232; 8233; 8239; 8287; 12288;
                    65279]%N)
  || ((8192 <=? c) && (c <=? 8202))%N.

Definition atSign : N := 64.
Definition fullStop : N := 46.

(** The class [[^\s@]]. *)
Definition notSpaceNorAt (c : N) : bool :=
  negb (isSpace c) && negb (c =? atSign)%N.

Definition literal (c : N) : Re := ReSet (λ x, (x =? c)%N).

(** [/^[^\s@]+@[^\s@]+\.[^\s@]+$/] *)
Definition emailRegex : Re :=
  ReSeq (RePlus (ReSet notSpaceNorAt))
    (ReSeq (literal atSign)
       (ReSeq (RePlus (ReSet notSpaceNorAt))
          (ReSeq (literal fullStop) (RePlus (ReSet notSpaceNorAt))))).

Definition isValidEmail (email : list N) : bool := test emailRegex email.

(** The code units of a string whose characters are all ASCII. *)
Definition codeUnits (s : string) : list N :=
  map Ascii.N_of_ascii (String.list_ascii_of_string s).

End Utils.

(** ** PortfolioApp.debounce and Utils.debounce *)

Module Debounce.

(** A timer that is set and has not yet run or been cleared: the id
    [setTimeout] returned, its due time, and the arguments of the call
    whose [later] it runs. *)
Record Pending (A : Type) := mkPending {
  id : nat;
  due : Z;
  args : A
}.
Arguments mkPending {A}.
Arguments id {A}.
Arguments due {A}.
Arguments args {A}.

(** The closure of one wrapper and the part of the event loop it lives in:
    the clock, the closure variable [timeout] ([undefined] or [null], or
    the id of a timer), the pending timers in the order they were set, the
    next id [setTimeout] hands out (ids are positive and never handed out
    twice), the applications of [func] with their times, and the state
    [func] works on. *)
Record Loop (A S : Type) := mkLoop {
  now : Z;
  timeout : option nat;
  pending : list (Pending A);
  nextId : nat;
  applied : list (Z * A);
  context : S
}.
Arguments mkLoop {A S}.
Arguments now {A S}.
Arguments timeout {A S}.
Arguments pending {A S}.
Arguments nextId {A S}.
Arguments applied {A S}.
Arguments context {A S}.

Inductive Tick (A : Type) :=
| Call (a : A)
| Elapse (ms : N)
| Timer.
Arguments Call {A}.
Arguments Elapse {A}.
Arguments Timer {A}.

(** [clearTimeout(handle)]: the timer with that id, if it is pending, is
    dropped; [undefined], [null] and ids of timers that are gone do
    nothing. *)
Definition clearTimeout {A} (handle : option nat) (timers : list (Pending A))
    : list (Pending A) :=
  match handle with
  | None => timers
  | Some h => filter (λ t, id t ≠ h) timers
  end.

Section Wrappers.
Context {A S : Type}.
Variable func : A → Js.Eff S unit.
Variable wait : Z.

(** [func(...args)] at the current time. *)
Definition applyFunc (a : A) (l : Loop A S) : (Js.JsError + unit) * Loop A S :=
  let '(r, c) := func a (context l) in
  (r, mkLoop (now l) (timeout l) (pending l) (nextId l) (applied l ++ [(now l, a)]) c).

(** [timeout = setTimeout(later, wait)], after [clearTimeout(timeout)]. *)
Definition reschedule (a : A) (l : Loop A S) : Loop A S :=
  mkLoop (now l) (Some (nextId l))
         (clearTimeout (timeout l) (pending l)
            ++ [mkPending (nextId l) (now l + Z.max 0 wait)%Z a])
         (Datatypes.S (nextId l)) (applied l) (context l).

(** The function [PortfolioApp.debounce(func, wait)] returns. *)
Definition app_call (a : A) : Js.Eff (Loop A S) unit := λ l,
  (inr tt, reschedule a l).

(** Its [later], run by the timer that closed over [a]. *)
Definition app_later (a : A) : Js.Eff (Loop A S) unit := λ l,
  applyFunc a (mkLoop (now l) (timeout l) (clearTimeout (timeout l) (pending l))
                  (nextId l) (applied l) (context l)).

(** The function [Utils.debounce(func, wait, immediate)] returns. *)
Definition utils_call (immediate : bool) (a : A) : Js.Eff (Loop A S) unit := λ l,
  let callNow := immediate && negb (bool_decide (is_Some (timeout l))) in
  let l1 := reschedule a l in
  if callNow then applyFunc a l1 else (inr tt, l1).

(** Its [later]. *)
Definition utils_later (immediate : bool) (a : A) : Js.Eff (Loop A S) unit := λ l,
  let l1 := mkLoop (now l) None (pending l) (nextId l) (applied l) (context l) in
  if negb immediate then applyFunc a l1 else (inr tt, l1).

(** The event loop runs the oldest pending timer if it is due: the timer
    leaves the list and its callback runs. *)
Definition fire (later : A → Js.Eff (Loop A S) unit) (l : Loop A S) : Loop A S :=
  match pending l with
  | t :: rest =>
      if (due t <=? now l)%Z
      then (later (args t)
              (mkLoop (now l) (timeout l) rest (nextId l) (applied l) (context l))).2
      else l
  | [] => l
  end.

(** One turn of the event loop; an exception that leaves the wrapper or a
    timer callback is reported and the loop goes on. *)
Definition step (call later : A → Js.Eff (Loop A S) unit) (l : Loop A S) (t : Tick A)
    : Loop A S :=
  match t with
  | Call a => (call a l).2
  | Elapse ms =>
      mkLoop (now l + Z.of_N ms)%Z (timeout l) (pending l) (nextId l) (applied l)
             (context l)
  | Timer => fire later l
  end.

Definition app_run (ticks : list (Tick A)) (l : Loop A S) : Loop A S :=
  foldl (step app_call app_later) l ticks.

Definition utils_run (immediate : bool) (ticks : list (Tick A)) (l : Loop A S)
    : Loop A S :=
  foldl (step (utils_call immediate) (utils_later immediate)) l ticks.

End Wrappers.

(** A wrapper that has just been created, at clock [t0]. *)
Definition fresh {A S} (t0 : Z) (c : S) : Loop A S := mkLoop t0 None [] 1 [] c.

(** At most one timer is pending, and [timeout] names it. *)
Definition armed_or_idle {A S} (l : Loop A S) : Prop :=
  pending l = [] ∨ ∃ t, pending l = [t] ∧ timeout l = Some (id t).

(** As [armed_or_idle], with [timeout] null whenever no timer is pending. *)
Definition armed_or_null {A S} (l : Loop A S) : Prop :=
  (pending l = [] ∧ timeout l = None) ∨ ∃ t, pending l = [t] ∧ timeout l = Some (id t).

(** Two loops that differ at most in a [timeout] left by a timer that has
    run. *)
Definition alike {A S} (la lu : Loop A S) : Prop :=
  now la = now lu ∧ pending la = pending lu ∧ nextId la = nextId lu ∧
  applied la = applied lu ∧ context la = context lu ∧
  (pending la = [] ∨ ∃ t, pending la = [t] ∧ timeout la = Some (id t)
                          ∧ timeout lu = Some (id t)).

(** Ticks among which no call is made. *)
Definition quiet {A} (ticks : list (Tick A)) : Prop :=
  Forall (λ t, match t with Call _ => False | _ => True end) ticks.

(** A handler that records the argument of every call and throws on the
    odd ones. *)
Definition recording : nat → Js.Eff (list nat) unit :=
  λ a seen, (if Nat.odd a then inl (Js.ErrorObj "odd") else inr tt, seen ++ [a]).

End Debounce.

(** ** The tracking beacon ([tracking.js]) *)

Module Tracking.

(** An argument of [fetch]: the endpoint, the options, and whether a
    [.catch] handler hangs on the promise it returned. *)
Record Request := mkRequest {
  url : string;
  method : string;
  headers : list (string * string);
  mode : string;
  payload : list (string * string);
  catchHandler : bool
}.

Inductive Logged :=
| LogData (message : string) (data : list (string * string))
| DebugMessage (message : string).

(** The page as the beacon sees it.  [search] is
    [new URLSearchParams(window.location.search)], its pairs in order;
    [isoNow], [dateNow] and [randomPart] are what [new Date().toISOString()],
    [Date.now()] and [Math.random().toString(36).substr(2, 9)] give on this
    load.  [inflight] holds the requests whose promise is not settled yet and
    [unhandled] the rejections no handler took, which is what would
    surface on the page. *)
Record Browser := mkBrowser {
  search : list (string * string);
  pathname : string;
  hostname : string;
  referrer : string;
  userAgent : string;
  isoNow : string;
  dateNow : Z;
  randomPart : string;
  localStorage : gmap string string;
  sessionStorage : gmap string string;
  console : list Logged;
  inflight : list Request;
  sent : list Request;
  unhandled : list Js.JsError
}.

Definition setHostname (h : string) (b : Browser) : Browser :=
  mkBrowser (search b) (pathname b) h (referrer b) (userAgent b) (isoNow b) (dateNow b)
            (randomPart b) (localStorage b) (sessionStorage b) (console b)
            (inflight b) (sent b) (unhandled b).

Definition setLocalStorage (st : gmap string string) (b : Browser) : Browser :=
  mkBrowser (search b) (pathname b) (hostname b) (referrer b) (userAgent b) (isoNow b)
            (dateNow b) (randomPart b) st (sessionStorage b) (console b)
            (inflight b) (sent b) (unhandled b).

Definition setSessionStorage (st : gmap string string) (b : Browser) : Browser :=
  mkBrowser (search b) (pathname b) (hostname b) (referrer b) (userAgent b) (isoNow b)
            (dateNow b) (randomPart b) (localStorage b) st (console b)
            (inflight b) (sent b) (unhandled b).

Definition setConsole (c : list Logged) (b : Browser) : Browser :=
  mkBrowser (search b) (pathname b) (hostname b) (referrer b) (userAgent b) (isoNow b)
            (dateNow b) (randomPart b) (localStorage b) (sessionStorage b) c
            (inflight b) (sent b) (unhandled b).

Definition setNetwork (fl st : list Request) (un : list Js.JsError) (b : Browser) : Browser :=
  mkBrowser (search b) (pathname b) (hostname b) (referrer b) (userAgent b) (isoNow b)
            (dateNow b) (randomPart b) (localStorage b) (sessionStorage b) (console b)
            fl st un.

(** [URLSearchParams.prototype.get]: the first value under [name], or null. *)
Fixpoint searchGet (name : string) (params : list (string * string)) : option string :=
  match params with
  | [] => None
  | (k, v) :: rest => if bool_decide (k = name) then Some v else searchGet name rest
  end.

Definition getUrlParameter (name : string) (b : Browser) : option string :=
  searchGet name (search b).

Definition getVisitorId (b : Browser) : string * Browser :=
  let visitorId := localStorage b !! "visitor_id" in
  if negb (Js.truthy visitorId)
  then
    let visitorId' := "visitor_" +:+ pretty (dateNow b) +:+ "_" +:+ randomPart b in
    (visitorId', setLocalStorage (<["visitor_id" := visitorId']> (localStorage b)) b)
  else (default "" visitorId, b).

Definition resolveSource (b : Browser) : string :=
  default "direct"
    (Js.or_else (Js.or_else (Js.or_else (getUrlParameter "source" b)
                                        (getUrlParameter "utm_source" b))
                            (getUrlParameter "ref" b))
                (Some "direct")).

Definition resolveCampaign (b : Browser) : string :=
  default ""
    (Js.or_else (Js.or_else (getUrlParameter "campaign" b)
                            (getUrlParameter "utm_campaign" b))
                (Some "")).

Definition resolveMedium (b : Browser) : string :=
  default ""
    (Js.or_else (Js.or_else (getUrlParameter "medium" b)
                            (getUrlParameter "utm_medium" b))
                (Some "")).

Definition trackingEndpoint : string := "http://YOUR_SERVER_IP:9000/api/track".

(** [fetch(url, options).catch(handler)]: the request leaves and its
    promise, with the handler on it, waits for the outcome. *)
Definition fetch_catch (data : list (string * string)) (b : Browser) : Browser :=
  let request := mkRequest trackingEndpoint "POST"
                   [("Content-Type", "application/json")] "no-cors" data true in
  setNetwork (inflight b ++ [request]) (sent b ++ [request]) (unhandled b) b.

Definition trackVisitor (b : Browser) : Browser :=
  let source := resolveSource b in
  let campaign := resolveCampaign b in
  let medium := resolveMedium b in
  let '(visitor_id, b1) := getVisitorId b in
  let data :=
    [("source", source); ("campaign", campaign); ("medium", medium);
     ("referrer", referrer b); ("user_agent", userAgent b);
     ("page", pathname b); ("timestamp", isoNow b); ("visitor_id", visitor_id)] in
  let b2 :=
    if bool_decide (hostname b1 ≠ "localhost") && bool_decide (hostname b1 ≠ "127.0.0.1")
    then fetch_catch data b1
    else b1 in
  let b3 := setConsole (console b2 ++ [LogData "Visitor tracked:" data]) b2 in
  if bool_decide (source ≠ "direct")
  then setSessionStorage (<["visit_source" := source]> (sessionStorage b3)) b3
  else b3.

(** The object [data] that [trackVisitor] builds on [b], field by field. *)
Definition dataOf (b : Browser) : list (string * string) :=
  [("source", resolveSource b); ("campaign", resolveCampaign b);
   ("medium", resolveMedium b); ("referrer", referrer b);
   ("user_agent", userAgent b); ("page", pathname b);
   ("timestamp", isoNow b); ("visitor_id", (getVisitorId b).1)].

(** How the network answers a request. *)
Inductive Outcome :=
| Answered
| Failed (e : Js.JsError).

(** The promise of the oldest request in flight settles.  A rejection runs
    the [.catch] handler when there is one, which logs at debug level and
    returns; without a handler the rejection is unhandled. *)
Definition settle (o : Outcome) (b : Browser) : Browser :=
  match inflight b with
  | [] => b
  | request :: rest =>
      match o with
      | Answered => setNetwork rest (sent b) (unhandled b) b
      | Failed e =>
          if catchHandler request
          then setConsole (console b ++ [DebugMessage "Tracking skipped"])
                          (setNetwork rest (sent b) (unhandled b) b)
          else setNetwork rest (sent b) (unhandled b ++ [e]) b
      end
  end.

(** The resolution of a parameter as the specification words it: the value
    of the first of [names] that is present in the query, else [fallback]. *)
Fixpoint firstPresent (names : list string) (fallback : string) (b : Browser) : string :=
  match names with
  | [] => fallback
  | name :: rest =>
      match getUrlParameter name b with
      | Some v => v
      | None => firstPresent rest fallback b
      end
  end.

(** The same with an empty value counted as absent. *)
Fixpoint firstNonEmpty (names : list string) (fallback : string) (b : Browser) : string :=
  match names with
  | [] => fallback
  | name :: rest =>
      match getUrlParameter name b with
      | Some v => if bool_decide (v = "") then firstNonEmpty rest fallback b else v
      | None => firstNonEmpty rest fallback b
      end
  end.

(** A first visit to [path] on [host] with the query [params]. *)
Definition visit (host path : string) (params : list (string * string)) : Browser :=
  mkBrowser params path host "https://www.linkedin.com/" "Mozilla/5.0"
            "2025-01-01T00:00:00.000Z" 1735689600000 "k3j9x0q2a"
            ∅ ∅ [] [] [] [].

End Tracking.

(** ** A page to run the components on

    A small document with the elements the scripts look for: the theme-colour
    meta tag, the navigation bar with three links, and three sections at
    offsets 0, 500 and 1000. *)

Module Page.
Import Dom.

Definition element (tag : string) (parent : option nat) (attrs : list (string * string))
    (classes : list string) (text : string) (top height : Z) : Element :=
  mkElement tag parent (list_to_map attrs) classes ∅ text top height.

Definition markup : list Element :=
  [ element "meta" None [("name", "theme-color"); ("content", "#ffffff")] [] "" 0 0;
    element "nav" None [("id", "navbar")] ["navbar"] "" 0 70;
    element "div" (Some 1) [("id", "mobile-menu")] ["menu-toggle"] "" 0 30;
    element "ul" (Some 1) [("id", "nav-menu")] ["nav-menu"] "" 0 70;
    element "a" (Some 3) [("href", "#home")] ["nav-link"] "Home" 0 20;
    element "a" (Some 3) [("href", "#about")] ["nav-link"] "About" 0 20;
    element "a" (Some 3) [("href", "#projects")] ["nav-link"] "Projects" 0 20;
    element "section" None [("id", "home")] ["hero"] "" 0 500;
    element "h1" (Some 7) [] ["hero-title"] "" 100 80;
    element "span" (Some 8) [] ["gradient-text"] "Omar" 100 80;
    element "section" None [("id", "about")] [] "" 500 500;
    element "div" (Some 10) [] ["about-text"] "About me" 560 200;
    element "section" None [("id", "projects")] [] "" 1000 500;
    element "div" (Some 12) [] ["project-card"] "First" 1060 200;
    element "div" (Some 12) [] ["project-card"] "Second" 1280 200 ].

(** The page before any script has run, scrolled to [y], with what durable
    storage holds and what the system colour scheme is. *)
Definition world (ns : list Element) (y : Z) (stored : gmap string string)
    (dark : bool) : World :=
  mkWorld (createElement "html") (createElement "body") ns y dark stored [] [] [].

Definition loaded : World := world markup 0 ∅ false.

(** The same page without its navigation bar. *)
Definition withoutNavbar : list Element :=
  element "div" None [] [] "" 0 0 :: drop 1 (drop 1 markup).

(** A page whose first link points at the top with a bare [#], and whose
    only section starts 500 pixels down, below a hero that is not a
    section. *)
Definition bareHashMarkup : list Element :=
  [ element "nav" None [("id", "navbar")] ["navbar"] "" 0 70;
    element "div" (Some 0) [("id", "mobile-menu")] ["menu-toggle"] "" 0 30;
    element "ul" (Some 0) [("id", "nav-menu")] ["nav-menu"] "" 0 70;
    element "a" (Some 2) [("href", "#")] ["nav-link"] "Top" 0 20;
    element "a" (Some 2) [("href", "#about")] ["nav-link"] "About" 0 20;
    element "header" None [] ["hero"] "" 0 500;
    element "section" None [("id", "about")] [] "" 500 500 ].

(** The navigation component as [cacheElements] leaves it on [markup],
    with the menu closed or open. *)
Definition navigation (open : bool) : NavigationManager.t :=
  NavigationManager.mk (Some 1) (Some 2) (Some 3) [4; 5; 6] open 50.

End Page.

(** * Properties *)

(** ** ThemeManager *)

Section ThemeFacts.
Import Dom ThemeManager.

Lemma updateMetaThemeColor_documentElement this w :
  documentElement (updateMetaThemeColor this w) = documentElement w.
Proof. unfold updateMetaThemeColor. by destruct (querySelector_meta_theme_color w). Qed.

Lemma updateMetaThemeColor_localStorage this w :
  localStorage (updateMetaThemeColor this w) = localStorage w.
Proof. unfold updateMetaThemeColor. by destruct (querySelector_meta_theme_color w). Qed.

Lemma applyTheme_data_theme this w :
  getAttribute "data-theme" (documentElement (applyTheme this w)) = Some (currentTheme this).
Proof.
  unfold applyTheme. rewrite updateMetaThemeColor_documentElement. simpl.
  unfold getAttribute. simpl. apply lookup_insert_eq.
Qed.

Lemma applyTheme_localStorage this w :
  localStorage (applyTheme this w) = localStorage w.
Proof. unfold applyTheme. by rewrite updateMetaThemeColor_localStorage. Qed.

(** What [loadSavedTheme] leaves in [currentTheme], by cases on the stored
    value. *)
Lemma loadSavedTheme_valid this w v :
  localStorage w !! "portfolio-theme" = Some v → v ∈ ["light"; "dark"] →
  currentTheme (loadSavedTheme (this, w)).1 = v.
Proof.
  intros Hv Hin. unfold loadSavedTheme. rewrite Hv.
  apply elem_of_cons in Hin as [-> | Hin]; [reflexivity|].
  apply list_elem_of_singleton in Hin as ->. reflexivity.
Qed.

Lemma loadSavedTheme_fallback this w :
  (localStorage w !! "portfolio-theme" = None ∨
   ∃ v, localStorage w !! "portfolio-theme" = Some v ∧ v ∉ ["light"; "dark"]) →
  currentTheme (loadSavedTheme (this, w)).1 = if prefersDarkMode this then "dark" else "light".
Proof.
  intros H. unfold loadSavedTheme.
  destruct H as [-> | (v & -> & Hn)]; [reflexivity|].
  destruct (Js.truthy (Some v)); simpl; [|reflexivity].
  rewrite bool_decide_eq_false_2; [reflexivity|].
  intros Hin. apply Hn.
  apply elem_of_cons in Hin as [[= ->] | Hin]; [by left|].
  apply list_elem_of_singleton in Hin as [= ->]. right; by left.
Qed.

End ThemeFacts.

(** C3. After [ThemeManager.init()] a stored preference that is [light] or
    [dark] is the current theme whatever the system prefers; with nothing
    stored, or with a stored value that is neither, the current theme is
    [dark] when the system prefers dark and [light] otherwise.  That theme
    is the one applied to the document. *)
Theorem theme_init_stored_preference_wins (this : ThemeManager.t) (w : Dom.World) :
  let stored := Dom.localStorage w !! "portfolio-theme" in
  let s' := ThemeManager.init (this, w) in
  (∀ v, stored = Some v → v ∈ ["light"; "dark"] →
        ThemeManager.currentTheme s'.1 = v) ∧
  ((stored = None ∨ ∃ v, stored = Some v ∧ v ∉ ["light"; "dark"]) →
        ThemeManager.currentTheme s'.1 = if Dom.prefersDark w then "dark" else "light") ∧
  Dom.getAttribute "data-theme" (Dom.documentElement s'.2)
    = Some (ThemeManager.currentTheme s'.1).
Proof.
  intros stored s'. subst s' stored.
  split; [|split].
  - intros v Hv Hin. unfold ThemeManager.init, ThemeManager.detectSystemPreference.
    cbn [fst snd]. by apply loadSavedTheme_valid.
  - intros H. unfold ThemeManager.init, ThemeManager.detectSystemPreference.
    cbn [fst snd]. by rewrite loadSavedTheme_fallback.
  - apply applyTheme_data_theme.
Qed.

(** The two cases the specification spells out: [dark] stored under a light
    system gives [dark]; nothing stored under a dark system gives [dark]. *)
Lemma theme_init_stored_preference_wins_witness :
  ThemeManager.currentTheme
    (ThemeManager.init
       (ThemeManager.constructor,
        Page.world Page.markup 0 {["portfolio-theme" := "dark"]} false)).1 = "dark" ∧
  ThemeManager.currentTheme
    (ThemeManager.init
       (ThemeManager.constructor, Page.world Page.markup 0 ∅ true)).1 = "dark".
Proof.
  split.
  - apply (proj1 (theme_init_stored_preference_wins ThemeManager.constructor
                    (Page.world Page.markup 0 {["portfolio-theme" := "dark"]} false))
                 "dark").
    + reflexivity.
    + right; left.
  - apply (proj1 (proj2 (theme_init_stored_preference_wins ThemeManager.constructor
                    (Page.world Page.markup 0 ∅ true)))).
    left. reflexivity.
Defined.

Section ToggleFacts.
Import Dom ThemeManager.

Lemma satisfies_updateNode p h f w k :
  (∀ e, p (f e) = p e) → satisfies p (updateNode h f w) k = satisfies p w k.
Proof.
  intros Hp. unfold satisfies, updateNode. simpl.
  destruct (decide (h = k)) as [-> | Hne].
  - rewrite list_lookup_alter_eq. destruct (nodes w !! k); simpl; [apply Hp | done].
  - by rewrite list_lookup_alter_ne.
Qed.

Lemma selectAll_updateNode p h f w :
  (∀ e, p (f e) = p e) → selectAll p (updateNode h f w) = selectAll p w.
Proof.
  intros Hp. unfold selectAll.
  replace (length (nodes (updateNode h f w))) with (length (nodes w))
    by (unfold updateNode; simpl; by rewrite length_alter).
  apply list_filter_iff. intros k. by rewrite satisfies_updateNode.
Qed.

Lemma meta_query_setContent h v w :
  querySelector_meta_theme_color (updateNode h (setAttribute "content" v) w)
  = querySelector_meta_theme_color w.
Proof.
  unfold querySelector_meta_theme_color. rewrite selectAll_updateNode; [done|].
  intros e. unfold getAttribute, setAttribute. simpl.
  by rewrite lookup_insert_ne.
Qed.

Lemma setAttribute_twice n v v' e :
  setAttribute n v (setAttribute n v' e) = setAttribute n v e.
Proof. unfold setAttribute. simpl. by rewrite insert_insert_eq. Qed.

Lemma updateNode_twice h f g w :
  updateNode h f (updateNode h g w) = updateNode h (f ∘ g) w.
Proof.
  unfold updateNode, setNodes. simpl. by rewrite list_alter_alter_eq.
Qed.

(** Applying and saving a theme overwrites what an earlier application and
    save left: the attribute, the meta colour and the stored value. *)
Lemma apply_save_absorbs a b w :
  saveTheme a (applyTheme a (saveTheme b (applyTheme b w)))
  = saveTheme a (applyTheme a w).
Proof.
  unfold saveTheme, applyTheme, updateMetaThemeColor.
  change (querySelector_meta_theme_color (setDocumentElement ?e w))
    with (querySelector_meta_theme_color w).
  destruct (querySelector_meta_theme_color w) as [m|] eqn:Hq.
  - match goal with
    | |- context [querySelector_meta_theme_color (setDocumentElement ?e (setLocalStorage ?st ?x))] =>
        change (querySelector_meta_theme_color (setDocumentElement e (setLocalStorage st x)))
          with (querySelector_meta_theme_color x)
    end.
    change (querySelector_meta_theme_color (updateNode m ?f (setDocumentElement ?e w)))
      with (querySelector_meta_theme_color (updateNode m f w)).
    rewrite meta_query_setContent, Hq.
    unfold updateNode, setNodes, setLocalStorage, setDocumentElement. simpl.
    rewrite list_alter_alter_eq, setAttribute_twice, insert_insert_eq.
    f_equal. apply list_alter_ext; [|done].
    intros e _. simpl. apply setAttribute_twice.
  - match goal with
    | |- context [querySelector_meta_theme_color (setDocumentElement ?e (setLocalStorage ?st ?x))] =>
        change (querySelector_meta_theme_color (setDocumentElement e (setLocalStorage st x)))
          with (querySelector_meta_theme_color w)
    end.
    rewrite Hq.
    unfold setLocalStorage, setDocumentElement. simpl.
    by rewrite setAttribute_twice, insert_insert_eq.
Qed.

Lemma toggleTheme_stored s :
  localStorage (toggleTheme s).2 !! "portfolio-theme" = Some (currentTheme (toggleTheme s).1).
Proof. destruct s as [this w]. unfold toggleTheme, saveTheme. simpl. apply lookup_insert_eq. Qed.

End ToggleFacts.

(** C10. Starting from a theme that is [light] or [dark], two calls of
    [toggleTheme()] leave the component and the page as one application and
    save of the starting theme does: the same [currentTheme], the same
    [data-theme] attribute on the document and the same stored
    [portfolio-theme], each the starting theme.  After any single call
    [hasUserPreference()] is true. *)
Theorem toggleTheme_twice_restores (this : ThemeManager.t) (w : Dom.World) :
  ThemeManager.currentTheme this ∈ ["light"; "dark"] →
  let twice := ThemeManager.toggleTheme (ThemeManager.toggleTheme (this, w)) in
  let once := (this, ThemeManager.saveTheme this (ThemeManager.applyTheme this w)) in
  twice = once ∧
  ThemeManager.currentTheme twice.1 = ThemeManager.currentTheme this ∧
  Dom.getAttribute "data-theme" (Dom.documentElement twice.2)
    = Some (ThemeManager.currentTheme this) ∧
  Dom.localStorage twice.2 !! "portfolio-theme" = Some (ThemeManager.currentTheme this) ∧
  (∀ s, ThemeManager.hasUserPreference (ThemeManager.toggleTheme s).2 = true).
Proof.
  intros Hin twice once.
  assert (twice = once) as Heq.
  { subst twice once. destruct this as [T P]. simpl in Hin.
    unfold ThemeManager.toggleTheme. cbn [ThemeManager.currentTheme ThemeManager.prefersDarkMode].
    apply elem_of_cons in Hin as [-> | Hin];
      [|apply list_elem_of_singleton in Hin as ->]; simpl;
      by rewrite apply_save_absorbs. }
  split; [exact Heq|]. rewrite Heq. subst once. cbn [fst snd].
  split; [reflexivity|]. split; [|split].
  - unfold ThemeManager.saveTheme. simpl. apply applyTheme_data_theme.
  - unfold ThemeManager.saveTheme. simpl. apply lookup_insert_eq.
  - intros s. unfold ThemeManager.hasUserPreference. rewrite toggleTheme_stored.
    apply bool_decide_eq_true_2. eauto.
Qed.

Lemma toggleTheme_twice_restores_witness :
  ThemeManager.toggleTheme (ThemeManager.toggleTheme (ThemeManager.constructor, Page.loaded))
  = (ThemeManager.constructor,
     ThemeManager.saveTheme ThemeManager.constructor
       (ThemeManager.applyTheme ThemeManager.constructor Page.loaded)).
Proof.
  apply (toggleTheme_twice_restores ThemeManager.constructor Page.loaded).
  left.
Defined.

(** ** PortfolioApp *)

Section RegistryFacts.
Import Dom PortfolioApp.
Context {C : Type}.
Variable component_init : Js.Eff (C * World) unit.

(** The callback completes normally whatever [init()] does. *)
Lemma initializeOne_catches name c w :
  initializeOne component_init name (c, w)
  = (inr tt, ((component_init (c, w)).2.1,
              logged name (component_init (c, w)).1 (component_init (c, w)).2.2)).
Proof.
  unfold initializeOne, Js.try_catch, Js.bind, Js.modify.
  destruct (component_init (c, w)) as [[e | []] [c' w']]; reflexivity.
Qed.

Lemma initializeComponents_cons name c rest w :
  initializeComponents component_init ((name, c) :: rest) w
  = match initializeComponents component_init rest
            (logged name (component_init (c, w)).1 (component_init (c, w)).2.2) with
    | (inr rest', w') => (inr ((name, (component_init (c, w)).2.1) :: rest'), w')
    | (inl e, w') => (inl e, w')
    end.
Proof. simpl. by rewrite initializeOne_catches. Qed.

Lemma initializeComponents_total components w :
  ∃ cs' w', initializeComponents component_init components w = (inr cs', w')
            ∧ cs'.*1 = components.*1.
Proof.
  revert w. induction components as [|[name c] rest IH]; intros w.
  - by exists [], w.
  - rewrite initializeComponents_cons.
    destruct (IH (logged name (component_init (c, w)).1 (component_init (c, w)).2.2))
      as (rest' & w' & -> & Hk).
    eexists _, _. split; [reflexivity|]. rewrite !fmap_cons. by rewrite Hk.
Qed.

Lemma initializeComponents_app cs1 cs2 w cs1' w1 cs2' w2 :
  initializeComponents component_init cs1 w = (inr cs1', w1) →
  initializeComponents component_init cs2 w1 = (inr cs2', w2) →
  initializeComponents component_init (cs1 ++ cs2) w = (inr (cs1' ++ cs2'), w2).
Proof.
  revert w cs1'. induction cs1 as [|[name c] rest IH]; intros w cs1' H1 H2.
  - simpl in H1. unfold Js.ret in H1. injection H1 as <- <-. exact H2.
  - rewrite initializeComponents_cons in H1. simpl app. rewrite initializeComponents_cons.
    destruct (initializeComponents component_init rest _) as [[e|rest'] w'] eqn:Hr;
      [done|]. simplify_eq.
    by rewrite (IH _ _ Hr H2).
Qed.

(** A component whose [init()] throws: the error is logged and the
    components after it are initialised from the state so reached. *)
Lemma initializeComponents_isolates pre name c post w pre' w1 e c' w2 :
  initializeComponents component_init pre w = (inr pre', w1) →
  component_init (c, w1) = (inl e, (c', w2)) →
  ∃ post' w3,
    initializeComponents component_init post
      (console_error ("Failed to initialize " +:+ name +:+ " component:") e w2)
      = (inr post', w3) ∧
    initializeComponents component_init (pre ++ (name, c) :: post) w
      = (inr (pre' ++ (name, c') :: post'), w3).
Proof.
  intros Hpre Hc.
  destruct (initializeComponents_total post
              (console_error ("Failed to initialize " +:+ name +:+ " component:") e w2))
    as (post' & w3 & Hpost & _).
  exists post', w3. split; [exact Hpost|].
  eapply initializeComponents_app; [exact Hpre|].
  rewrite initializeComponents_cons, Hc. simpl. by rewrite Hpost.
Qed.

End RegistryFacts.

Section OrchestratorFacts.
Import Dom PortfolioApp.

(** The first call: every step of the [try] block completes, so the flag
    is set and the success line is logged. *)
Lemma init_first_call this w :
  isInitialized this = false →
  ∃ cs w',
    initializeComponents Component_init (components (registerComponents (this, w)).1) w
      = (inr cs, w') ∧
    PortfolioApp.init (this, w)
      = (inr tt, (mk cs true,
                  console_log "Portfolio application initialized successfully"
                              (bindEvents (mk cs false, w')).2)).
Proof.
  intros Hf.
  destruct (initializeComponents_total Component_init
              (components (registerComponents (this, w)).1) w) as (cs & w' & Hcs & _).
  exists cs, w'. split; [exact Hcs|].
  unfold PortfolioApp.init. cbn [fst snd]. rewrite Hf.
  unfold Js.try_catch, Js.bind, Js.modify, initializeAll.
  cbn [registerComponents fst snd components isInitialized] in *.
  rewrite Hcs, Hf. reflexivity.
Qed.

Lemma init_sets_flag s :
  (PortfolioApp.init s).1 = inr tt ∧ isInitialized (PortfolioApp.init s).2.1 = true.
Proof.
  destruct s as [this w]. destruct (isInitialized this) eqn:Hi.
  - unfold PortfolioApp.init. cbn [fst snd]. rewrite Hi. by cbn.
  - destruct (init_first_call this w Hi) as (cs & w' & _ & ->). by cbn.
Qed.

End OrchestratorFacts.

(** C1. However the first call of [PortfolioApp.init()] went, it returned
    normally with the application marked initialised, and a second call
    returns normally too, having only written one warning to the console:
    the registry of components, every component in it, the listeners, the
    timers, the document and storage are what the first call left. *)
Theorem init_idempotent (s : PortfolioApp.t * Dom.World) :
  let first := PortfolioApp.init s in
  let second := PortfolioApp.init first.2 in
  first.1 = inr tt ∧
  second = (inr tt, (first.2.1,
                     Dom.console_warn "Application already initialized" first.2.2)) ∧
  PortfolioApp.components second.2.1 = PortfolioApp.components first.2.1 ∧
  Dom.listeners second.2.2 = Dom.listeners first.2.2.
Proof.
  intros first second. subst second.
  destruct (init_sets_flag s) as [Hok Hflag]. fold first in Hok, Hflag.
  split; [exact Hok|].
  assert (PortfolioApp.init first.2
          = (inr tt, (first.2.1,
                      Dom.console_warn "Application already initialized" first.2.2))) as ->.
  { unfold PortfolioApp.init at 1. by rewrite Hflag. }
  done.
Qed.

Section ComponentFacts.
Import Dom.

Lemma updateNode_console h f w : console (updateNode h f w) = console w.
Proof. reflexivity. Qed.

Lemma navigation_init_missing this w :
  getElementById "navbar" w = None ∨ getElementById "mobile-menu" w = None
    ∨ getElementById "nav-menu" w = None →
  ∃ this',
    NavigationManager.init (this, w)
    = (inl (Js.ErrorObj "Required navigation elements not found"), (this', w)).
Proof.
  intros H. unfold NavigationManager.init, Js.bind, NavigationManager.cacheElements.
  cbn [NavigationManager.navbar NavigationManager.navToggle NavigationManager.navMenu].
  destruct H as [-> | [-> | ->]];
    repeat (match goal with |- context [match ?x with Some _ => _ | None => _ end] =>
                              destruct x end);
    eexists; reflexivity.
Qed.

Lemma scroll_init_ok c w :
  ∃ c' w', ScrollManager.init (c, w) = (inr tt, (c', w')) ∧ console w' = console w.
Proof. destruct c. eexists _, _. split; reflexivity. Qed.

Lemma observeEach_ok elements : ∀ index this w,
  is_Some (AnimationManager.intersectionObserver this) →
  ∃ this' w',
    AnimationManager.observeEach index elements (this, w) = (inr tt, (this', w'))
    ∧ is_Some (AnimationManager.intersectionObserver this')
    ∧ console w' = console w.
Proof.
  induction elements as [|element rest IH]; intros index this w Hobs.
  - by exists this, w.
  - destruct Hobs as [targets Ht]. simpl. rewrite Ht.
    edestruct IH as (this' & w' & -> & Hs & Hc); [|by exists this', w'].
    by eexists.
Qed.

Lemma observeSelectors_ok sels : ∀ this w,
  is_Some (AnimationManager.intersectionObserver this) →
  ∃ this' w',
    AnimationManager.observeSelectors sels (this, w) = (inr tt, (this', w'))
    ∧ is_Some (AnimationManager.intersectionObserver this')
    ∧ console w' = console w.
Proof.
  induction sels as [|selector rest IH]; intros this w Hobs.
  - by exists this, w.
  - simpl. unfold Js.bind.
    destruct (observeEach_ok (querySelectorAll_class selector w) 0 this w Hobs)
      as (this1 & w1 & -> & Hs1 & Hc1).
    destruct (IH this1 w1 Hs1) as (this2 & w2 & -> & Hs2 & Hc2).
    exists this2, w2. by rewrite Hc2.
Qed.

Lemma animation_init_ok c w :
  ∃ c' w', AnimationManager.init (c, w) = (inr tt, (c', w')) ∧ console w' = console w.
Proof.
  unfold AnimationManager.init, Js.bind, Js.modify, AnimationManager.observeElements.
  unfold AnimationManager.setupIntersectionObserver. cbn [fst snd].
  edestruct (observeSelectors_ok AnimationManager.selectors) as (c1 & w1 & -> & _ & Hc);
    [by eexists|].
  exists (AnimationManager.addTypingEffect (c1, w1)).1,
         (AnimationManager.addTypingEffect (c1, w1)).2.
  split; [by destruct (AnimationManager.addTypingEffect (c1, w1))|].
  unfold AnimationManager.addTypingEffect.
  destruct (querySelector_hero_title w1); simpl; by rewrite <- Hc.
Qed.

Lemma theme_init_console c w : console (ThemeManager.init (c, w)).2 = console w.
Proof.
  unfold ThemeManager.init, ThemeManager.applyTheme, ThemeManager.updateMetaThemeColor.
  cbn [fst snd].
  destruct (querySelector_meta_theme_color _); simpl;
    unfold ThemeManager.loadSavedTheme, ThemeManager.detectSystemPreference;
    by destruct (_ && _).
Qed.

End ComponentFacts.

Section IsolationFacts.
Import Dom PortfolioApp.
Context {C : Type}.
Variable component_init : Js.Eff (C * World) unit.

(** The loop over a registry extended by one component: that component's
    [init()] runs from the state the earlier ones left, whatever their
    completions were, and its own completion is logged. *)
Lemma initializeComponents_snoc cs name c w cs' w1 :
  initializeComponents component_init cs w = (inr cs', w1) →
  initializeComponents component_init (cs ++ [(name, c)]) w
  = (inr (cs' ++ [(name, (component_init (c, w1)).2.1)]),
     logged name (component_init (c, w1)).1 (component_init (c, w1)).2.2).
Proof.
  intros Hcs. eapply initializeComponents_app; [exact Hcs|].
  by rewrite initializeComponents_cons.
Qed.

Lemma initializeComponents_every components w i name c :
  components !! i = Some (name, c) →
  ∃ pre' wi,
    initializeComponents component_init (take i components) w = (inr pre', wi) ∧
    initializeComponents component_init (take (S i) components) w
    = (inr (pre' ++ [(name, (component_init (c, wi)).2.1)]),
       logged name (component_init (c, wi)).1 (component_init (c, wi)).2.2).
Proof.
  intros Hi.
  destruct (initializeComponents_total component_init (take i components) w)
    as (pre' & wi & Hpre & _).
  exists pre', wi. split; [exact Hpre|].
  rewrite (take_S_r _ _ _ Hi). by apply initializeComponents_snoc.
Qed.

End IsolationFacts.

Section NavigationFailure.
Import Dom PortfolioApp.

Lemma Component_init_Navigation c w r c' w' :
  NavigationManager.init (c, w) = (r, (c', w')) →
  Component_init (Navigation c, w) = (r, (Navigation c', w')).
Proof. intros H. unfold Component_init. by rewrite H. Qed.

Lemma Component_init_Scroll c w r c' w' :
  ScrollManager.init (c, w) = (r, (c', w')) →
  Component_init (Scroll c, w) = (r, (Scroll c', w')).
Proof. intros H. unfold Component_init. by rewrite H. Qed.

Lemma Component_init_Animation c w r c' w' :
  AnimationManager.init (c, w) = (r, (c', w')) →
  Component_init (Animation c, w) = (r, (Animation c', w')).
Proof. intros H. unfold Component_init. by rewrite H. Qed.

Lemma Component_init_Theme c w :
  Component_init (Theme c, w)
  = (inr tt, (Theme (ThemeManager.init (c, w)).1, (ThemeManager.init (c, w)).2)).
Proof. unfold Component_init. by destruct (ThemeManager.init (c, w)). Qed.

Lemma init_without_navigation w :
  getElementById "navbar" w = None ∨ getElementById "mobile-menu" w = None
    ∨ getElementById "nav-menu" w = None →
  (PortfolioApp.init (constructor, w)).1 = inr tt ∧
  isInitialized (PortfolioApp.init (constructor, w)).2.1 = true ∧
  console (PortfolioApp.init (constructor, w)).2.2
  = console w ++
    [ mkLog LevelError "Failed to initialize navigation component:"
            (Some (Js.ErrorObj "Required navigation elements not found"));
      mkLog LevelLog "scroll component initialized" None;
      mkLog LevelLog "animation component initialized" None;
      mkLog LevelLog "theme component initialized" None;
      mkLog LevelLog "Portfolio application initialized successfully" None ].
Proof.
  intros Hmissing.
  destruct (init_sets_flag (constructor, w)) as [Hok Hflag].
  split; [exact Hok|]. split; [exact Hflag|].
  destruct (init_first_call constructor w eq_refl) as (cs & w' & Hcs & ->).
  cbn [fst snd].
  change (components (registerComponents (constructor, w)).1)
    with [("navigation", Navigation NavigationManager.constructor);
          ("scroll", Scroll ScrollManager.constructor);
          ("animation", Animation AnimationManager.constructor);
          ("theme", Theme ThemeManager.constructor)] in Hcs.
  destruct (navigation_init_missing NavigationManager.constructor w Hmissing)
    as (nav' & Hnav).
  rewrite initializeComponents_cons in Hcs.
  rewrite (Component_init_Navigation _ _ _ _ _ Hnav) in Hcs. cbn [fst snd logged] in Hcs.
  set (w1 := console_error _ _ w) in Hcs.
  destruct (scroll_init_ok ScrollManager.constructor w1) as (sc & w2 & Hsc & Hc2).
  rewrite initializeComponents_cons in Hcs.
  rewrite (Component_init_Scroll _ _ _ _ _ Hsc) in Hcs. cbn [fst snd logged] in Hcs.
  set (w2' := console_log _ w2) in Hcs.
  destruct (animation_init_ok AnimationManager.constructor w2') as (an & w3 & Han & Hc3).
  rewrite initializeComponents_cons in Hcs.
  rewrite (Component_init_Animation _ _ _ _ _ Han) in Hcs. cbn [fst snd logged] in Hcs.
  set (w3' := console_log _ w3) in Hcs.
  pose proof (theme_init_console ThemeManager.constructor w3') as Hc4.
  rewrite initializeComponents_cons in Hcs.
  rewrite Component_init_Theme in Hcs.
  destruct (ThemeManager.init (ThemeManager.constructor, w3')) as [th w4].
  cbn [fst snd logged initializeComponents] in Hcs, Hc4.
  unfold Js.ret in Hcs. injection Hcs as <- <-.
  simpl. rewrite Hc4. subst w3'. simpl. rewrite Hc3. subst w2'. simpl.
  rewrite Hc2. subst w1. simpl.
  by rewrite <- !app_assoc.
Qed.

End NavigationFailure.

(** C2. [PortfolioApp.initializeComponents()] returns normally for every
    registry and every behaviour of the components.  Each registered
    component has its [init()] run from the state the earlier components
    left, whether those returned or threw, and its completion is written
    to the console: an error entry with the caught error when it threw.
    In particular, on a page that lacks the navbar, the mobile-menu toggle
    or the nav-menu, [NavigationManager.init()] throws, and
    [PortfolioApp.init()] still initialises the scroll, animation and theme
    components and completes. *)
Theorem component_failure_is_isolated :
  (∀ (C : Type) (component_init : Js.Eff (C * Dom.World) unit)
     (components : list (string * C)) (w : Dom.World),
     (∃ cs' w', PortfolioApp.initializeComponents component_init components w
                = (inr cs', w')) ∧
     ∀ i name c, components !! i = Some (name, c) →
       ∃ pre' wi,
         PortfolioApp.initializeComponents component_init (take i components) w
           = (inr pre', wi) ∧
         PortfolioApp.initializeComponents component_init (take (S i) components) w
           = (inr (pre' ++ [(name, (component_init (c, wi)).2.1)]),
              PortfolioApp.logged name (component_init (c, wi)).1
                                       (component_init (c, wi)).2.2)) ∧
  (∀ e w, PortfolioApp.logged "navigation" (inl e) w
          = Dom.console_error "Failed to initialize navigation component:" e w) ∧
  (∀ w : Dom.World,
     Dom.getElementById "navbar" w = None ∨ Dom.getElementById "mobile-menu" w = None
       ∨ Dom.getElementById "nav-menu" w = None →
     (∃ nav, NavigationManager.init (NavigationManager.constructor, w)
             = (inl (Js.ErrorObj "Required navigation elements not found"), (nav, w))) ∧
     (PortfolioApp.init (PortfolioApp.constructor, w)).1 = inr tt ∧
     PortfolioApp.isInitialized (PortfolioApp.init (PortfolioApp.constructor, w)).2.1 = true ∧
     Dom.console (PortfolioApp.init (PortfolioApp.constructor, w)).2.2
     = Dom.console w ++
       [ Dom.mkLog Dom.LevelError "Failed to initialize navigation component:"
           (Some (Js.ErrorObj "Required navigation elements not found"));
         Dom.mkLog Dom.LevelLog "scroll component initialized" None;
         Dom.mkLog Dom.LevelLog "animation component initialized" None;
         Dom.mkLog Dom.LevelLog "theme component initialized" None;
         Dom.mkLog Dom.LevelLog "Portfolio application initialized successfully" None ]).
Proof.
  split; [|split].
  - intros C component_init components w. split.
    + destruct (initializeComponents_total component_init components w)
        as (cs' & w' & H & _). by exists cs', w'.
    + intros i name c Hi. by apply initializeComponents_every.
  - reflexivity.
  - intros w Hmissing. split.
    + by apply navigation_init_missing.
    + by apply init_without_navigation.
Qed.

(** The page without its navigation bar. *)
Lemma component_failure_is_isolated_witness :
  PortfolioApp.isInitialized
    (PortfolioApp.init
       (PortfolioApp.constructor, Page.world Page.withoutNavbar 0 ∅ true)).2.1 = true.
Proof.
  apply (proj2 (proj2 component_failure_is_isolated)
               (Page.world Page.withoutNavbar 0 ∅ true)).
  left. vm_compute. reflexivity.
Defined.

(** ** AnimationManager *)

Section AnimationFacts.
Import Dom AnimationManager.

(** A property that every entry handler keeps holds after the whole batch. *)
Lemma foldl_onEntry_invariant (P : IntersectionObserverEntry → Prop)
    (Inv : t * World → Prop) :
  (∀ acc entry, P entry → Inv acc → Inv (onEntry acc entry)) →
  ∀ entries acc, Forall P entries → Inv acc → Inv (foldl onEntry acc entries).
Proof.
  intros Hstep. induction entries as [|entry rest IH]; intros acc HP Hacc; [done|].
  apply Forall_cons in HP as [Hp Hrest]. simpl. apply IH; [done|]. by apply Hstep.
Qed.

Lemma animateElement_lookup_ne h e w :
  h ≠ e → nodes (animateElement h w) !! e = nodes w !! e.
Proof. intros Hne. unfold animateElement, updateNode. simpl. by apply list_lookup_alter_ne. Qed.

Lemma animateElement_valid h e w :
  is_Some (nodes w !! e) → is_Some (nodes (animateElement h w) !! e).
Proof.
  intros [x Hx]. unfold animateElement, updateNode. simpl.
  destruct (decide (h = e)) as [-> | Hne].
  - rewrite list_lookup_alter_eq, Hx. by eexists.
  - rewrite list_lookup_alter_ne by done. by eexists.
Qed.

Lemma contains_classList_add c e : contains c (classList_add c e) = true.
Proof.
  unfold classList_add. destruct (contains c e) eqn:Hc; [exact Hc|].
  unfold contains. simpl. apply bool_decide_eq_true_2, elem_of_app. right. by left.
Qed.

Lemma contains_classList_add_mono c d e :
  contains c e = true → contains c (classList_add d e) = true.
Proof.
  intros Hc. unfold classList_add. destruct (contains d e); [exact Hc|].
  unfold contains in *. simpl. apply bool_decide_eq_true_1 in Hc.
  apply bool_decide_eq_true_2, elem_of_app. by left.
Qed.

Lemma animateElement_hasClass e w :
  is_Some (nodes w !! e) → hasClass "animated" e (animateElement e w) = true.
Proof.
  intros [x Hx]. unfold hasClass, satisfies, animateElement, updateNode. simpl.
  rewrite list_lookup_alter_eq, Hx. simpl. apply contains_classList_add.
Qed.

Lemma animateElement_hasClass_mono h e w :
  hasClass "animated" e w = true → hasClass "animated" e (animateElement h w) = true.
Proof.
  unfold hasClass, satisfies, animateElement, updateNode. simpl.
  destruct (decide (h = e)) as [-> | Hne].
  - rewrite list_lookup_alter_eq. destruct (nodes w !! e); simpl; [|done].
    apply contains_classList_add_mono.
  - by rewrite list_lookup_alter_ne.
Qed.

Lemma isObserved_unobserve_same e this : isObserved e (unobserve e this) = false.
Proof.
  unfold isObserved, unobserve. simpl. destruct (intersectionObserver this); simpl; [|done].
  apply bool_decide_eq_false_2. intros [_ H]%elem_of_difference.
  apply H. by apply elem_of_singleton.
Qed.

Lemma isObserved_unobserve_mono h e this :
  isObserved e this = false → isObserved e (unobserve h this) = false.
Proof.
  unfold isObserved, unobserve. simpl. destruct (intersectionObserver this); simpl; [|done].
  intros H%bool_decide_eq_false_1. apply bool_decide_eq_false_2.
  by intros [H' _]%elem_of_difference.
Qed.

(** Once an element has been animated and dropped, the rest of the batch
    leaves that so. *)
Lemma onEntry_keeps_done e acc entry :
  hasClass "animated" e acc.2 = true ∧ isObserved e acc.1 = false →
  hasClass "animated" e (onEntry acc entry).2 = true
  ∧ isObserved e (onEntry acc entry).1 = false.
Proof.
  intros [Hc Ho]. unfold onEntry. destruct (isIntersecting entry); [|done].
  cbn [fst snd]. split.
  - by apply animateElement_hasClass_mono.
  - by apply isObserved_unobserve_mono.
Qed.

Lemma onEntry_valid e acc entry :
  is_Some (nodes acc.2 !! e) → is_Some (nodes (onEntry acc entry).2 !! e).
Proof.
  intros H. unfold onEntry. destruct (isIntersecting entry); [|done]. cbn [fst snd].
  by apply animateElement_valid.
Qed.

(** A batch with an intersecting entry for [e] animates [e] and stops
    observing it. *)
Lemma batch_animates e entries : ∀ acc,
  mkEntry e true ∈ entries → is_Some (nodes acc.2 !! e) →
  hasClass "animated" e (foldl onEntry acc entries).2 = true
  ∧ isObserved e (foldl onEntry acc entries).1 = false.
Proof.
  induction entries as [|entry rest IH]; intros acc Hin Hvalid.
  - by apply elem_of_nil in Hin.
  - simpl. apply elem_of_cons in Hin as [<- | Hin].
    + apply (foldl_onEntry_invariant (λ _, True)).
      * intros acc' entry' _. apply onEntry_keeps_done.
      * by apply Forall_forall.
      * unfold onEntry. cbn [isIntersecting target fst snd]. split.
        -- by apply animateElement_hasClass.
        -- apply isObserved_unobserve_same.
    + apply IH; [done|]. by apply onEntry_valid.
Qed.

(** An entry for another element does not touch [e]. *)
Lemma onEntry_other e x acc entry :
  target entry ≠ e →
  nodes acc.2 !! e = x ∧ isObserved e acc.1 = false →
  nodes (onEntry acc entry).2 !! e = x ∧ isObserved e (onEntry acc entry).1 = false.
Proof.
  intros Hne [Hx Ho]. unfold onEntry. destruct (isIntersecting entry); [|done].
  cbn [fst snd]. split.
  - by rewrite animateElement_lookup_ne.
  - by apply isObserved_unobserve_mono.
Qed.

Lemma onEntry_flags acc entry :
  isAnimationPaused (onEntry acc entry).1 = isAnimationPaused acc.1
  ∧ observedElements (onEntry acc entry).1 = observedElements acc.1.
Proof. unfold onEntry. by destruct (isIntersecting entry). Qed.

Lemma notify_flags entries s :
  isAnimationPaused (notify entries s).1 = isAnimationPaused s.1
  ∧ observedElements (notify entries s).1 = observedElements s.1.
Proof.
  unfold notify. destruct (intersectionObserver s.1) as [targets|]; [|done].
  unfold observerCallback. destruct (isAnimationPaused s.1) eqn:Hp; [done|].
  rewrite <- Hp.
  apply (foldl_onEntry_invariant (λ _, True)
           (λ acc, isAnimationPaused acc.1 = isAnimationPaused s.1
                   ∧ observedElements acc.1 = observedElements s.1)).
  - intros acc entry _ [H1 H2]. destruct (onEntry_flags acc entry) as [-> ->]. done.
  - by apply Forall_forall.
  - done.
Qed.

(** The browser has nothing to report for an element that is not observed:
    the notification leaves it as it is. *)
Lemma notify_unobserved e entries s :
  isObserved e s.1 = false →
  nodes (notify entries s).2 !! e = nodes s.2 !! e
  ∧ isObserved e (notify entries s).1 = false.
Proof.
  intros Ho. unfold notify.
  destruct (intersectionObserver s.1) as [targets|] eqn:Ht; [|done].
  unfold observerCallback. destruct (isAnimationPaused s.1); [done|].
  apply (foldl_onEntry_invariant (λ entry, target entry ≠ e)).
  - intros acc entry. apply onEntry_other.
  - apply Forall_forall. intros entry [Hin _]%list_elem_of_filter.
    intros Heq. rewrite Heq in Hin. unfold isObserved in Ho. rewrite Ht in Ho.
    by apply bool_decide_eq_false_1 in Ho.
  - done.
Qed.

Lemma notify_skips e entries s :
  isObserved e s.1 = false →
  notify entries s = notify (filter (λ entry, target entry ≠ e) entries) s.
Proof.
  intros Ho. unfold notify.
  destruct (intersectionObserver s.1) as [targets|] eqn:Ht; [|done].
  f_equal. rewrite list_filter_filter. apply list_filter_iff. intros entry.
  split; [|tauto]. intros Hin. split; [exact Hin|].
  intros Heq. rewrite Heq in Hin. unfold isObserved in Ho. rewrite Ht in Ho.
  by apply bool_decide_eq_false_1 in Ho.
Qed.

(** An element the component has dropped stays dropped and untouched,
    whatever happens next. *)
Lemma step_keeps_dropped e x s ev :
  e ∈ observedElements s.1 ∧ isObserved e s.1 = false ∧ nodes s.2 !! e = x →
  e ∈ observedElements (step s ev).1 ∧ isObserved e (step s ev).1 = false
  ∧ nodes (step s ev).2 !! e = x.
Proof.
  intros (Hin & Ho & Hx). destruct ev as [| |entries|]; simpl.
  - done.
  - done.
  - destruct (notify_unobserved e entries s Ho) as [Hn Ho'].
    destruct (notify_flags entries s) as [_ Hoe].
    rewrite Hoe, Hn. done.
  - unfold handleResize. rewrite bool_decide_eq_false_2; [done|].
    intros Hsize%size_empty_iff. apply (not_elem_of_empty (C:=gset nat) e).
    by rewrite <- Hsize.
Qed.

Lemma run_keeps_dropped e x evs : ∀ s,
  e ∈ observedElements s.1 ∧ isObserved e s.1 = false ∧ nodes s.2 !! e = x →
  e ∈ observedElements (run evs s).1 ∧ isObserved e (run evs s).1 = false
  ∧ nodes (run evs s).2 !! e = x.
Proof.
  induction evs as [|ev rest IH]; intros s H; [done|].
  simpl. apply IH. by apply step_keeps_dropped.
Qed.

(** The elements the observer watches are always among those the component
    has recorded, in every state it reaches from its construction. *)
Lemma observeEach_recorded elements : ∀ index s r s',
  observeEach index elements s = (r, s') → recorded s.1 → recorded s'.1.
Proof.
  induction elements as [|element rest IH]; intros index [this w] r s' H Hrec.
  - by injection H as _ <-.
  - cbn [fst] in Hrec. simpl in H. destruct (intersectionObserver this) as [targets|] eqn:Ht.
    + apply IH in H; [exact H|]. intros h. unfold isObserved. simpl.
      intros Hh%bool_decide_eq_true_1. apply elem_of_union in Hh as [Hh | Hh].
      * apply elem_of_union. left. apply Hrec. unfold isObserved. rewrite Ht.
        by apply bool_decide_eq_true_2.
      * apply elem_of_union. by right.
    + injection H as _ <-. exact Hrec.
Qed.

Lemma observeSelectors_recorded sels : ∀ s r s',
  observeSelectors sels s = (r, s') → recorded s.1 → recorded s'.1.
Proof.
  induction sels as [|selector rest IH]; intros s r s' H Hrec.
  - by injection H as _ <-.
  - simpl in H. unfold Js.bind in H.
    destruct (observeEach 0 (querySelectorAll_class selector s.2) s) as [[e|[]] s1] eqn:H1.
    + injection H as _ <-. by apply (observeEach_recorded _ _ _ _ _ H1).
    + apply (IH _ _ _ H). by apply (observeEach_recorded _ _ _ _ _ H1).
Qed.

Lemma init_recorded w : recorded (AnimationManager.init (constructor, w)).2.1.
Proof.
  unfold AnimationManager.init, Js.bind, Js.modify, observeElements.
  destruct (observeSelectors selectors (setupIntersectionObserver (constructor, w)))
    as [[e|[]] s1] eqn:H1; cbn [fst snd].
  - apply (observeSelectors_recorded _ _ _ _ H1). by intros h.
  - assert (recorded s1.1) as Hrec
      by (apply (observeSelectors_recorded _ _ _ _ H1); by intros h).
    unfold addTypingEffect. destruct s1 as [this w1].
    by destruct (querySelector_hero_title w1).
Qed.

Lemma step_recorded s ev : recorded s.1 → recorded (step s ev).1.
Proof.
  intros Hrec. destruct ev as [| |entries|]; simpl.
  - exact Hrec.
  - exact Hrec.
  - unfold notify. destruct (intersectionObserver s.1) as [targets|]; [|exact Hrec].
    unfold observerCallback. destruct (isAnimationPaused s.1); [exact Hrec|].
    apply (foldl_onEntry_invariant (λ _, True) (λ acc, recorded acc.1)).
    + intros acc entry _ Hacc. unfold onEntry. destruct (isIntersecting entry); [|exact Hacc].
      cbn [fst snd]. intros h Hh. apply Hacc.
      destruct (isObserved h acc.1) eqn:Ho; [done|].
      by rewrite (isObserved_unobserve_mono _ _ _ Ho) in Hh.
    + by apply Forall_forall.
    + exact Hrec.
  - unfold handleResize. case_bool_decide; [|exact Hrec].
    destruct (observeElements s) as [r s'] eqn:Hobs. simpl.
    by apply (observeSelectors_recorded _ _ _ _ Hobs).
Qed.

Lemma reachable_recorded w evs :
  recorded (run evs (AnimationManager.init (constructor, w)).2).1.
Proof.
  unfold run. generalize (init_recorded w).
  generalize ((AnimationManager.init (constructor, w)).2). intros s.
  revert s. induction evs as [|ev rest IH]; intros s Hs; [exact Hs|].
  simpl. apply IH. by apply step_recorded.
Qed.

End AnimationFacts.

(** C4, as the specification states it, fails on a paused manager: the
    first intersecting entry for the element with handle 11 of the sample
    page arrives while the component is paused, so the element stays
    observed and without the class; after [resume()] a second intersecting
    entry for it is evaluated and changes its class list. *)
Lemma one_shot_counterexample :
  let s0 := (AnimationManager.init (AnimationManager.constructor, Page.loaded)).2 in
  let entry := AnimationManager.mkEntry 11 true in
  let s1 := AnimationManager.run
              [AnimationManager.Pause; AnimationManager.Intersection [entry]] s0 in
  let s2 := AnimationManager.run
              [AnimationManager.Resume; AnimationManager.Intersection [entry]] s1 in
  AnimationManager.isObserved 11 s0.1 = true ∧
  AnimationManager.isObserved 11 s1.1 = true ∧
  Dom.hasClass "animated" 11 s1.2 = false ∧
  Dom.hasClass "animated" 11 s2.2 = true ∧
  Dom.nodes s2.2 !! 11 ≠ Dom.nodes s1.2 !! 11.
Proof.
  vm_compute. repeat split; try reflexivity. intros H. discriminate H.
Qed.

(** C4, amended.  For an element the component observes, an intersecting
    entry delivered while the component is not paused gives the element the
    [animated] class and removes it from the observer's targets.  From then
    on, through any pauses, resumes, resizes and further intersection
    events, the element stays out of the targets, no entry for it reaches
    the callback, and the element is not changed.  An intersecting entry
    delivered while the component is paused changes nothing: the element
    stays observed. *)
Theorem one_shot_when_not_paused (s : AnimationManager.t * Dom.World) (e : nat)
    (entries : list AnimationManager.IntersectionObserverEntry) :
  AnimationManager.isObserved e s.1 = true →
  e ∈ AnimationManager.observedElements s.1 →
  is_Some (Dom.nodes s.2 !! e) →
  AnimationManager.mkEntry e true ∈ entries →
  (AnimationManager.isAnimationPaused s.1 = true →
     AnimationManager.notify entries s = s) ∧
  (AnimationManager.isAnimationPaused s.1 = false →
     let s1 := AnimationManager.notify entries s in
     Dom.hasClass "animated" e s1.2 = true ∧
     AnimationManager.isObserved e s1.1 = false ∧
     ∀ evs,
       let s2 := AnimationManager.run evs s1 in
       AnimationManager.isObserved e s2.1 = false ∧
       Dom.nodes s2.2 !! e = Dom.nodes s1.2 !! e ∧
       ∀ later,
         AnimationManager.notify later s2
         = AnimationManager.notify
             (filter (λ entry, AnimationManager.target entry ≠ e) later) s2).
Proof.
  intros Hobs Hin Hvalid Hentry. split.
  - intros Hp. unfold AnimationManager.notify, AnimationManager.observerCallback.
    rewrite Hp. by destruct (AnimationManager.intersectionObserver s.1).
  - intros Hp s1.
    assert (Dom.hasClass "animated" e s1.2 = true
            ∧ AnimationManager.isObserved e s1.1 = false) as [Hc Ho].
    { subst s1. unfold AnimationManager.notify, AnimationManager.observerCallback.
      unfold AnimationManager.isObserved in Hobs.
      destruct (AnimationManager.intersectionObserver s.1) as [targets|]; [|done].
      rewrite Hp. apply batch_animates; [|done].
      apply list_elem_of_filter. split; [|done]. simpl.
      by apply bool_decide_eq_true_1 in Hobs. }
    split; [exact Hc|]. split; [exact Ho|].
    intros evs s2.
    destruct (run_keeps_dropped e (Dom.nodes s1.2 !! e) evs s1) as (_ & Ho2 & Hn2).
    { split; [|done]. subst s1.
      by rewrite (proj2 (notify_flags entries s)). }
    fold s2 in Ho2, Hn2. split; [exact Ho2|]. split; [exact Hn2|].
    intros later. by apply notify_skips.
Qed.

Lemma one_shot_when_not_paused_witness :
  let s0 := (AnimationManager.init (AnimationManager.constructor, Page.loaded)).2 in
  let s1 := AnimationManager.notify [AnimationManager.mkEntry 11 true] s0 in
  Dom.hasClass "animated" 11 s1.2 = true ∧
  AnimationManager.isObserved 11 s1.1 = false.
Proof.
  intros s0 s1.
  destruct (one_shot_when_not_paused s0 11 [AnimationManager.mkEntry 11 true])
    as [_ H].
  - vm_compute. reflexivity.
  - refine (bool_decide_unpack _ _). vm_compute. exact I.
  - vm_compute. eexists. reflexivity.
  - left.
  - destruct H as (Hc & Ho & _); [vm_compute; reflexivity|]. split; assumption.
Defined.

(** C5.  [pause()] and [resume()] change the flag and nothing else: the
    observer and its targets are kept.  From [pause()] until the next
    [resume()], intersection events (and the callback itself, on any
    entries) leave the component and the whole page unchanged, so no
    element gains a class.  After [resume()], an intersecting entry for an
    element that is still observed puts [animated] on it. *)
Theorem pause_gates_animation :
  (∀ this,
     AnimationManager.pause this
       = AnimationManager.mk (AnimationManager.observedElements this)
                             (AnimationManager.intersectionObserver this) true ∧
     AnimationManager.resume this
       = AnimationManager.mk (AnimationManager.observedElements this)
                             (AnimationManager.intersectionObserver this) false) ∧
  (∀ this w entries,
     AnimationManager.observerCallback entries (AnimationManager.pause this, w)
       = (AnimationManager.pause this, w)) ∧
  (∀ this w evs,
     Forall (λ ev, ev = AnimationManager.Pause ∨ ∃ entries, ev = AnimationManager.Intersection entries) evs →
     AnimationManager.run evs (AnimationManager.pause this, w)
       = (AnimationManager.pause this, w)) ∧
  (∀ this w e entries,
     AnimationManager.isObserved e this = true →
     is_Some (Dom.nodes w !! e) →
     AnimationManager.mkEntry e true ∈ entries →
     Dom.hasClass "animated" e
       (AnimationManager.run
          [AnimationManager.Resume; AnimationManager.Intersection entries]
          (AnimationManager.pause this, w)).2 = true).
Proof.
  split; [done|]. split; [done|]. split.
  - intros this w evs. induction evs as [|ev rest IH]; intros Hevs; [done|].
    apply Forall_cons in Hevs as [Hev Hrest]. simpl.
    destruct Hev as [-> | [entries ->]]; simpl.
    + by apply IH.
    + unfold AnimationManager.notify. simpl.
      destruct (AnimationManager.intersectionObserver this); by apply IH.
  - intros this w e entries Hobs Hvalid Hentry. simpl.
    unfold AnimationManager.notify, AnimationManager.observerCallback. simpl.
    unfold AnimationManager.isObserved in Hobs.
    destruct (AnimationManager.intersectionObserver this) as [targets|]; [|done].
    apply batch_animates; [|done].
    apply list_elem_of_filter. split; [|done]. simpl.
    by apply bool_decide_eq_true_1 in Hobs.
Qed.

Lemma pause_gates_animation_witness :
  let s0 := (AnimationManager.init (AnimationManager.constructor, Page.loaded)).2 in
  Dom.hasClass "animated" 13
    (AnimationManager.run
       [AnimationManager.Resume;
        AnimationManager.Intersection [AnimationManager.mkEntry 13 true]]
       (AnimationManager.pause s0.1, s0.2)).2 = true.
Proof.
  intros s0.
  apply (proj2 (proj2 (proj2 pause_gates_animation))).
  - vm_compute. reflexivity.
  - vm_compute. eexists. reflexivity.
  - left.
Defined.

(** ** NavigationManager *)

Section NavigationFacts.
Import Dom NavigationManager.

(** The loop over the sections computes the id of the last section whose
    top is at most the scroll position, and [''] when there is none. *)
Lemma findCurrentSection_last position w :
  findCurrentSection position w
  = from_option (λ h, sectionId h w) "" (lastSectionAtOrAbove position w).
Proof.
  unfold findCurrentSection, lastSectionAtOrAbove.
  generalize (querySelectorAll_section_id w). intros sections.
  induction sections as [|h rest IH] using rev_ind; [done|].
  rewrite foldl_snoc, filter_app, IH. clear IH.
  unfold satisfies, sectionId.
  destruct (nodes w !! h) as [section|] eqn:Hh.
  - replace (pageTop section - scrollY w + scrollY w)%Z with (pageTop section) by lia.
    rewrite Z.geb_leb.
    destruct (pageTop section <=? position)%Z eqn:Hq.
    + rewrite filter_cons_True by (by rewrite Hh). rewrite filter_nil, last_snoc. simpl.
      by rewrite Hh.
    + rewrite filter_cons_False by (rewrite Hh; congruence).
      by rewrite filter_nil, app_nil_r.
  - rewrite filter_cons_False by (by rewrite Hh). by rewrite filter_nil, app_nil_r.
Qed.

Lemma contains_classList_toggle c force e :
  contains c (classList_toggle c force e) = force.
Proof.
  destruct force; simpl.
  - apply contains_classList_add.
  - unfold contains, classList_remove. simpl. apply bool_decide_eq_false_2.
    by intros [Hne _]%list_elem_of_filter.
Qed.

Lemma classList_toggle_attributes c force e :
  attributes (classList_toggle c force e) = attributes e.
Proof.
  destruct force; simpl; [|done]. unfold classList_add. by destruct (contains c e).
Qed.

Lemma updateNode_href link f w l :
  (∀ e, attributes (f e) = attributes e) →
  nodes (updateNode link f w) !! l ≫= getAttribute "href"
  = nodes w !! l ≫= getAttribute "href".
Proof.
  intros Hf. unfold updateNode. simpl. destruct (decide (link = l)) as [-> | Hne].
  - rewrite list_lookup_alter_eq. destruct (nodes w !! l); simpl; [|done].
    unfold getAttribute. by rewrite Hf.
  - by rewrite list_lookup_alter_ne.
Qed.

Lemma updateLinks_other currentSection links : ∀ w r w',
  updateLinks currentSection links w = (r, w') →
  ∀ l, l ∉ links → nodes w' !! l = nodes w !! l.
Proof.
  induction links as [|link rest IH]; intros w r w' H l Hl; simpl in H.
  - by injection H as _ <-.
  - apply not_elem_of_cons in Hl as [Hne Hl].
    destruct (nodes w !! link ≫= getAttribute "href") as [href|].
    + rewrite (IH _ _ _ H l Hl). unfold updateNode. simpl.
      by rewrite list_lookup_alter_ne.
    + by injection H as _ <-.
Qed.

(** After the loop over the links, a link carries [active] exactly when
    its [href] without the first character is the current section. *)
Lemma updateLinks_marks currentSection links : ∀ w w',
  updateLinks currentSection links w = (inr tt, w') →
  ∀ l, l ∈ links →
    ∃ href, nodes w !! l ≫= getAttribute "href" = Some href ∧
            hasClass "active" l w' = bool_decide (Js.substring1 href = currentSection).
Proof.
  induction links as [|link rest IH]; intros w w' H l Hl; simpl in H.
  - by apply elem_of_nil in Hl.
  - destruct (nodes w !! link ≫= getAttribute "href") as [href|] eqn:Hhref; [|done].
    destruct (decide (l ∈ rest)) as [Hin | Hnin].
    + destruct (IH _ _ H l Hin) as (href' & Hh' & Hc).
      exists href'. split; [|exact Hc].
      rewrite <- Hh'. symmetry. apply updateNode_href.
      intros e. apply classList_toggle_attributes.
    + apply elem_of_cons in Hl as [-> | Hl]; [|done].
      exists href. split; [exact Hhref|].
      unfold hasClass, satisfies. rewrite (updateLinks_other _ _ _ _ _ H link Hnin).
      unfold updateNode. simpl. rewrite list_lookup_alter_eq.
      destruct (nodes w !! link) as [e|]; [|done]. simpl.
      apply contains_classList_toggle.
Qed.

(** [setActiveLink()], when it returns: the active links are those whose
    target is the id of the last section at or above the scroll position;
    with no such section they are those whose target is empty. *)
Lemma setActiveLink_marks this w n nav this' w' :
  navbar this = Some n → nodes w !! n = Some nav →
  setActiveLink (this, w) = (inr tt, (this', w')) →
  ∀ l, l ∈ navLinks this →
    ∃ href, nodes w !! l ≫= getAttribute "href" = Some href ∧
            hasClass "active" l w'
            = bool_decide (Js.substring1 href
                           = from_option (λ h, sectionId h w) ""
                               (lastSectionAtOrAbove (scrollY w + offsetHeight nav + 100) w)).
Proof.
  intros Hn Hnav H l Hl. unfold setActiveLink, deref in H. rewrite Hn, Hnav in H.
  destruct (updateLinks _ (navLinks this) w) as [r w1] eqn:Hu.
  injection H as -> _ <-.
  rewrite <- findCurrentSection_last. by apply (updateLinks_marks _ _ _ _ Hu).
Qed.

End NavigationFacts.

(** The example of the specification: with sections at offsets 0, 500 and
    1000 and [scrollY + navbarHeight + 100 = 600], the link of the section
    at 500 is the active one and the other two are not. *)
Example active_link_for_600 :
  let w := Page.world Page.markup 430 ∅ false in
  let s := NavigationManager.init (NavigationManager.constructor, w) in
  s.1 = inr tt ∧
  NavigationManager.lastSectionAtOrAbove 600 w = Some 10 ∧
  NavigationManager.sectionId 10 w = "about" ∧
  map (λ h, Dom.hasClass "active" h s.2.2) (NavigationManager.navLinks s.2.1)
  = [false; true; false].
Proof. vm_compute. done. Qed.

(** C6, where the code departs from it.  On a page whose only section
    starts below the threshold, no section qualifies, so the specification
    has no link active; [setActiveLink()] marks the link whose [href] is the bare
    [#], because its target, the empty string, equals the initial value of
    [currentSection]. *)
Theorem active_link_bare_hash :
  let w := Page.world Page.bareHashMarkup 0 ∅ false in
  let s := NavigationManager.init (NavigationManager.constructor, w) in
  s.1 = inr tt ∧
  NavigationManager.navLinks s.2.1 = [3; 4] ∧
  NavigationManager.lastSectionAtOrAbove (0 + 70 + 100) w = None ∧
  NavigationManager.findCurrentSection (0 + 70 + 100) w = "" ∧
  (Dom.nodes w !! 3 ≫= Dom.getAttribute "href") = Some "#" ∧
  Dom.hasClass "active" 3 s.2.2 = true ∧
  Dom.hasClass "active" 4 s.2.2 = false.
Proof. vm_compute. done. Qed.

(** ** Utils.throttle *)

Section ApartFacts.
Import Utils.

Lemma Apart_snoc w times t :
  Apart w times → Forall (λ u, (u + w ≤ t)%Z) times → Apart w (times ++ [t]).
Proof.
  induction times as [|u rest IH]; intros Ha Hf; simpl.
  - split; [constructor | exact I].
  - destruct Ha as [Hu Hrest]. apply Forall_cons in Hf as [Hut Hf]. split.
    + apply Forall_app. split; [exact Hu|]. by repeat constructor.
    + by apply IH.
Qed.

Lemma window_empty_after w a t rest :
  (a ≤ t)%Z → Forall (λ u, (t + w ≤ u)%Z) rest → inWindow a w rest = [].
Proof.
  intros Hat. unfold inWindow. induction rest as [|u rest IH]; intros Hf; [done|].
  apply Forall_cons in Hf as [Hu Hf]. rewrite filter_cons_False by lia. by apply IH.
Qed.

(** Times that are [w] apart put at most one of them in a window of
    length [w]. *)
Lemma Apart_window w times a :
  Apart w times → length (inWindow a w times) ≤ 1.
Proof.
  induction times as [|t rest IH]; intros Ha; [simpl; lia|].
  destruct Ha as [Ht Hrest]. unfold inWindow. rewrite filter_cons. case_decide as Hw.
  - fold (inWindow a w rest). rewrite (window_empty_after w a t rest); [simpl; lia|lia|done].
  - by apply IH.
Qed.

End ApartFacts.

Section ThrottleFacts.
Import Utils.
Context {S : Type}.
Variable func : S → Run S.
Variable limit : Z.
Variable stack : nat.

(** While the flag is set a call does nothing. *)
Lemma throttled_busy depth l :
  inThrottle l = true → throttled func limit depth l = (inr tt, l).
Proof. intros Hin. destruct depth; simpl; by rewrite Hin. Qed.

(** A call that finds the flag clear and whose handler returns without a
    call of its own: one application, then the flag and one timer. *)
Lemma throttled_returns depth l c' :
  inThrottle l = false → func (context l) = Returns c' →
  throttled func limit depth l
  = (inr tt, mkLoop (now l) true (resets l ++ [(now l + Z.max 0 limit)%Z])
                    (applied l ++ [now l]) c').
Proof. intros Hin Hf. destruct depth; simpl; by rewrite Hin, Hf. Qed.

Hypothesis func_returns : ∀ c, ∃ c', func c = Returns c'.

Lemma throttle_inv_fresh t0 (c : S) : throttle_inv limit (fresh t0 c).
Proof. repeat split; constructor. Qed.

Lemma throttle_inv_step l tick :
  throttle_inv limit l → throttle_inv limit (step func limit stack l tick).
Proof.
  intros [Ha Hf]. destruct tick as [|ms|]; cbn [step].
  - destruct (inThrottle l) eqn:Hin.
    { rewrite throttled_busy by done. cbn [snd]. split; [exact Ha|]. by rewrite Hin. }
    destruct Hf as [Hr Hf]. destruct (func_returns (context l)) as [c' Hc].
    rewrite (throttled_returns _ _ c') by done. cbn [snd]. split.
    + by apply Apart_snoc.
    + exists (now l + Z.max 0 limit)%Z. cbn [inThrottle resets applied].
      rewrite Hr. split; [done|].
      apply Forall_app. split.
      * eapply Forall_impl; [exact Hf|]. simpl. lia.
      * repeat constructor. lia.
  - split; [exact Ha|]. simpl. destruct (inThrottle l); [exact Hf|].
    destruct Hf as [Hr Hf]. split; [exact Hr|].
    eapply Forall_impl; [exact Hf|]. simpl. lia.
  - unfold fireTimer. destruct (inThrottle l) eqn:Hin.
    + destruct Hf as (due & Hr & Hf). rewrite Hr.
      destruct (due <=? now l)%Z eqn:Hdue.
      * split; [exact Ha|]. simpl. split; [done|].
        eapply Forall_impl; [exact Hf|]. simpl. lia.
      * split; [exact Ha|]. rewrite Hin. by exists due.
    + destruct Hf as [Hr Hf]. rewrite Hr. split; [exact Ha|]. by rewrite Hin.
Qed.

Lemma throttle_inv_run ticks : ∀ l,
  throttle_inv limit l → throttle_inv limit (run func limit stack ticks l).
Proof.
  induction ticks as [|tick rest IH]; intros l Hl; [done|].
  simpl. apply IH. by apply throttle_inv_step.
Qed.

(** Calls that arrive while the flag is set are dropped. *)
Lemma run_calls_dropped n l :
  inThrottle l = true → run func limit stack (replicate n Call) l = l.
Proof.
  intros Hin. induction n as [|n IH]; [done|].
  change (run func limit stack (replicate (Datatypes.S n) Call) l)
    with (run func limit stack (replicate n Call) (throttled func limit stack l).2).
  by rewrite throttled_busy.
Qed.

Lemma run_calls_once n t0 c :
  applied (run func limit stack (replicate (Datatypes.S n) Call) (fresh t0 c)) = [t0].
Proof.
  change (run func limit stack (replicate (Datatypes.S n) Call) (fresh t0 c))
    with (run func limit stack (replicate n Call)
            (throttled func limit stack (fresh t0 c)).2).
  destruct (func_returns c) as [c' Hc].
  rewrite (throttled_returns _ _ c') by done. cbn [snd].
  by rewrite run_calls_dropped.
Qed.

End ThrottleFacts.

(** C7, as the specification states it, fails in two ways, both because
    the wrapper sets its flag and starts its timer only after [func] has
    returned.  A handler that throws leaves the flag clear and no timer
    set: of 100 calls in the same millisecond every one applies the
    handler, all inside one 16 ms window.  A handler that returns normally
    but calls the wrapper itself is applied again by that inner call: one
    single call applies [f = () => { n++; if (n < 3) t(); }] three times in
    the same millisecond and leaves three timers. *)
Lemma throttle_counterexample :
  (let l := Utils.run Utils.alwaysThrows 16 8 (replicate 100 Utils.Call) (Utils.fresh 0 0) in
   Utils.context l = 100 ∧
   length (Utils.inWindow 0 16 (Utils.applied l)) = 100 ∧
   Utils.inThrottle l = false) ∧
  (Utils.throttled Utils.reentering 16 8 (Utils.fresh 0 0)
   = (inr tt, Utils.mkLoop 0 true [16; 16; 16]%Z [0; 0; 0]%Z 3) ∧
   length (Utils.inWindow 0 16
             (Utils.applied (Utils.run Utils.reentering 16 8 [Utils.Call]
                               (Utils.fresh 0 0)))) = 3).
Proof. vm_compute. done. Qed.

(** C7, amended.  For every handler that returns normally without calling
    the wrapper itself, and for every limit, whatever calls, timer runs and
    passages of time the wrapper sees, any window of [limit] milliseconds
    holds at most one application of the handler; a call that arrives
    while the flag is set does nothing.  Of 100 calls with no timer run
    between them, under a limit of 16 ms, the first applies the handler
    and the other 99 are dropped. *)
Theorem throttle_at_most_once_per_window {S : Type} (func : S → Utils.Run S)
    (stack : nat) :
  (∀ c, ∃ c', func c = Utils.Returns c') →
  (∀ limit ticks t0 c0 a,
     length (Utils.inWindow a limit
               (Utils.applied (Utils.run func limit stack ticks (Utils.fresh t0 c0)))) ≤ 1) ∧
  (∀ limit l, Utils.inThrottle l = true →
     Utils.throttled func limit stack l = (inr tt, l)) ∧
  (∀ t0 c0,
     Utils.applied (Utils.run func 16 stack (replicate 100 Utils.Call) (Utils.fresh t0 c0))
     = [t0]).
Proof.
  intros Hret. split; [|split].
  - intros limit ticks t0 c0 a. apply Apart_window.
    apply (throttle_inv_run func limit stack Hret ticks). apply throttle_inv_fresh.
  - intros limit l Hin. by apply throttled_busy.
  - intros t0 c0. by apply (run_calls_once func 16 stack Hret 99).
Qed.

Lemma throttle_at_most_once_per_window_witness :
  Utils.applied
    (Utils.run Utils.counting 16 8 (replicate 100 Utils.Call) (Utils.fresh 0 0))
  = [0%Z].
Proof.
  apply (throttle_at_most_once_per_window Utils.counting 8).
  intros c. by eexists.
Defined.

(** ** The tracking beacon *)

Section TrackingFacts.
Import Tracking.

(** Case analysis on the emptiness tests of a chain of [||]. *)
Ltac split_truthy :=
  repeat first
    [ progress simpl
    | rewrite bool_decide_eq_true_2 by done
    | rewrite bool_decide_eq_false_2 by done
    | case_bool_decide ];
  try done.

Lemma resolveSource_firstNonEmpty b :
  resolveSource b = firstNonEmpty ["source"; "utm_source"; "ref"] "direct" b.
Proof.
  unfold resolveSource, firstNonEmpty, Js.or_else, Js.truthy.
  destruct (getUrlParameter "source" b) as [v1|];
    destruct (getUrlParameter "utm_source" b) as [v2|];
    destruct (getUrlParameter "ref" b) as [v3|];
    split_truthy.
Qed.

Lemma resolveCampaign_firstNonEmpty b :
  resolveCampaign b = firstNonEmpty ["campaign"; "utm_campaign"] "" b.
Proof.
  unfold resolveCampaign, firstNonEmpty, Js.or_else, Js.truthy.
  destruct (getUrlParameter "campaign" b) as [v1|];
    destruct (getUrlParameter "utm_campaign" b) as [v2|];
    split_truthy.
Qed.

Lemma resolveMedium_firstNonEmpty b :
  resolveMedium b = firstNonEmpty ["medium"; "utm_medium"] "" b.
Proof.
  unfold resolveMedium, firstNonEmpty, Js.or_else, Js.truthy.
  destruct (getUrlParameter "medium" b) as [v1|];
    destruct (getUrlParameter "utm_medium" b) as [v2|];
    split_truthy.
Qed.

Lemma getVisitorId_fields b :
  hostname (getVisitorId b).2 = hostname b ∧
  console (getVisitorId b).2 = console b ∧
  sent (getVisitorId b).2 = sent b ∧
  inflight (getVisitorId b).2 = inflight b ∧
  unhandled (getVisitorId b).2 = unhandled b ∧
  sessionStorage (getVisitorId b).2 = sessionStorage b.
Proof. unfold getVisitorId. by destruct (negb _). Qed.

Lemma trackVisitor_console b :
  console (trackVisitor b) = console b ++ [LogData "Visitor tracked:" (dataOf b)].
Proof.
  unfold trackVisitor, dataOf.
  destruct (getVisitorId_fields b) as (_ & Hc & _).
  destruct (getVisitorId b) as [id b1]. cbn [fst snd] in *.
  destruct (_ && _); case_bool_decide; simpl; by rewrite Hc.
Qed.

Lemma trackVisitor_sent b :
  sent (trackVisitor b)
  = if bool_decide (hostname b ≠ "localhost") && bool_decide (hostname b ≠ "127.0.0.1")
    then sent b ++ [mkRequest trackingEndpoint "POST" [("Content-Type", "application/json")]
                              "no-cors" (dataOf b) true]
    else sent b.
Proof.
  unfold trackVisitor, dataOf.
  destruct (getVisitorId_fields b) as (Hh & _ & Hs & _).
  destruct (getVisitorId b) as [id b1]. cbn [fst snd] in *. rewrite Hh.
  destruct (_ && _); case_bool_decide; simpl; by rewrite Hs.
Qed.

Lemma trackVisitor_inflight b :
  inflight (trackVisitor b)
  = if bool_decide (hostname b ≠ "localhost") && bool_decide (hostname b ≠ "127.0.0.1")
    then inflight b ++ [mkRequest trackingEndpoint "POST"
                          [("Content-Type", "application/json")]
                          "no-cors" (dataOf b) true]
    else inflight b.
Proof.
  unfold trackVisitor, dataOf.
  destruct (getVisitorId_fields b) as (Hh & _ & _ & Hi & _).
  destruct (getVisitorId b) as [id b1]. cbn [fst snd] in *. rewrite Hh.
  destruct (_ && _); case_bool_decide; simpl; by rewrite Hi.
Qed.

Lemma trackVisitor_unhandled b : unhandled (trackVisitor b) = unhandled b.
Proof.
  unfold trackVisitor.
  destruct (getVisitorId_fields b) as (_ & _ & _ & _ & Hu & _).
  destruct (getVisitorId b) as [id b1]. cbn [fst snd] in *.
  destruct (_ && _); case_bool_decide; simpl; by rewrite Hu.
Qed.

Lemma trackVisitor_sessionStorage b :
  sessionStorage (trackVisitor b)
  = if bool_decide (resolveSource b ≠ "direct")
    then <["visit_source" := resolveSource b]> (sessionStorage b)
    else sessionStorage b.
Proof.
  unfold trackVisitor.
  destruct (getVisitorId_fields b) as (_ & _ & _ & _ & _ & Hs).
  destruct (getVisitorId b) as [id b1]. cbn [fst snd] in *.
  destruct (_ && _); case_bool_decide; simpl; by rewrite Hs.
Qed.

Lemma dataOf_setHostname host b : dataOf (setHostname host b) = dataOf b.
Proof.
  unfold dataOf, getVisitorId. simpl.
  by destruct (negb (Js.truthy (localStorage b !! "visitor_id"))).
Qed.

End TrackingFacts.

(** C8, as the specification states it, fails when a parameter is present
    with an empty value: for the query [?source=&utm_source=linkedin] the
    parameter [source] is present, yet the resolved source is [linkedin];
    likewise [?campaign=&utm_campaign=launch] resolves the campaign to
    [launch]. *)
Lemma tracking_source_counterexample :
  let b := Tracking.visit "omartaha.ca" "/" [("source", ""); ("utm_source", "linkedin")] in
  let b' := Tracking.visit "omartaha.ca" "/" [("campaign", ""); ("utm_campaign", "launch")] in
  Tracking.getUrlParameter "source" b = Some "" ∧
  Tracking.firstPresent ["source"; "utm_source"; "ref"] "direct" b = "" ∧
  Tracking.resolveSource b = "linkedin" ∧
  Tracking.firstPresent ["campaign"; "utm_campaign"] "" b' = "" ∧
  Tracking.resolveCampaign b' = "launch".
Proof. vm_compute. done. Qed.

(** C8, amended.  The resolved source is the value of [source] if it is
    present and not empty, else that of [utm_source] if present and not
    empty, else that of [ref] if present and not empty, else [direct];
    campaign and medium take the plain name first, then the [utm_] name,
    under the same test, else the empty string.  When no parameter is
    present with an empty value this is the first present one.  The object
    logged (and sent) has the fields source, campaign, medium, referrer,
    user_agent, page, timestamp and visitor_id, in this order and no others.
    For the query [?utm_source=linkedin&utm_campaign=launch] the source is
    [linkedin] and the campaign [launch]. *)
Theorem tracking_payload (b : Tracking.Browser) :
  Tracking.resolveSource b
    = Tracking.firstNonEmpty ["source"; "utm_source"; "ref"] "direct" b ∧
  Tracking.resolveCampaign b = Tracking.firstNonEmpty ["campaign"; "utm_campaign"] "" b ∧
  Tracking.resolveMedium b = Tracking.firstNonEmpty ["medium"; "utm_medium"] "" b ∧
  (Forall (λ p, p.2 ≠ "") (Tracking.search b) →
     Tracking.resolveSource b
       = Tracking.firstPresent ["source"; "utm_source"; "ref"] "direct" b ∧
     Tracking.resolveCampaign b = Tracking.firstPresent ["campaign"; "utm_campaign"] "" b ∧
     Tracking.resolveMedium b = Tracking.firstPresent ["medium"; "utm_medium"] "" b) ∧
  Tracking.console (Tracking.trackVisitor b)
    = Tracking.console b ++ [Tracking.LogData "Visitor tracked:" (Tracking.dataOf b)] ∧
  (Tracking.dataOf b).*1
    = ["source"; "campaign"; "medium"; "referrer"; "user_agent"; "page"; "timestamp";
       "visitor_id"] ∧
  (Tracking.search b = [("utm_source", "linkedin"); ("utm_campaign", "launch")] →
     Tracking.resolveSource b = "linkedin" ∧ Tracking.resolveCampaign b = "launch").
Proof.
  split; [apply resolveSource_firstNonEmpty|].
  split; [apply resolveCampaign_firstNonEmpty|].
  split; [apply resolveMedium_firstNonEmpty|].
  split.
  { intros Hne.
    rewrite resolveSource_firstNonEmpty, resolveCampaign_firstNonEmpty,
      resolveMedium_firstNonEmpty.
    assert (∀ names fallback,
              Tracking.firstNonEmpty names fallback b
              = Tracking.firstPresent names fallback b) as Heq.
    { intros names fallback. induction names as [|name rest IH]; [done|]. simpl.
      destruct (Tracking.getUrlParameter name b) as [v|] eqn:Hv; [|exact IH].
      rewrite bool_decide_eq_false_2; [done|].
      unfold Tracking.getUrlParameter in Hv. revert Hv Hne.
      generalize (Tracking.search b). intros params.
      induction params as [|[k x] params IHp]; [done|]. simpl.
      intros Hv [Hx Hrest]%Forall_cons. case_bool_decide; [|by apply IHp].
      by simplify_eq. }
    by rewrite !Heq. }
  split; [apply trackVisitor_console|].
  split; [reflexivity|].
  intros Hs. unfold Tracking.resolveSource, Tracking.resolveCampaign, Tracking.getUrlParameter.
  by rewrite Hs.
Qed.

Lemma tracking_payload_witness :
  let b := Tracking.visit "omartaha.ca" "/"
             [("utm_source", "linkedin"); ("utm_campaign", "launch")] in
  Tracking.resolveSource b = "linkedin" ∧ Tracking.resolveCampaign b = "launch".
Proof.
  intros b.
  apply (proj2 (proj2 (proj2 (proj2 (proj2 (proj2 (tracking_payload b))))))).
  reflexivity.
Defined.

(** C9.  The request is sent exactly when the host is neither [localhost]
    nor [127.0.0.1], and carries the object that is logged; that object is
    built and logged on every host, and is the same whatever the host.  The
    resolved source is stored under [visit_source] in session storage
    exactly when it is not [direct].  [trackVisitor] itself has no failing
    path, and when the request fails the handler on its promise takes the
    rejection: it writes one debug line and nothing reaches the page as an
    unhandled rejection. *)
Theorem tracking_local_host_and_session (b : Tracking.Browser) :
  (Tracking.hostname b ≠ "localhost" ∧ Tracking.hostname b ≠ "127.0.0.1" →
     Tracking.sent (Tracking.trackVisitor b)
     = Tracking.sent b ++
       [Tracking.mkRequest Tracking.trackingEndpoint "POST"
          [("Content-Type", "application/json")] "no-cors" (Tracking.dataOf b) true]) ∧
  (Tracking.hostname b = "localhost" ∨ Tracking.hostname b = "127.0.0.1" →
     Tracking.sent (Tracking.trackVisitor b) = Tracking.sent b) ∧
  (∀ host,
     Tracking.console (Tracking.trackVisitor (Tracking.setHostname host b))
     = Tracking.console b ++ [Tracking.LogData "Visitor tracked:" (Tracking.dataOf b)]) ∧
  (Tracking.resolveSource b ≠ "direct" →
     Tracking.sessionStorage (Tracking.trackVisitor b)
     = <["visit_source" := Tracking.resolveSource b]> (Tracking.sessionStorage b)) ∧
  (Tracking.resolveSource b = "direct" →
     Tracking.sessionStorage (Tracking.trackVisitor b) = Tracking.sessionStorage b) ∧
  (Tracking.inflight b = [] →
   ∀ e,
     let b' := Tracking.settle (Tracking.Failed e) (Tracking.trackVisitor b) in
     Tracking.unhandled b' = Tracking.unhandled b ∧
     Tracking.inflight b' = [] ∧
     (Tracking.hostname b ≠ "localhost" ∧ Tracking.hostname b ≠ "127.0.0.1" →
        Tracking.console b'
        = Tracking.console (Tracking.trackVisitor b)
          ++ [Tracking.DebugMessage "Tracking skipped"])).
Proof.
  split; [|split; [|split; [|split; [|split]]]].
  - intros [H1 H2]. rewrite trackVisitor_sent.
    by rewrite !bool_decide_eq_true_2.
  - intros H. rewrite trackVisitor_sent.
    destruct H as [H | H]; rewrite H; reflexivity.
  - intros host. by rewrite trackVisitor_console, dataOf_setHostname.
  - intros H. rewrite trackVisitor_sessionStorage. by rewrite bool_decide_eq_true_2.
  - intros H. rewrite trackVisitor_sessionStorage. rewrite bool_decide_eq_false_2; [done|].
    by intros Hn.
  - intros Hin e b'. subst b'. unfold Tracking.settle.
    rewrite trackVisitor_inflight, Hin.
    destruct (bool_decide (Tracking.hostname b ≠ "localhost")
              && bool_decide (Tracking.hostname b ≠ "127.0.0.1")) eqn:Hhost; simpl.
    + rewrite trackVisitor_unhandled. done.
    + rewrite trackVisitor_unhandled, trackVisitor_inflight, Hhost, Hin.
      split; [done|]. split; [done|].
      intros [H1 H2]. by rewrite !bool_decide_eq_true_2 in Hhost.
Qed.

Lemma tracking_local_host_and_session_witness :
  let b := Tracking.visit "localhost" "/"
             [("utm_source", "linkedin"); ("utm_campaign", "launch")] in
  Tracking.sent (Tracking.trackVisitor b) = [] ∧
  Tracking.sessionStorage (Tracking.trackVisitor b) = {["visit_source" := "linkedin"]}.
Proof.
  intros b. split.
  - apply (proj1 (proj2 (tracking_local_host_and_session b))). by left.
  - apply (proj1 (proj2 (proj2 (proj2 (tracking_local_host_and_session b))))).
    vm_compute. discriminate.
Defined.

(** * Further properties of the code *)

(** ** NavigationManager: the mobile menu and the scroll handler *)

Section MenuFacts.
Import Dom NavigationManager.

Lemma hasClass_updateNode_same c h f w force :
  is_Some (nodes w !! h) → (∀ e, contains c (f e) = force) →
  hasClass c h (updateNode h f w) = force.
Proof.
  intros [e He] Hf. unfold hasClass, satisfies, updateNode. simpl.
  rewrite list_lookup_alter_eq, He. simpl. apply Hf.
Qed.

Lemma updateNode_valid h f w k :
  is_Some (nodes w !! k) → is_Some (nodes (updateNode h f w) !! k).
Proof.
  intros [e He]. unfold updateNode. simpl. destruct (decide (h = k)) as [-> | Hne].
  - rewrite list_lookup_alter_eq, He. by eexists.
  - rewrite list_lookup_alter_ne by done. by eexists.
Qed.

Lemma contains_classList_toggle_ne c d force e :
  c ≠ d → contains c (classList_toggle d force e) = contains c e.
Proof.
  intros Hne. destruct force; simpl.
  - unfold classList_add. destruct (contains d e); [done|].
    unfold contains. simpl. apply bool_decide_ext. rewrite elem_of_app, list_elem_of_singleton.
    split; [by intros [H | H] | by left].
  - unfold classList_remove, contains. simpl. apply bool_decide_ext.
    rewrite list_elem_of_filter. split; [by intros [_ H] | by split].
Qed.

Lemma hasClass_updateNode c h f w k :
  (∀ e, contains c (f e) = contains c e) →
  hasClass c k (updateNode h f w) = hasClass c k w.
Proof. apply satisfies_updateNode. Qed.

Lemma hasClass_updateNode_ne c h f w k :
  h ≠ k → hasClass c k (updateNode h f w) = hasClass c k w.
Proof.
  intros Hne. unfold hasClass, satisfies, updateNode. simpl.
  by rewrite list_lookup_alter_ne.
Qed.

Lemma contains_setAttribute c n v e : contains c (setAttribute n v e) = contains c e.
Proof. reflexivity. Qed.

Lemma updateNode_attribute link f w k a :
  (∀ e, attributes (f e) = attributes e) →
  nodes (updateNode link f w) !! k ≫= getAttribute a = nodes w !! k ≫= getAttribute a.
Proof.
  intros Hf. unfold updateNode. simpl. destruct (decide (link = k)) as [-> | Hne].
  - rewrite list_lookup_alter_eq. destruct (nodes w !! k); simpl; [|done].
    unfold getAttribute. by rewrite Hf.
  - by rewrite list_lookup_alter_ne.
Qed.

Lemma styleOf_assignStyle p v e : styleOf p (assignStyle p v e) = v.
Proof.
  unfold styleOf, assignStyle. case_bool_decide as Hv; simpl.
  - by rewrite lookup_delete_eq.
  - by rewrite lookup_insert_eq.
Qed.

(** The loop of [setActiveLink] changes the class [active] of links and
    nothing else. *)
Lemma updateLinks_keeps currentSection links : ∀ w r w',
  updateLinks currentSection links w = (r, w') →
  body w' = body w ∧
  (∀ k, is_Some (nodes w !! k) → is_Some (nodes w' !! k)) ∧
  (∀ k a, nodes w' !! k ≫= getAttribute a = nodes w !! k ≫= getAttribute a) ∧
  (∀ c k, c ≠ "active" → hasClass c k w' = hasClass c k w) ∧
  (∀ k, k ∉ links → hasClass "active" k w' = hasClass "active" k w).
Proof.
  induction links as [|link rest IH]; intros w r w' H; simpl in H.
  - injection H as _ <-. done.
  - destruct (nodes w !! link ≫= getAttribute "href") as [href|].
    + destruct (IH _ _ _ H) as (Hb & Hv & Ha & Hc & Hk). clear IH H.
      split; [by rewrite Hb|]. split; [|split; [|split]].
      * intros k Hk'. by apply Hv, updateNode_valid.
      * intros k a. rewrite Ha. apply updateNode_attribute.
        intros e. apply classList_toggle_attributes.
      * intros c k Hne. rewrite Hc by done. apply hasClass_updateNode.
        intros e. by apply contains_classList_toggle_ne.
      * intros k [Hne Hnin]%not_elem_of_cons. rewrite Hk by done.
        by apply hasClass_updateNode_ne.
    + injection H as _ <-. done.
Qed.

Lemma setActiveLink_keeps s :
  (setActiveLink s).2.1 = s.1 ∧
  body (setActiveLink s).2.2 = body s.2 ∧
  (∀ k, is_Some (nodes s.2 !! k) → is_Some (nodes (setActiveLink s).2.2 !! k)) ∧
  (∀ k a, nodes (setActiveLink s).2.2 !! k ≫= getAttribute a
          = nodes s.2 !! k ≫= getAttribute a) ∧
  (∀ c k, c ≠ "active" → hasClass c k (setActiveLink s).2.2 = hasClass c k s.2) ∧
  (∀ k, k ∉ navLinks s.1 →
        hasClass "active" k (setActiveLink s).2.2 = hasClass "active" k s.2).
Proof.
  destruct s as [this w]. unfold setActiveLink.
  destruct (deref "offsetHeight" (navbar this) w) as [e|nav]; [done|].
  destruct (updateLinks _ (navLinks this) w) as [r w'] eqn:Hu.
  destruct (updateLinks_keeps _ _ _ _ _ Hu) as (Hb & Hv & Ha & Hc & Hk). done.
Qed.

(** One toggle, with both elements on the page: it returns, flips the
    state and leaves the page in step with it. *)
Lemma toggleMobileMenu_syncs this w menu toggle :
  navMenu this = Some menu → navToggle this = Some toggle →
  is_Some (nodes w !! menu) → is_Some (nodes w !! toggle) →
  (toggleMobileMenu (this, w)).1 = inr tt ∧
  (toggleMobileMenu (this, w)).2.1 = setMenuOpen (negb (isMenuOpen this)) this ∧
  inSync (toggleMobileMenu (this, w)).2.
Proof.
  intros Hm Ht Hvm Hvt. unfold toggleMobileMenu. cbn [setMenuOpen navMenu navToggle isMenuOpen].
  rewrite Hm, Ht. cbn [fst snd]. split; [done|]. split; [done|].
  set (open := negb (isMenuOpen this)).
  exists menu, toggle. cbn [fst snd navMenu navToggle isMenuOpen].
  split; [done|]. split; [done|]. split.
  { by do 3 apply updateNode_valid. }
  split; [|split; [|split]].
  - rewrite hasClass_updateNode by done.
    change (hasClass "active" menu
              (updateNode toggle (classList_toggle "active" open)
                 (updateNode menu (classList_toggle "active" open) w)) = open).
    destruct (decide (toggle = menu)) as [-> | Hne].
    + apply hasClass_updateNode_same; [by apply updateNode_valid|].
      intros e. apply contains_classList_toggle.
    + rewrite hasClass_updateNode_ne by done.
      apply (hasClass_updateNode_same "active" menu _ w open Hvm).
      intros e. apply contains_classList_toggle.
  - rewrite hasClass_updateNode by done.
    change (hasClass "active" toggle
              (updateNode toggle (classList_toggle "active" open)
                 (updateNode menu (classList_toggle "active" open) w)) = open).
    apply hasClass_updateNode_same; [by apply updateNode_valid|].
    intros e. apply contains_classList_toggle.
  - simpl. apply styleOf_assignStyle.
  - unfold updateNode at 1. simpl. rewrite list_lookup_alter_eq.
    assert (is_Some (nodes (updateNode toggle (classList_toggle "active" open)
                      (updateNode menu (classList_toggle "active" open) w)) !! toggle))
      as [e He] by (by do 2 apply updateNode_valid).
    simpl in He. rewrite He. simpl. unfold getAttribute. simpl. apply lookup_insert_eq.
Qed.

End MenuFacts.

Section MenuInvariant.
Import Dom NavigationManager.

Lemma toggleMobileMenu_fields s :
  navbar (toggleMobileMenu s).2.1 = navbar s.1 ∧
  navToggle (toggleMobileMenu s).2.1 = navToggle s.1 ∧
  navMenu (toggleMobileMenu s).2.1 = navMenu s.1 ∧
  navLinks (toggleMobileMenu s).2.1 = navLinks s.1 ∧
  isMenuOpen (toggleMobileMenu s).2.1 = negb (isMenuOpen s.1).
Proof.
  destruct s as [this w]. unfold toggleMobileMenu. cbn [setMenuOpen navMenu navToggle].
  destruct (navMenu this); [|done]. by destruct (navToggle this).
Qed.

Lemma inSync_valid_toggle s toggle :
  inSync s → navToggle s.1 = Some toggle → is_Some (nodes s.2 !! toggle).
Proof.
  intros (menu & toggle' & _ & Ht & _ & _ & _ & _ & Ha) Ht'.
  rewrite Ht in Ht'. injection Ht' as ->.
  destruct (nodes s.2 !! toggle); [by eexists | done].
Qed.

Lemma inSync_toggle s : inSync s → inSync (toggleMobileMenu s).2.
Proof.
  intros Hs. pose proof Hs as (menu & toggle & Hm & Ht & Hvm & _).
  destruct s as [this w]. cbn [fst snd] in *.
  by apply (toggleMobileMenu_syncs this w menu toggle Hm Ht Hvm),
           (inSync_valid_toggle (this, w)).
Qed.

Lemma step_fields s ev :
  navToggle (step s ev).1 = navToggle s.1 ∧
  navMenu (step s ev).1 = navMenu s.1 ∧
  navLinks (step s ev).1 = navLinks s.1.
Proof.
  destruct ev as [|target|width|y]; cbn [step].
  - destruct (toggleMobileMenu_fields s) as (_ & ? & ? & ? & _). done.
  - destruct s as [this w]. unfold handleOutsideClick.
    destruct (isMenuOpen this); [|done].
    destruct (navMenu this) as [menu|] eqn:Hm; [|done].
    destruct (negb (nodeContains w menu target)); [|done].
    destruct (navToggle this) as [toggle|] eqn:Ht; [|done].
    destruct (negb (nodeContains w toggle target)); [|done].
    destruct (toggleMobileMenu_fields (this, w)) as (_ & H1 & H2 & H3 & _).
    cbn [fst snd] in *. by rewrite H1, H2, H3, Ht, Hm.
  - unfold handleResize. destruct (_ && _); [|done].
    destruct (toggleMobileMenu_fields s) as (_ & ? & ? & ? & _). done.
  - destruct s as [this w]. unfold handleScroll. cbn [fst snd].
    destruct (navbar this) as [nav|]; [|done].
    match goal with |- context [setActiveLink ?x] =>
      destruct (setActiveLink_keeps x) as (H & _); cbn [fst snd] in H; by rewrite H
    end.
Qed.

Lemma step_inSync s ev :
  inSync s →
  (∀ h, navMenu s.1 = Some h ∨ navToggle s.1 = Some h → h ∉ navLinks s.1) →
  inSync (step s ev).
Proof.
  intros Hs Hlinks. destruct ev as [|target|width|y]; cbn [step].
  - by apply inSync_toggle.
  - unfold handleOutsideClick. destruct s as [this w].
    destruct (isMenuOpen this); [|done]. destruct (navMenu this) as [menu|]; [|done].
    destruct (negb (nodeContains w menu target)); [|done].
    destruct (navToggle this) as [toggle|]; [|done].
    destruct (negb (nodeContains w toggle target)); [|done].
    by apply inSync_toggle.
  - unfold handleResize. destruct (_ && _); [|done]. by apply inSync_toggle.
  - destruct s as [this w]. destruct Hs as (menu & toggle & Hm & Ht & Hvm & Hcm & Hct & Ho & Ha).
    cbn [fst snd] in *. unfold handleScroll.
    destruct (navbar this) as [nav|].
    + set (w1 := updateNode nav _ (setScrollY y w)).
      destruct (setActiveLink_keeps (this, w1)) as (Hthis & Hb & Hv & Hattr & _ & Hk).
      cbn [fst snd] in *. exists menu, toggle. rewrite Hthis. cbn [fst snd].
      split; [done|]. split; [done|]. split.
      { apply Hv. subst w1. by apply updateNode_valid. }
      split; [|split; [|split]].
      * rewrite Hk by (apply Hlinks; by left). subst w1.
        rewrite hasClass_updateNode; [done|].
        intros e. by apply contains_classList_toggle_ne.
      * rewrite Hk by (apply Hlinks; by right). subst w1.
        rewrite hasClass_updateNode; [done|].
        intros e. by apply contains_classList_toggle_ne.
      * by rewrite Hb.
      * rewrite Hattr. subst w1. rewrite updateNode_attribute; [done|].
        intros e. apply classList_toggle_attributes.
    + exists menu, toggle. done.
Qed.

End MenuInvariant.

(** X1.  With the menu and the toggle on the page, [toggleMobileMenu()]
    returns normally, flips [isMenuOpen] and brings the page in step with
    it, whatever classes, styles and attributes the page had before: both
    elements carry [active], the body has [overflow: hidden] and
    [aria-expanded] is [true] exactly when the menu is now open. *)
Theorem menu_toggle_syncs_page (this : NavigationManager.t) (w : Dom.World)
    (menu toggle : nat) :
  NavigationManager.navMenu this = Some menu →
  NavigationManager.navToggle this = Some toggle →
  is_Some (Dom.nodes w !! menu) → is_Some (Dom.nodes w !! toggle) →
  let r := NavigationManager.toggleMobileMenu (this, w) in
  r.1 = inr tt ∧
  NavigationManager.isMenuOpen r.2.1 = negb (NavigationManager.isMenuOpen this) ∧
  NavigationManager.inSync r.2.
Proof.
  intros Hm Ht Hvm Hvt r.
  destruct (toggleMobileMenu_syncs this w menu toggle Hm Ht Hvm Hvt) as (H1 & H2 & H3).
  split; [exact H1|]. split; [|exact H3]. subst r. by rewrite H2.
Qed.

Lemma menu_toggle_syncs_page_witness :
  let s0 := (NavigationManager.init (NavigationManager.constructor, Page.loaded)).2 in
  NavigationManager.inSync (NavigationManager.toggleMobileMenu (s0.1, s0.2)).2.
Proof.
  intros s0.
  apply (menu_toggle_syncs_page s0.1 s0.2 3 2).
  - vm_compute. reflexivity.
  - vm_compute. reflexivity.
  - vm_compute. by eexists.
  - vm_compute. by eexists.
Defined.

(** X2.  Once the page mirrors [isMenuOpen], it keeps doing so through
    every sequence of toggle clicks, document clicks, resizes and scrolls,
    provided neither the menu nor the toggle is itself one of the
    navigation links (whose [active] class the scroll handler rewrites). *)
Theorem menu_stays_in_sync (s : NavigationManager.t * Dom.World)
    (evs : list NavigationManager.Event) :
  NavigationManager.inSync s →
  (∀ h, NavigationManager.navMenu s.1 = Some h ∨ NavigationManager.navToggle s.1 = Some h →
        h ∉ NavigationManager.navLinks s.1) →
  NavigationManager.inSync (NavigationManager.run evs s).
Proof.
  revert s. induction evs as [|ev rest IH]; intros s Hs Hlinks; [exact Hs|].
  simpl. apply IH.
  - by apply step_inSync.
  - destruct (step_fields s ev) as (-> & -> & ->). exact Hlinks.
Qed.

Lemma menu_stays_in_sync_witness :
  let s0 := (NavigationManager.init (NavigationManager.constructor, Page.loaded)).2 in
  NavigationManager.inSync
    (NavigationManager.run
       [NavigationManager.Scrolled 600; NavigationManager.Click (Dom.OnNode 11);
        NavigationManager.ToggleClick; NavigationManager.Resized 1024]
       (NavigationManager.toggleMobileMenu (s0.1, s0.2)).2).
Proof.
  intros s0. apply menu_stays_in_sync.
  - apply (toggleMobileMenu_syncs s0.1 s0.2 3 2);
      vm_compute; first [reflexivity | by eexists].
  - intros h Hh.
    assert (NavigationManager.navLinks
              (NavigationManager.toggleMobileMenu (s0.1, s0.2)).2.1 = [4; 5; 6]) as ->
      by (vm_compute; reflexivity).
    assert (NavigationManager.navMenu
              (NavigationManager.toggleMobileMenu (s0.1, s0.2)).2.1 = Some 3) as Hm
      by (vm_compute; reflexivity).
    assert (NavigationManager.navToggle
              (NavigationManager.toggleMobileMenu (s0.1, s0.2)).2.1 = Some 2) as Ht
      by (vm_compute; reflexivity).
    rewrite Hm, Ht in Hh. intros Hin.
    destruct Hh as [[= <-] | [= <-]];
      repeat (apply elem_of_cons in Hin as [Hin | Hin]; [discriminate Hin|]);
      by apply elem_of_nil in Hin.
Defined.

(** X3.  The two handlers that close the menu, each run on its own, with
    the menu and the toggle cached.  After [handleResize()] the menu is
    open exactly when it was open and the window is at most 768 pixels
    wide.  After [handleOutsideClick(event)], the document's click
    listener, it is open exactly when it was open and [event.target] is the
    menu, the toggle or an element inside one of them.  While the menu is
    closed neither handler changes the component or the page.  (This is
    about the handlers, not about whole clicks: a click on the toggle or on
    a navigation link runs that element's own listener first, which may
    open or close the menu before the document's listener sees it.) *)
Theorem menu_closes_on_resize_and_outside_click (s : NavigationManager.t * Dom.World)
    (menu toggle : nat) :
  NavigationManager.navMenu s.1 = Some menu →
  NavigationManager.navToggle s.1 = Some toggle →
  (∀ innerWidth,
     NavigationManager.isMenuOpen
       (NavigationManager.step s (NavigationManager.Resized innerWidth)).1
     = NavigationManager.isMenuOpen s.1 && bool_decide (innerWidth ≤ 768)%Z) ∧
  (∀ target,
     NavigationManager.isMenuOpen
       (NavigationManager.step s (NavigationManager.Click target)).1
     = NavigationManager.isMenuOpen s.1
       && (Dom.nodeContains s.2 menu target || Dom.nodeContains s.2 toggle target)) ∧
  (NavigationManager.isMenuOpen s.1 = false →
     (∀ innerWidth,
        NavigationManager.handleResize innerWidth s = (inr tt, s)) ∧
     (∀ target,
        NavigationManager.handleOutsideClick target s = (inr tt, s))).
Proof.
  intros Hm Ht. destruct s as [this w]. cbn [fst snd] in *. split; [|split].
  - intros innerWidth. cbn [NavigationManager.step]. unfold NavigationManager.handleResize.
    cbn [fst snd]. rewrite Z.gtb_ltb.
    destruct (toggleMobileMenu_fields (this, w)) as (_ & _ & _ & _ & H).
    cbn [fst snd] in H.
    destruct (768 <? innerWidth)%Z eqn:Hw.
    + apply Z.ltb_lt in Hw. rewrite bool_decide_eq_false_2 by lia.
      rewrite andb_false_r.
      destruct (NavigationManager.isMenuOpen this) eqn:Ho; cbn [andb fst snd].
      * by rewrite H.
      * exact Ho.
    + apply Z.ltb_ge in Hw. rewrite bool_decide_eq_true_2 by lia.
      cbn [andb fst snd]. by rewrite andb_true_r.
  - intros target. cbn [NavigationManager.step]. unfold NavigationManager.handleOutsideClick.
    destruct (toggleMobileMenu_fields (this, w)) as (_ & _ & _ & _ & H).
    cbn [fst snd] in H.
    destruct (NavigationManager.isMenuOpen this) eqn:Ho; [|exact Ho].
    rewrite Hm, Ht.
    destruct (Dom.nodeContains w menu target); cbn [negb orb andb fst snd]; [exact Ho|].
    destruct (Dom.nodeContains w toggle target); cbn [negb orb andb fst snd]; [exact Ho|].
    by rewrite H.
  - intros Ho. split.
    + intros innerWidth. unfold NavigationManager.handleResize. cbn [fst snd].
      by rewrite Ho, andb_false_r.
    + intros target. unfold NavigationManager.handleOutsideClick. by rewrite Ho.
Qed.

Lemma menu_closes_on_resize_and_outside_click_witness :
  NavigationManager.isMenuOpen
    (NavigationManager.step (Page.navigation true, Page.loaded)
       (NavigationManager.Resized 1024)).1 = false ∧
  NavigationManager.isMenuOpen
    (NavigationManager.handleOutsideClick Dom.OnBody
       (Page.navigation true, Page.loaded)).2.1 = false ∧
  NavigationManager.isMenuOpen
    (NavigationManager.handleOutsideClick (Dom.OnNode 3)
       (Page.navigation true, Page.loaded)).2.1 = true.
Proof.
  destruct (menu_closes_on_resize_and_outside_click
              (Page.navigation true, Page.loaded) 3 2) as (Hr & Hc & _).
  - reflexivity.
  - reflexivity.
  - split; [apply (Hr 1024%Z) | split; [apply (Hc Dom.OnBody) | apply (Hc (Dom.OnNode 3))]].
Defined.

(** X4.  After [handleScroll()] the navbar carries the class [scrolled]
    exactly when the page is scrolled further than the threshold (50 for a
    constructed component): at the threshold itself the class is absent.
    This holds even when the update of the active link that follows
    throws. *)
Theorem navbar_scrolled_past_threshold (this : NavigationManager.t) (w : Dom.World)
    (nav : nat) :
  NavigationManager.navbar this = Some nav →
  is_Some (Dom.nodes w !! nav) →
  Dom.hasClass "scrolled" nav (NavigationManager.handleScroll (this, w)).2.2
  = bool_decide (NavigationManager.scrollThreshold this < Dom.scrollY w)%Z.
Proof.
  intros Hn Hv. unfold NavigationManager.handleScroll. rewrite Hn.
  match goal with |- context [NavigationManager.setActiveLink ?x] =>
    destruct (setActiveLink_keeps x) as (_ & _ & _ & _ & Hc & _)
  end.
  rewrite Hc by done. cbn [fst snd].
  rewrite (hasClass_updateNode_same "scrolled" nav _ w
             (Dom.scrollY w >? NavigationManager.scrollThreshold this)%Z Hv).
  - rewrite Z.gtb_ltb. destruct (_ <? _)%Z eqn:H.
    + apply Z.ltb_lt in H. by rewrite bool_decide_eq_true_2.
    + apply Z.ltb_ge in H. rewrite bool_decide_eq_false_2; [done|lia].
  - intros e. apply contains_classList_toggle.
Qed.

Lemma navbar_scrolled_past_threshold_witness :
  Dom.hasClass "scrolled" 1
    (NavigationManager.handleScroll
       (Page.navigation false, Dom.setScrollY 50 Page.loaded)).2.2 = false ∧
  Dom.hasClass "scrolled" 1
    (NavigationManager.handleScroll
       (Page.navigation false, Dom.setScrollY 51 Page.loaded)).2.2 = true.
Proof.
  split.
  - apply (navbar_scrolled_past_threshold
             (Page.navigation false) (Dom.setScrollY 50 Page.loaded) 1).
    + reflexivity.
    + vm_compute. by eexists.
  - apply (navbar_scrolled_past_threshold
             (Page.navigation false) (Dom.setScrollY 51 Page.loaded) 1).
    + reflexivity.
    + vm_compute. by eexists.
Defined.

(** ** ScrollManager: the scroll-to-top button *)

(** X5.  [ScrollManager.init()] always returns, and the button it appends
    is hidden ([opacity] 0, [visibility] hidden).  A scroll handled
    afterwards shows it ([opacity] 1, [visibility] visible) exactly when
    the page is scrolled further than the threshold (300 for a constructed
    component), and hides it again otherwise, so at the threshold itself
    the button is hidden. *)
Theorem scroll_button_visibility (c : ScrollManager.t) (w : Dom.World) (y : Z) :
  let s1 := ScrollManager.init (c, w) in
  let button := length (Dom.nodes w) in
  let s2 := ScrollManager.handleScroll (s1.2.1, Dom.setScrollY y s1.2.2) in
  s1.1 = inr tt ∧
  ScrollManager.scrollToTopButton s1.2.1 = Some button ∧
  ScrollManager.styleAt "opacity" button s1.2.2 = Some "0" ∧
  ScrollManager.styleAt "visibility" button s1.2.2 = Some "hidden" ∧
  s2.1 = inr tt ∧
  ScrollManager.styleAt "opacity" button s2.2.2
    = Some (if bool_decide (ScrollManager.scrollThreshold c < y)%Z then "1" else "0") ∧
  ScrollManager.styleAt "visibility" button s2.2.2
    = Some (if bool_decide (ScrollManager.scrollThreshold c < y)%Z
            then "visible" else "hidden").
Proof.
  intros s1 button s2. subst s1 s2 button.
  destruct c as [b threshold].
  unfold ScrollManager.init, Js.bind, Js.modify, ScrollManager.createScrollToTopButton,
    ScrollManager.bindEvents, ScrollManager.handleScroll.
  cbn [fst snd ScrollManager.scrollToTopButton ScrollManager.scrollThreshold].
  unfold ScrollManager.styleAt, Dom.updateNode, Dom.addEventListener.
  cbn [Dom.nodes Dom.setNodes Dom.setListeners Dom.setScrollY Dom.scrollY fst snd].
  rewrite !list_lookup_alter_eq.
  rewrite (lookup_app_r (Dom.nodes w)) by lia. rewrite Nat.sub_diag. cbn [lookup list_lookup fmap option_fmap option_map].
  split; [done|]. split; [done|]. split; [by vm_compute|]. split; [by vm_compute|].
  split; [done|].
  rewrite Z.gtb_ltb.
  destruct (threshold <? y)%Z eqn:H.
  - apply Z.ltb_lt in H. rewrite !bool_decide_eq_true_2 by done. by vm_compute.
  - apply Z.ltb_ge in H. rewrite !bool_decide_eq_false_2 by lia. by vm_compute.
Qed.

(** ** The debounce wrappers *)

Section DebounceFacts.
Import Debounce.
Context {A S : Type}.
Variable func : A → Js.Eff S unit.
Variable wait : Z.

Lemma clearTimeout_armed (l : Loop A S) :
  armed_or_idle l → clearTimeout (timeout l) (pending l) = [].
Proof.
  intros [Hp | (t & Hp & Ht)]; rewrite Hp.
  - unfold clearTimeout. by destruct (timeout l).
  - rewrite Ht. simpl. by rewrite filter_cons_False, filter_nil by (by intros H).
Qed.

Lemma reschedule_armed a (l : Loop A S) :
  armed_or_idle l →
  pending (reschedule wait a l) = [mkPending (nextId l) (now l + Z.max 0 wait)%Z a]
  ∧ timeout (reschedule wait a l) = Some (nextId l)
  ∧ applied (reschedule wait a l) = applied l
  ∧ now (reschedule wait a l) = now l.
Proof. intros H. unfold reschedule. simpl. by rewrite clearTimeout_armed. Qed.

Lemma applyFunc_fields a (l : Loop A S) :
  now (applyFunc func a l).2 = now l ∧
  timeout (applyFunc func a l).2 = timeout l ∧
  pending (applyFunc func a l).2 = pending l ∧
  nextId (applyFunc func a l).2 = nextId l ∧
  applied (applyFunc func a l).2 = applied l ++ [(now l, a)].
Proof. unfold applyFunc. by destruct (func a (context l)). Qed.

Lemma app_fire_due (l : Loop A S) p rest :
  pending l = p :: rest → (due p ≤ now l)%Z →
  fire (app_later func) l
  = (applyFunc func (args p)
       (mkLoop (now l) (timeout l) (clearTimeout (timeout l) rest)
               (nextId l) (applied l) (context l))).2.
Proof.
  intros Hp Hd. unfold fire. rewrite Hp. by rewrite (proj2 (Z.leb_le _ _) Hd).
Qed.

Lemma app_fire_early (l : Loop A S) p rest :
  pending l = p :: rest → (now l < due p)%Z → fire (app_later func) l = l.
Proof.
  intros Hp Hd. unfold fire. rewrite Hp. by rewrite (proj2 (Z.leb_gt _ _) Hd).
Qed.

Lemma clearTimeout_nil (h : option nat) : clearTimeout (A:=A) h [] = [].
Proof. by destruct h. Qed.

Lemma app_step_armed (l : Loop A S) tick :
  armed_or_idle l → armed_or_idle (step (app_call wait) (app_later func) l tick).
Proof.
  intros H. destruct tick as [a|ms|]; cbn [step].
  - unfold app_call. cbn [snd]. right.
    destruct (reschedule_armed a l H) as (Hp & Ht & _). eexists. by rewrite Hp, Ht.
  - exact H.
  - destruct H as [Hp | (t & Hp & Ht)].
    + left. unfold fire. by rewrite Hp.
    + destruct (Z.le_gt_cases (due t) (now l)) as [Hd | Hd].
      * left. rewrite (app_fire_due l t [] Hp Hd).
        destruct (applyFunc_fields (args t)
                    (mkLoop (now l) (timeout l) (clearTimeout (timeout l) [])
                            (nextId l) (applied l) (context l))) as (_ & _ & -> & _).
        simpl. apply clearTimeout_nil.
      * right. rewrite (app_fire_early l t [] Hp Hd). by exists t.
Qed.

Lemma app_run_armed ticks : ∀ l : Loop A S,
  armed_or_idle l → armed_or_idle (app_run func wait ticks l).
Proof.
  induction ticks as [|tick rest IH]; intros l H; [exact H|].
  simpl. apply IH. by apply app_step_armed.
Qed.

(** With no timer pending and no call made, nothing is applied. *)
Lemma app_quiet_idle ticks : ∀ l : Loop A S,
  quiet ticks → pending l = [] →
  applied (app_run func wait ticks l) = applied l
  ∧ pending (app_run func wait ticks l) = [].
Proof.
  induction ticks as [|tick rest IH]; intros l Hq Hp; [done|].
  apply Forall_cons in Hq as [Ht Hq]. destruct tick as [a|ms|]; [done| |]; simpl.
  - set (l' := mkLoop _ _ _ _ _ _). by destruct (IH l' Hq Hp) as [-> ->].
  - unfold fire. rewrite Hp. by apply IH.
Qed.

(** With one timer pending and no call made, the handler is applied at
    most once: with the arguments that timer holds and not before it is
    due. *)
Lemma app_quiet_armed ticks : ∀ (l : Loop A S) p,
  quiet ticks → pending l = [p] →
  let l' := app_run func wait ticks l in
  (applied l' = applied l ∧ pending l' = [p]) ∨
  (∃ t, applied l' = applied l ++ [(t, args p)] ∧ (due p ≤ t)%Z ∧ pending l' = []).
Proof.
  induction ticks as [|tick rest IH]; intros l p Hq Hp; [by left|].
  apply Forall_cons in Hq as [Ht Hq]. destruct tick as [a|ms|]; [done| |]; simpl.
  - set (l' := mkLoop _ _ _ _ _ _). apply (IH l' p Hq Hp).
  - destruct (Z.le_gt_cases (due p) (now l)) as [Hd | Hd].
    + right. rewrite (app_fire_due l p [] Hp Hd).
      set (l0 := mkLoop (now l) (timeout l) (clearTimeout (timeout l) [])
                        (nextId l) (applied l) (context l)).
      destruct (applyFunc_fields (args p) l0) as (_ & _ & Hp1 & _ & Ha1).
      assert (pending (applyFunc func (args p) l0).2 = []) as Hidle.
      { rewrite Hp1. subst l0. simpl. apply clearTimeout_nil. }
      destruct (app_quiet_idle rest _ Hq Hidle) as [Ha Hpe].
      exists (now l). rewrite Ha, Ha1. done.
    + rewrite (app_fire_early l p [] Hp Hd). by apply (IH _ p).
Qed.

End DebounceFacts.

(** X6.  [PortfolioApp.debounce(func, wait)], for every handler (throwing
    or not), every wait and every history of calls, timer runs and
    passages of time: at most one timer is pending; a call applies nothing
    itself; after a call with arguments [a], as long as no further call is
    made, the handler is applied at most once, with [a] (the calls before
    it are dropped), and not before [wait] milliseconds have passed; and
    once they have passed the next timer run applies it. *)
Theorem debounce_applies_last_call_once {A S : Type} (func : A → Js.Eff S unit)
    (wait : Z) (history : list (Debounce.Tick A)) (t0 : Z) (c0 : S) (a : A) :
  let l := Debounce.app_run func wait history (Debounce.fresh t0 c0) in
  let l1 := Debounce.app_run func wait [Debounce.Call a] l in
  length (Debounce.pending l) ≤ 1 ∧
  Debounce.applied l1 = Debounce.applied l ∧
  (∀ ticks, Debounce.quiet ticks →
     let l2 := Debounce.app_run func wait ticks l1 in
     Debounce.applied l2 = Debounce.applied l ∨
     ∃ t, Debounce.applied l2 = Debounce.applied l ++ [(t, a)]
          ∧ (Debounce.now l1 + wait ≤ t)%Z) ∧
  (∀ d : N, (wait ≤ Z.of_N d)%Z →
     Debounce.applied
       (Debounce.app_run func wait [Debounce.Elapse d; Debounce.Timer] l1)
     = Debounce.applied l ++ [((Debounce.now l1 + Z.of_N d)%Z, a)]).
Proof.
  intros l l1.
  change (Debounce.app_run func wait [Debounce.Call a] l)
    with (Debounce.reschedule wait a l) in l1.
  assert (Debounce.armed_or_idle l) as Hl.
  { apply app_run_armed. by left. }
  destruct (reschedule_armed wait a l Hl) as (Hp & Ht & Ha & Hn).
  split; [|split; [|split]].
  - destruct Hl as [-> | (t & -> & _)]; simpl; lia.
  - exact Ha.
  - intros ticks Hq l2.
    destruct (app_quiet_armed func wait ticks l1 _ Hq Hp) as [[H _] | (t & H & Hd & _)].
    + left. subst l2. rewrite H. exact Ha.
    + right. exists t. subst l2. rewrite H. subst l1. split; [by rewrite Ha|].
      simpl in Hd. simpl. lia.
  - intros d Hd. unfold Debounce.app_run. cbn [foldl Debounce.step].
    set (l2 := Debounce.mkLoop (Debounce.now l1 + Z.of_N d)%Z (Debounce.timeout l1)
                 (Debounce.pending l1) (Debounce.nextId l1) (Debounce.applied l1)
                 (Debounce.context l1)).
    rewrite (app_fire_due func l2 _ [] Hp) by (subst l2; simpl; lia).
    rewrite (proj2 (proj2 (proj2 (proj2 (applyFunc_fields func a _))))).
    reflexivity.
Qed.

Section DebounceImmediate.
Import Debounce.
Context {A S : Type}.
Variable func : A → Js.Eff S unit.
Variable wait : Z.

Lemma armed_or_null_idle (l : Loop A S) : armed_or_null l → armed_or_idle l.
Proof. intros [[H _] | H]; [by left | by right]. Qed.

Lemma utils_call_fields immediate a (l : Loop A S) :
  armed_or_idle l →
  let l' := (utils_call func wait immediate a l).2 in
  pending l' = [mkPending (nextId l) (now l + Z.max 0 wait)%Z a] ∧
  timeout l' = Some (nextId l) ∧
  now l' = now l ∧
  nextId l' = Datatypes.S (nextId l) ∧
  applied l'
  = if immediate && negb (bool_decide (is_Some (timeout l)))
    then applied l ++ [(now l, a)] else applied l.
Proof.
  intros H l'. subst l'. unfold utils_call.
  destruct (reschedule_armed wait a l H) as (Hp & Ht & Ha & Hn).
  destruct (immediate && _).
  - destruct (applyFunc_fields func a (reschedule wait a l)) as (-> & -> & -> & -> & ->).
    by rewrite Hp, Ht, Ha, Hn.
  - cbn [snd]. by rewrite Hp, Ht, Ha, Hn.
Qed.

Lemma utils_fire_due immediate (l : Loop A S) p rest :
  pending l = p :: rest → (due p ≤ now l)%Z →
  fire (utils_later func immediate) l
  = (utils_later func immediate (args p)
       (mkLoop (now l) (timeout l) rest (nextId l) (applied l) (context l))).2.
Proof.
  intros Hp Hd. unfold fire. rewrite Hp. by rewrite (proj2 (Z.leb_le _ _) Hd).
Qed.

Lemma utils_fire_early immediate (l : Loop A S) p rest :
  pending l = p :: rest → (now l < due p)%Z →
  fire (utils_later func immediate) l = l.
Proof.
  intros Hp Hd. unfold fire. rewrite Hp. by rewrite (proj2 (Z.leb_gt _ _) Hd).
Qed.

Lemma utils_later_fields immediate a (l : Loop A S) :
  let l' := (utils_later func immediate a l).2 in
  pending l' = pending l ∧ timeout l' = None ∧ now l' = now l ∧
  nextId l' = nextId l ∧
  applied l' = if immediate then applied l else applied l ++ [(now l, a)].
Proof.
  intros l'. subst l'. unfold utils_later. destruct immediate; cbn [negb snd]; [done|].
  by destruct (applyFunc_fields func a
                 (mkLoop (now l) None (pending l) (nextId l) (applied l) (context l)))
    as (-> & -> & -> & -> & ->).
Qed.

Lemma utils_step_armed immediate (l : Loop A S) tick :
  armed_or_null l →
  armed_or_null (step (utils_call func wait immediate) (utils_later func immediate) l tick).
Proof.
  intros H. destruct tick as [a|ms|]; cbn [step].
  - right. destruct (utils_call_fields immediate a l (armed_or_null_idle l H))
      as (Hp & Ht & _).
    eexists. by rewrite Hp, Ht.
  - exact H.
  - destruct H as [[Hp Ht] | (t & Hp & Ht)].
    + left. unfold fire. by rewrite Hp.
    + destruct (Z.le_gt_cases (due t) (now l)) as [Hd | Hd].
      * left. rewrite (utils_fire_due immediate l t [] Hp Hd).
        by destruct (utils_later_fields immediate (args t)
                       (mkLoop (now l) (timeout l) [] (nextId l) (applied l) (context l)))
          as (-> & -> & _).
      * right. rewrite (utils_fire_early immediate l t [] Hp Hd). by exists t.
Qed.

Lemma utils_run_armed immediate ticks : ∀ l : Loop A S,
  armed_or_null l → armed_or_null (utils_run func wait immediate ticks l).
Proof.
  induction ticks as [|tick rest IH]; intros l H; [exact H|].
  simpl. apply IH. by apply utils_step_armed.
Qed.

(** In immediate mode timers and the passing of time apply nothing. *)
Lemma utils_immediate_quiet ticks : ∀ l : Loop A S,
  quiet ticks → applied (utils_run func wait true ticks l) = applied l.
Proof.
  induction ticks as [|tick rest IH]; intros l Hq; [done|].
  apply Forall_cons in Hq as [Ht Hq]. destruct tick as [a|ms|]; [done| |]; simpl.
  - set (l' := mkLoop _ _ _ _ _ _). by rewrite (IH l' Hq).
  - rewrite (IH _ Hq). unfold fire. destruct (pending l) as [|p rest']; [done|].
    destruct (due p <=? now l)%Z; [|done].
    by destruct (utils_later_fields true (args p)
                   (mkLoop (now l) (timeout l) rest' (nextId l) (applied l) (context l)))
      as (_ & _ & _ & _ & ->).
Qed.

(** The two wrappers, step by step. *)
Lemma alike_step (la lu : Loop A S) tick :
  alike la lu →
  alike (step (app_call wait) (app_later func) la tick)
        (step (utils_call func wait false) (utils_later func false) lu tick).
Proof.
  intros (Hn & Hp & Hi & Ha & Hc & Ht). destruct tick as [a|ms|]; cbn [step].
  - unfold app_call, utils_call, reschedule. cbn [andb snd].
    assert (clearTimeout (timeout la) (pending la) = []
            ∧ clearTimeout (timeout lu) (pending lu) = []) as [-> ->].
    { rewrite <- Hp. destruct Ht as [H0 | (t & H1 & H2 & H3)].
      - rewrite H0. by rewrite !clearTimeout_nil.
      - rewrite H1, H2, H3. simpl.
        by rewrite filter_cons_False, filter_nil by (by intros H). }
    rewrite Hn, Hi, Ha, Hc. repeat split. right. eexists. simpl. done.
  - repeat split; simpl; try done. by rewrite Hn.
  - unfold fire. rewrite <- Hp, <- Hn.
    destruct Ht as [H0 | (t & H1 & H2 & H3)].
    + rewrite H0. repeat split; try done. by left.
    + rewrite H1. destruct (due t <=? now la)%Z; [|repeat split; try done; right; by exists t].
      unfold app_later, utils_later, applyFunc. cbn [negb]. simpl.
      rewrite clearTimeout_nil, <- Hc, <- Ha.
      destruct (func (args t) (context la)) as [r c]. simpl.
      repeat split; try done. by left.
Qed.

Lemma alike_run ticks : ∀ la lu : Loop A S,
  alike la lu → alike (app_run func wait ticks la) (utils_run func wait false ticks lu).
Proof.
  induction ticks as [|tick rest IH]; intros la lu H; [exact H|].
  simpl. apply IH. by apply alike_step.
Qed.

End DebounceImmediate.

(** X7.  [Utils.debounce(func, wait, true)], for every handler, wait and
    history: [timeout] is null exactly when no timer is pending; a call
    applies the handler at once when [timeout] is null and applies nothing
    otherwise; timer runs and the passing of time never apply it; and once
    [wait] milliseconds have passed after a call and its timer has run,
    [timeout] is null again, so the next call applies at once. *)
Theorem debounce_immediate_leading_edge {A S : Type} (func : A → Js.Eff S unit)
    (wait : Z) (history : list (Debounce.Tick A)) (t0 : Z) (c0 : S) :
  let l := Debounce.utils_run func wait true history (Debounce.fresh t0 c0) in
  (Debounce.timeout l = None ↔ Debounce.pending l = []) ∧
  (∀ a, Debounce.applied (Debounce.utils_run func wait true [Debounce.Call a] l)
        = match Debounce.timeout l with
          | None => Debounce.applied l ++ [(Debounce.now l, a)]
          | Some _ => Debounce.applied l
          end) ∧
  (∀ ticks, Debounce.quiet ticks →
     Debounce.applied (Debounce.utils_run func wait true ticks l) = Debounce.applied l) ∧
  (∀ a (d : N), (wait ≤ Z.of_N d)%Z →
     Debounce.timeout
       (Debounce.utils_run func wait true
          [Debounce.Call a; Debounce.Elapse d; Debounce.Timer] l) = None).
Proof.
  intros l.
  assert (Debounce.armed_or_null l) as Hl.
  { apply utils_run_armed. by left. }
  split; [|split; [|split]].
  - destruct Hl as [[Hp Ht] | (t & Hp & Ht)]; rewrite Hp, Ht; done.
  - intros a. unfold Debounce.utils_run. cbn [foldl Debounce.step].
    destruct (utils_call_fields func wait true a l (armed_or_null_idle l Hl))
      as (_ & _ & _ & _ & ->).
    by destruct (Debounce.timeout l).
  - intros ticks Hq. by apply utils_immediate_quiet.
  - intros a d Hd. unfold Debounce.utils_run. cbn [foldl Debounce.step].
    destruct (utils_call_fields func wait true a l (armed_or_null_idle l Hl))
      as (Hp & Ht & Hn & _).
    set (l1 := (Debounce.utils_call func wait true a l).2) in *.
    set (l2 := Debounce.mkLoop (Debounce.now l1 + Z.of_N d)%Z (Debounce.timeout l1)
                 (Debounce.pending l1) (Debounce.nextId l1) (Debounce.applied l1)
                 (Debounce.context l1)).
    rewrite (utils_fire_due func true l2 _ [] Hp) by (subst l2; simpl; lia).
    match goal with |- context [Debounce.utils_later func true ?x ?y] =>
      by destruct (utils_later_fields func true x y) as (_ & -> & _)
    end.
Qed.

(** X8.  In trailing mode the two copies of debounce cannot be told apart:
    for every handler, wait and sequence of calls, timer runs and passages
    of time, [PortfolioApp.debounce(func, wait)] and
    [Utils.debounce(func, wait, false)] apply the handler at the same times
    with the same arguments, leave it in the same state and hold the same
    pending timer. *)
Theorem debounce_copies_agree {A S : Type} (func : A → Js.Eff S unit)
    (wait : Z) (ticks : list (Debounce.Tick A)) (t0 : Z) (c0 : S) :
  let la := Debounce.app_run func wait ticks (Debounce.fresh t0 c0) in
  let lu := Debounce.utils_run func wait false ticks (Debounce.fresh t0 c0) in
  Debounce.applied la = Debounce.applied lu ∧
  Debounce.context la = Debounce.context lu ∧
  Debounce.pending la = Debounce.pending lu ∧
  Debounce.now la = Debounce.now lu.
Proof.
  intros la lu.
  destruct (alike_run func wait ticks (Debounce.fresh t0 c0) (Debounce.fresh t0 c0))
    as (Hn & Hp & _ & Ha & Hc & _).
  - repeat split. by left.
  - done.
Qed.

(** ** Utils.isValidEmail *)

Section RegexFacts.
Import Utils.

Lemma nullable_spec r : nullable r = true ↔ Matches r [].
Proof.
  split.
  - induction r as [| |p|r1 IH1 r2 IH2|r1 IH1 r2 IH2|r IH]; simpl; intros H; try done.
    + constructor.
    + apply andb_true_iff in H as [H1 H2].
      change (@nil N) with (@nil N ++ []). constructor; auto.
    + apply orb_true_iff in H as [H | H]; [apply MAltL | apply MAltR]; auto.
    + constructor.
  - intros H. remember [] as s eqn:Hs.
    induction H as [|p c Hp|r1 r2 s1 s2 H1 IH1 H2 IH2|r1 r2 s H IH|r1 r2 s H IH| |
                    r s1 s2 H1 IH1 H2 IH2]; simpl; try done.
    + apply app_eq_nil in Hs as [-> ->]. by rewrite IH1, IH2.
    + by rewrite IH.
    + rewrite IH by done. apply orb_true_r.
Qed.

Lemma deriv_sound c r : ∀ s, Matches (deriv c r) s → Matches r (c :: s).
Proof.
  induction r as [| |p|r1 IH1 r2 IH2|r1 IH1 r2 IH2|r IH]; simpl; intros s H.
  - inversion H.
  - inversion H.
  - destruct (p c) eqn:Hp; inversion H; subst. by constructor.
  - destruct (nullable r1) eqn:Hn.
    + inversion H as [| | | ? ? ? H' | ? ? ? H' | |]; subst.
      * inversion H' as [| | ? ? s1 s2 Ha Hb | | | |]; subst.
        change (c :: s1 ++ s2) with ((c :: s1) ++ s2). constructor; auto.
      * change (c :: s) with ([] ++ c :: s). constructor; [|auto].
        by apply nullable_spec.
    + inversion H as [| | ? ? s1 s2 Ha Hb | | | |]; subst.
      change (c :: s1 ++ s2) with ((c :: s1) ++ s2). constructor; auto.
  - inversion H; subst; [apply MAltL | apply MAltR]; auto.
  - inversion H as [| | ? ? s1 s2 Ha Hb | | | |]; subst.
    change (c :: s1 ++ s2) with ((c :: s1) ++ s2). constructor; auto.
Qed.

Lemma deriv_complete c r cs : Matches r cs → ∀ s, cs = c :: s → Matches (deriv c r) s.
Proof.
  intros H.
  induction H as [|p c0 Hp|r1 r2 s1 s2 H1 IH1 H2 IH2|r1 r2 s0 H IH|r1 r2 s0 H IH| |
                  r s1 s2 H1 IH1 H2 IH2]; intros s Hs; simpl.
  - done.
  - injection Hs as -> <-. rewrite Hp. constructor.
  - destruct s1 as [|c1 s1'].
    + simpl in Hs. subst s2. rewrite (proj2 (nullable_spec r1) H1).
      apply MAltR. by apply IH2.
    + injection Hs as -> <-.
      destruct (nullable r1); [apply MAltL|]; constructor; auto.
  - apply MAltL. by apply IH.
  - apply MAltR. by apply IH.
  - done.
  - destruct s1 as [|c1 s1'].
    + simpl in Hs. by apply IH2.
    + injection Hs as -> <-. constructor; auto.
Qed.

(** The matcher decides membership in the pattern. *)
Lemma test_spec s : ∀ r, test r s = true ↔ Matches r s.
Proof.
  unfold test. induction s as [|c s IH]; intros r; simpl.
  - apply nullable_spec.
  - rewrite IH. split; [apply deriv_sound | intros H; by eapply deriv_complete].
Qed.

Lemma star_set_spec p s :
  Matches (ReStar (ReSet p)) s ↔ Forall (λ c, p c = true) s.
Proof.
  split.
  - intros H. remember (ReStar (ReSet p)) as r eqn:Hr.
    induction H as [| | | | | |r s1 s2 H1 _ H2 IH2]; try done.
    injection Hr as ->. inversion H1; subst. constructor; auto.
  - induction 1 as [|c s' Hc _ IH]; [constructor|].
    change (c :: s') with ([c] ++ s'). constructor; [by constructor | done].
Qed.

Lemma plus_set_spec p s :
  Matches (RePlus (ReSet p)) s ↔ s ≠ [] ∧ Forall (λ c, p c = true) s.
Proof.
  unfold RePlus. split.
  - intros H. inversion H as [| | ? ? s1 s2 Ha Hb | | | |]; subst.
    inversion Ha; subst. split; [done|]. constructor; [done|]. by apply star_set_spec.
  - intros [Hne H]. destruct s as [|c s']; [done|].
    apply Forall_cons in H as [Hc H].
    change (c :: s') with ([c] ++ s'). constructor; [by constructor|].
    by apply star_set_spec.
Qed.

Lemma literal_spec c s : Matches (literal c) s ↔ s = [c].
Proof.
  unfold literal. split.
  - intros H. inversion H as [|? ? Hp| | | | |]; subst. by apply N.eqb_eq in Hp as ->.
  - intros ->. constructor. apply N.eqb_refl.
Qed.

End RegexFacts.

(** X9.  [Utils.isValidEmail(email)] is true exactly when [email] reads
    [local@domain.rest] with each of the three parts non-empty and free of
    white space and of [@] (a part may hold further full stops).  So a
    string it accepts has exactly one [@] and no white space, and one it
    rejects cannot be cut that way. *)
Theorem isValidEmail_shape (email : list N) :
  (Utils.isValidEmail email = true ↔
   ∃ loc dom rest,
     email = loc ++ [Utils.atSign] ++ dom ++ [Utils.fullStop] ++ rest ∧
     loc ≠ [] ∧ dom ≠ [] ∧ rest ≠ [] ∧
     Forall (λ c, Utils.notSpaceNorAt c = true) (loc ++ dom ++ rest)) ∧
  (Utils.isValidEmail email = true →
     length (filter (λ c, c = Utils.atSign) email) = 1 ∧
     Forall (λ c, Utils.isSpace c = false) email).
Proof.
  assert (Utils.isValidEmail email = true ↔
          ∃ loc dom rest,
            email = loc ++ [Utils.atSign] ++ dom ++ [Utils.fullStop] ++ rest ∧
            loc ≠ [] ∧ dom ≠ [] ∧ rest ≠ [] ∧
            Forall (λ c, Utils.notSpaceNorAt c = true) (loc ++ dom ++ rest)) as Hshape.
  { unfold Utils.isValidEmail. rewrite test_spec. unfold Utils.emailRegex. split.
    - intros H.
      inversion H as [| | ? ? loc s1 Hloc H1 | | | |]; subst.
      inversion H1 as [| | ? ? at' s2 Hat H2 | | | |]; subst.
      inversion H2 as [| | ? ? dom s3 Hdom H3 | | | |]; subst.
      inversion H3 as [| | ? ? dot rest Hdot Hrest | | | |]; subst.
      apply literal_spec in Hat as ->. apply literal_spec in Hdot as ->.
      apply plus_set_spec in Hloc as [? ?]. apply plus_set_spec in Hdom as [? ?].
      apply plus_set_spec in Hrest as [? ?].
      exists loc, dom, rest. repeat split; try done.
      by rewrite !Forall_app.
    - intros (loc & dom & rest & -> & Hl & Hd & Hr & Hall).
      rewrite !Forall_app in Hall. destruct Hall as (Hfl & Hfd & Hfr).
      repeat constructor; try (by apply plus_set_spec); by apply literal_spec. }
  split; [exact Hshape|].
  intros (loc & dom & rest & -> & _ & _ & _ & Hall)%Hshape.
  rewrite !Forall_app in Hall. destruct Hall as (Hfl & Hfd & Hfr).
  assert (∀ s, Forall (λ c, Utils.notSpaceNorAt c = true) s →
               filter (λ c, c = Utils.atSign) s = []
               ∧ Forall (λ c, Utils.isSpace c = false) s) as Hpart.
  { induction 1 as [|c s Hc _ [IH1 IH2]]; [done|].
    unfold Utils.notSpaceNorAt in Hc. apply andb_true_iff in Hc as [Hs Ha].
    apply negb_true_iff in Hs, Ha. apply N.eqb_neq in Ha.
    rewrite filter_cons_False by done. split; [done|]. by constructor. }
  destruct (Hpart _ Hfl) as [Hl1 Hl2]. destruct (Hpart _ Hfd) as [Hd1 Hd2].
  destruct (Hpart _ Hfr) as [Hr1 Hr2].
  split.
  - rewrite !filter_app, Hl1, Hd1, Hr1. by vm_compute.
  - rewrite !Forall_app. repeat split; try done; by repeat constructor.
Qed.

(** Some addresses, as the pattern sees them. *)
Example isValidEmail_examples :
  map (λ s, Utils.isValidEmail (Utils.codeUnits s))
      ["omar@example.com"; "a.b@c.d.e"; "a@b..c"; "a@b"; "a@b."; "@b.c"; "a@.c";
       "a b@c.d"; "a@@b.c"; ""]
  = [true; true; true; false; false; false; false; false; false; false].
Proof. by vm_compute. Qed.

(** ** ThemeManager: system changes, reloads and the meta colour *)

Section ThemeEvents.
Import Dom ThemeManager.

Lemma toggleTheme_valid s : currentTheme (toggleTheme s).1 ∈ ["light"; "dark"].
Proof.
  destruct s as [this w]. unfold toggleTheme. cbn [fst currentTheme].
  case_bool_decide; [right; left | left].
Qed.

Lemma onSystemChange_stored matches s :
  localStorage (onSystemChange matches s).2 = localStorage s.2.
Proof.
  destruct s as [this w]. unfold onSystemChange.
  destruct (negb (hasUserPreference w)); [|done]. cbn [snd].
  apply applyTheme_localStorage.
Qed.

Lemma step_keeps_preference s ev :
  hasUserPreference s.2 = true → hasUserPreference (step s ev).2 = true.
Proof.
  intros H. destruct ev as [|matches]; cbn [step].
  - unfold hasUserPreference. rewrite toggleTheme_stored.
    apply bool_decide_eq_true_2. by eexists.
  - unfold hasUserPreference. by rewrite onSystemChange_stored.
Qed.

(** A handle found by a query names an element of the page that satisfies
    the query. *)
Lemma selectAll_head p w h :
  head (selectAll p w) = Some h → ∃ e, nodes w !! h = Some e ∧ p e = true.
Proof.
  intros H. apply head_Some_elem_of in H. unfold selectAll in H.
  apply list_elem_of_filter in H as [H _]. unfold satisfies in H.
  destruct (nodes w !! h) as [e|]; [by exists e | done].
Qed.

End ThemeEvents.

(** X10.  A change of the system colour scheme is followed only while no
    preference is stored: then the theme becomes [dark] or [light] as the
    system says, is applied to the document, and still nothing is stored.
    Once a preference is stored it stays stored through every toggle and
    system change, and system changes alone leave the component and the
    page exactly as they are. *)
Theorem system_change_respects_preference (s : ThemeManager.t * Dom.World) :
  (ThemeManager.hasUserPreference s.2 = false →
     ∀ matches,
       let s' := ThemeManager.onSystemChange matches s in
       ThemeManager.currentTheme s'.1 = (if matches then "dark" else "light") ∧
       Dom.getAttribute "data-theme" (Dom.documentElement s'.2)
         = Some (if matches then "dark" else "light") ∧
       ThemeManager.hasUserPreference s'.2 = false) ∧
  (ThemeManager.hasUserPreference s.2 = true →
     (∀ evs, ThemeManager.hasUserPreference (ThemeManager.run evs s).2 = true) ∧
     (∀ changes,
        ThemeManager.run (map ThemeManager.SystemChange changes) s = s)) ∧
  (∀ evs, ThemeManager.hasUserPreference
            (ThemeManager.run evs (ThemeManager.toggleTheme s)).2 = true).
Proof.
  assert (∀ evs s0, ThemeManager.hasUserPreference s0.2 = true →
            ThemeManager.hasUserPreference (ThemeManager.run evs s0).2 = true) as Hkeep.
  { induction evs as [|ev rest IH]; intros s0 H; [exact H|].
    simpl. apply IH. by apply step_keeps_preference. }
  split; [|split].
  - intros Hno matches s'. subst s'. destruct s as [this w]. cbn [snd] in Hno.
    unfold ThemeManager.onSystemChange. rewrite Hno. cbn [negb fst snd].
    split; [done|]. split.
    + by rewrite applyTheme_data_theme.
    + unfold ThemeManager.hasUserPreference in *. by rewrite applyTheme_localStorage.
  - intros Hyes. split; [intros evs; by apply Hkeep|].
    intros changes. induction changes as [|m rest IH]; [done|].
    simpl. destruct s as [this w]. cbn [snd] in Hyes.
    assert (ThemeManager.onSystemChange m (this, w) = (this, w)) as ->
      by (unfold ThemeManager.onSystemChange; by rewrite Hyes).
    exact IH.
  - intros evs. apply Hkeep. unfold ThemeManager.hasUserPreference.
    rewrite toggleTheme_stored. apply bool_decide_eq_true_2. by eexists.
Qed.

Lemma system_change_respects_preference_witness :
  ThemeManager.run
    (map ThemeManager.SystemChange [true; false; true])
    (ThemeManager.toggleTheme (ThemeManager.constructor, Page.loaded))
  = ThemeManager.toggleTheme (ThemeManager.constructor, Page.loaded).
Proof.
  apply (system_change_respects_preference
           (ThemeManager.toggleTheme (ThemeManager.constructor, Page.loaded))).
  by vm_compute.
Defined.

(** X11.  A theme chosen with [toggleTheme()] survives a reload: when a
    later page load starts from the storage the toggle left, [init()]
    brings back the toggled theme and applies it, whatever the system
    prefers then and whatever state the fresh component starts in. *)
Theorem toggled_theme_survives_reload (s : ThemeManager.t * Dom.World)
    (this' : ThemeManager.t) (w' : Dom.World) :
  Dom.localStorage w' = Dom.localStorage (ThemeManager.toggleTheme s).2 →
  let reloaded := ThemeManager.init (this', w') in
  ThemeManager.currentTheme reloaded.1
    = ThemeManager.currentTheme (ThemeManager.toggleTheme s).1 ∧
  Dom.getAttribute "data-theme" (Dom.documentElement reloaded.2)
    = Some (ThemeManager.currentTheme (ThemeManager.toggleTheme s).1).
Proof.
  intros Hst reloaded.
  assert (ThemeManager.currentTheme reloaded.1
          = ThemeManager.currentTheme (ThemeManager.toggleTheme s).1) as Hcur.
  { subst reloaded. unfold ThemeManager.init, ThemeManager.detectSystemPreference.
    cbn [fst snd]. apply loadSavedTheme_valid.
    - change (Dom.localStorage w' !! "portfolio-theme"
              = Some (ThemeManager.currentTheme (ThemeManager.toggleTheme s).1)).
      rewrite Hst. apply toggleTheme_stored.
    - apply toggleTheme_valid. }
  split; [exact Hcur|]. rewrite <- Hcur. subst reloaded.
  unfold ThemeManager.init. cbn [fst snd]. apply applyTheme_data_theme.
Qed.

Lemma toggled_theme_survives_reload_witness :
  let toggled := ThemeManager.toggleTheme (ThemeManager.constructor, Page.loaded) in
  ThemeManager.currentTheme
    (ThemeManager.init
       (ThemeManager.constructor,
        Page.world Page.markup 0 (Dom.localStorage toggled.2) false)).1
  = ThemeManager.currentTheme toggled.1.
Proof.
  intros toggled.
  apply (toggled_theme_survives_reload (ThemeManager.constructor, Page.loaded)).
  reflexivity.
Defined.

(** X12.  [applyTheme()] writes the theme on the root element and keeps
    the theme-colour meta tag in step with it.  The root element gets the
    attribute [data-theme] with the current theme and is otherwise as it
    was; the body is untouched.  Of the other elements: when the page has a
    theme-colour meta tag, the first one gets [#1e293b] as [content] for
    the dark theme and [#ffffff] for any other theme, keeps everything
    else it had, and every element but it is left as it is; when the page
    has no such tag, none of them changes.  [toggleTheme()] leaves the
    root, the body and the other elements as [applyTheme()] does for the
    new theme. *)
Theorem meta_colour_follows_theme (this : ThemeManager.t) (w : Dom.World) :
  let colour := ThemeManager.themeColor (ThemeManager.currentTheme this) in
  Dom.documentElement (ThemeManager.applyTheme this w)
    = Dom.setAttribute "data-theme" (ThemeManager.currentTheme this)
                       (Dom.documentElement w) ∧
  Dom.body (ThemeManager.applyTheme this w) = Dom.body w ∧
  match Dom.querySelector_meta_theme_color w with
  | Some m =>
      (Dom.nodes (ThemeManager.applyTheme this w) !! m ≫= Dom.getAttribute "content")
        = Some colour ∧
      Dom.nodes (ThemeManager.applyTheme this w) !! m
        = Dom.setAttribute "content" colour <$> Dom.nodes w !! m ∧
      (∀ k, k ≠ m →
            Dom.nodes (ThemeManager.applyTheme this w) !! k = Dom.nodes w !! k)
  | None => Dom.nodes (ThemeManager.applyTheme this w) = Dom.nodes w
  end ∧
  (let this' := (ThemeManager.toggleTheme (this, w)).1 in
   let w' := (ThemeManager.toggleTheme (this, w)).2 in
   Dom.documentElement w' = Dom.documentElement (ThemeManager.applyTheme this' w) ∧
   Dom.body w' = Dom.body (ThemeManager.applyTheme this' w) ∧
   Dom.nodes w' = Dom.nodes (ThemeManager.applyTheme this' w)).
Proof.
  intros colour. split; [|split; [|split; [|done]]].
  - unfold ThemeManager.applyTheme. by rewrite updateMetaThemeColor_documentElement.
  - unfold ThemeManager.applyTheme, ThemeManager.updateMetaThemeColor.
    by destruct (Dom.querySelector_meta_theme_color _).
  - unfold ThemeManager.applyTheme, ThemeManager.updateMetaThemeColor.
    change (Dom.querySelector_meta_theme_color (Dom.setDocumentElement ?e w))
      with (Dom.querySelector_meta_theme_color w).
    destruct (Dom.querySelector_meta_theme_color w) as [m|] eqn:Hq; [|done].
    apply selectAll_head in Hq as (e & He & _). split; [|split].
    + unfold Dom.updateNode. simpl. rewrite list_lookup_alter_eq, He. simpl.
      unfold Dom.getAttribute. simpl. by rewrite lookup_insert_eq.
    + unfold Dom.updateNode. simpl. by rewrite list_lookup_alter_eq, He.
    + intros k Hk. unfold Dom.updateNode. simpl. by rewrite list_lookup_alter_ne.
Qed.

(** ** The tracking beacon: the visitor id and the session's source *)

Section VisitorFacts.
Import Tracking.

(** The id [getVisitorId] returns is stored under [visitor_id] when it
    returns, and it is not empty. *)
Lemma getVisitorId_stored b :
  localStorage (getVisitorId b).2 !! "visitor_id" = Some (getVisitorId b).1
  ∧ Js.truthy (Some (getVisitorId b).1) = true.
Proof.
  unfold getVisitorId.
  destruct (localStorage b !! "visitor_id") as [v|] eqn:Hv; simpl.
  - destruct (bool_decide (v = "")) eqn:He; simpl.
    + split; [apply lookup_insert_eq | reflexivity].
    + split; [exact Hv | by rewrite He].
  - split; [apply lookup_insert_eq | reflexivity].
Qed.

(** What [getVisitorId] returns depends on the page only through what is
    stored under [visitor_id], as long as that is a non-empty string. *)
Lemma getVisitorId_reads_store b v :
  localStorage b !! "visitor_id" = Some v → Js.truthy (Some v) = true →
  getVisitorId b = (v, b).
Proof. intros Hv Ht. unfold getVisitorId. rewrite Hv, Ht. reflexivity. Qed.

Lemma trackVisitor_localStorage b :
  localStorage (trackVisitor b) = localStorage (getVisitorId b).2.
Proof.
  unfold trackVisitor. destruct (getVisitorId b) as [id b1]. cbn [fst snd].
  by destruct (_ && _); case_bool_decide.
Qed.

End VisitorFacts.

(** X13.  The visitor id is made once and then reused.  The id
    [getVisitorId()] returns is the one stored under [visitor_id] when it
    returns; a second call returns it again and changes nothing; and on any
    later page load that starts from the storage a tracked visit left, the
    payload carries the same visitor id, whatever the clock and the random
    source say then. *)
Theorem visitor_id_is_stable (b : Tracking.Browser) :
  Tracking.localStorage (Tracking.getVisitorId b).2 !! "visitor_id"
    = Some (Tracking.getVisitorId b).1 ∧
  Tracking.getVisitorId (Tracking.getVisitorId b).2
    = ((Tracking.getVisitorId b).1, (Tracking.getVisitorId b).2) ∧
  (∀ b', Tracking.localStorage b' = Tracking.localStorage (Tracking.trackVisitor b) →
         (Tracking.getVisitorId b').1 = (Tracking.getVisitorId b).1 ∧
         Tracking.searchGet "visitor_id" (Tracking.dataOf b')
           = Tracking.searchGet "visitor_id" (Tracking.dataOf b) ∧
         Tracking.localStorage (Tracking.trackVisitor b') = Tracking.localStorage b').
Proof.
  destruct (getVisitorId_stored b) as [Hst Ht].
  split; [exact Hst|]. split.
  - by apply getVisitorId_reads_store.
  - intros b' Hb'. rewrite trackVisitor_localStorage in Hb'.
    assert (Tracking.getVisitorId b' = ((Tracking.getVisitorId b).1, b')) as Heq.
    { apply getVisitorId_reads_store; [by rewrite Hb' | exact Ht]. }
    split; [by rewrite Heq|]. split.
    + unfold Tracking.dataOf. simpl. by rewrite Heq.
    + by rewrite trackVisitor_localStorage, Heq.
Qed.

Lemma visitor_id_is_stable_witness :
  let first := Tracking.visit "omartaha.ca" "/" [("source", "linkedin")] in
  let second :=
    Tracking.mkBrowser [] "/projects" "omartaha.ca" "" "Mozilla/5.0"
      "2025-02-01T00:00:00.000Z" 1738368000000 "zzzzzzzzz"
      (Tracking.localStorage (Tracking.trackVisitor first)) ∅ [] [] [] [] in
  (Tracking.getVisitorId second).1 = (Tracking.getVisitorId first).1.
Proof.
  intros first second.
  apply (visitor_id_is_stable first). reflexivity.
Defined.

(** X14.  Within a session [visit_source] holds the source of the most
    recent visit that was not direct: a visit with a source other than
    [direct] stores its own source, replacing an earlier one, and a direct
    visit leaves session storage as it found it, so an earlier source is
    kept. *)
Theorem visit_source_is_last_non_direct (first later : Tracking.Browser) :
  Tracking.sessionStorage later = Tracking.sessionStorage (Tracking.trackVisitor first) →
  Tracking.resolveSource first ≠ "direct" →
  Tracking.sessionStorage (Tracking.trackVisitor later) !! "visit_source"
  = Some (if bool_decide (Tracking.resolveSource later = "direct")
          then Tracking.resolveSource first
          else Tracking.resolveSource later).
Proof.
  intros Hs Hfirst. rewrite trackVisitor_sessionStorage.
  destruct (decide (Tracking.resolveSource later = "direct")) as [Hl | Hl].
  - rewrite (bool_decide_eq_true_2 _ Hl).
    rewrite bool_decide_eq_false_2 by (by intros H).
    rewrite Hs, trackVisitor_sessionStorage.
    rewrite bool_decide_eq_true_2 by done. apply lookup_insert_eq.
  - rewrite (bool_decide_eq_false_2 _ Hl).
    rewrite bool_decide_eq_true_2 by done. apply lookup_insert_eq.
Qed.

Lemma visit_source_is_last_non_direct_witness :
  let first := Tracking.visit "omartaha.ca" "/" [("utm_source", "linkedin")] in
  let later :=
    Tracking.mkBrowser [] "/projects" "omartaha.ca" "" "Mozilla/5.0"
      "2025-01-01T00:05:00.000Z" 1735689900000 "zzzzzzzzz"
      (Tracking.localStorage (Tracking.trackVisitor first))
      (Tracking.sessionStorage (Tracking.trackVisitor first)) [] [] [] [] in
  Tracking.sessionStorage (Tracking.trackVisitor later) !! "visit_source"
  = Some "linkedin".
Proof.
  intros first later.
  apply (visit_source_is_last_non_direct first later).
  - reflexivity.
  - by vm_compute.
Defined.

(** ** PortfolioApp: the registry and page visibility *)

Section RegistryLaws.
Import Dom PortfolioApp.
Context {C : Type}.

Lemma map_get_set_eq name (c : C) m : map_get name (map_set name c m) = Some c.
Proof.
  induction m as [|[k v] rest IH]; cbn [map_set map_get].
  - by rewrite bool_decide_eq_true_2.
  - destruct (decide (k = name)) as [Hk | Hk].
    + rewrite (bool_decide_eq_true_2 _ Hk). cbn [map_get].
      by rewrite (bool_decide_eq_true_2 _ Hk).
    + rewrite (bool_decide_eq_false_2 _ Hk). cbn [map_get].
      by rewrite (bool_decide_eq_false_2 _ Hk).
Qed.

Lemma map_get_set_ne name other (c : C) m :
  other ≠ name → map_get other (map_set name c m) = map_get other m.
Proof.
  intros Hne. assert (name ≠ other) as Hne' by (by intros ->).
  induction m as [|[k v] rest IH]; cbn [map_set map_get].
  - by rewrite bool_decide_eq_false_2.
  - destruct (decide (k = name)) as [Hk | Hk].
    + rewrite (bool_decide_eq_true_2 _ Hk). cbn [map_get]. subst k.
      by rewrite !(bool_decide_eq_false_2 _ Hne').
    + rewrite (bool_decide_eq_false_2 _ Hk). cbn [map_get]. by rewrite IH.
Qed.

Lemma map_set_keys name (c : C) m :
  (map_set name c m).*1 = if bool_decide (name ∈ m.*1) then m.*1 else m.*1 ++ [name].
Proof.
  induction m as [|[k v] rest IH]; cbn [map_set].
  - rewrite bool_decide_eq_false_2; [done | apply not_elem_of_nil].
  - destruct (decide (k = name)) as [Hk | Hk].
    + rewrite (bool_decide_eq_true_2 _ Hk). rewrite !fmap_cons. cbn [fst].
      subst k. rewrite bool_decide_eq_true_2; [done | by left].
    + rewrite (bool_decide_eq_false_2 _ Hk). rewrite !fmap_cons. cbn [fst].
      rewrite IH. destruct (decide (name ∈ rest.*1)) as [Hin | Hin].
      * rewrite (bool_decide_eq_true_2 _ Hin).
        rewrite bool_decide_eq_true_2; [done | by right].
      * rewrite (bool_decide_eq_false_2 _ Hin).
        rewrite bool_decide_eq_false_2; [done|].
        intros [? | ?]%elem_of_cons; [by subst | done].
Qed.

Lemma map_set_NoDup name (c : C) m : NoDup m.*1 → NoDup (map_set name c m).*1.
Proof.
  intros Hnd. rewrite map_set_keys. case_bool_decide as Hin; [done|].
  apply NoDup_app. repeat split; [done | | apply NoDup_singleton].
  intros k Hk ->%list_elem_of_singleton. done.
Qed.

End RegistryLaws.

(** X15.  The registry behaves as a map with insertion order.  After
    [set(name, c)], [get(name)] is [c] and every other name reads as
    before; a name already present keeps its place and a new one goes
    last, so names stay unique.  Hence [registerComponents()], from any
    registry, leaves exactly one entry for each of the four names, holding
    a freshly constructed component. *)
Theorem registry_is_an_ordered_map {C : Type} (name : string) (c : C)
    (m : list (string * C)) :
  PortfolioApp.map_get name (PortfolioApp.map_set name c m) = Some c ∧
  (∀ other, other ≠ name →
     PortfolioApp.map_get other (PortfolioApp.map_set name c m)
     = PortfolioApp.map_get other m) ∧
  (PortfolioApp.map_set name c m).*1
    = (if bool_decide (name ∈ m.*1) then m.*1 else m.*1 ++ [name]) ∧
  (NoDup m.*1 → NoDup (PortfolioApp.map_set name c m).*1) ∧
  (∀ this w,
     let registered := PortfolioApp.components (PortfolioApp.registerComponents (this, w)).1 in
     PortfolioApp.map_get "navigation" registered
       = Some (PortfolioApp.Navigation NavigationManager.constructor) ∧
     PortfolioApp.map_get "scroll" registered
       = Some (PortfolioApp.Scroll ScrollManager.constructor) ∧
     PortfolioApp.map_get "animation" registered
       = Some (PortfolioApp.Animation AnimationManager.constructor) ∧
     PortfolioApp.map_get "theme" registered
       = Some (PortfolioApp.Theme ThemeManager.constructor) ∧
     (NoDup (PortfolioApp.components this).*1 → NoDup registered.*1)).
Proof.
  split; [apply map_get_set_eq|]. split; [intros; by apply map_get_set_ne|].
  split; [apply map_set_keys|]. split; [apply map_set_NoDup|].
  intros this w registered. subst registered. unfold PortfolioApp.registerComponents.
  cbn [fst PortfolioApp.components].
  repeat split.
  - rewrite !map_get_set_ne by done. apply map_get_set_eq.
  - rewrite !map_get_set_ne by done. apply map_get_set_eq.
  - rewrite !map_get_set_ne by done. apply map_get_set_eq.
  - apply map_get_set_eq.
  - intros H. by do 4 apply map_set_NoDup.
Qed.

Section VisibilityFacts.
Import Dom PortfolioApp.

Lemma Component_init_kind c w : kind (Component_init (c, w)).2.1 = kind c.
Proof.
  destruct c as [c|c|c|c]; unfold Component_init.
  - by destruct (NavigationManager.init (c, w)) as [r [c' w']].
  - by destruct (ScrollManager.init (c, w)) as [r [c' w']].
  - by destruct (AnimationManager.init (c, w)) as [r [c' w']].
  - by destruct (ThemeManager.init (c, w)) as [c' w'].
Qed.

Lemma initializeComponents_kinds cs : ∀ w cs' w',
  initializeComponents Component_init cs w = (inr cs', w') →
  (λ x, (x.1, kind x.2)) <$> cs' = (λ x, (x.1, kind x.2)) <$> cs.
Proof.
  induction cs as [|[name c] rest IH]; intros w cs' w' H.
  - simpl in H. unfold Js.ret in H. by injection H as <- _.
  - rewrite initializeComponents_cons in H.
    destruct (initializeComponents Component_init rest _) as [[e|rest'] w''] eqn:Hr;
      [done|]. injection H as <- _.
    rewrite !fmap_cons. f_equal; [|by apply (IH _ _ _ Hr)].
    cbn [fst snd]. f_equal. apply Component_init_kind.
Qed.

(** After [init()] on a new application the registry holds the four
    components under their names, each of its class. *)
Lemma init_registry w :
  ∃ nav sc an th,
    components (PortfolioApp.init (constructor, w)).2.1
    = [("navigation", Navigation nav); ("scroll", Scroll sc);
       ("animation", Animation an); ("theme", Theme th)].
Proof.
  destruct (init_first_call constructor w eq_refl) as (cs & w' & Hcs & ->).
  cbn [fst snd components].
  apply initializeComponents_kinds in Hcs.
  change (components (registerComponents (constructor, w)).1)
    with [("navigation", Navigation NavigationManager.constructor);
          ("scroll", Scroll ScrollManager.constructor);
          ("animation", Animation AnimationManager.constructor);
          ("theme", Theme ThemeManager.constructor)] in Hcs.
  destruct cs as [|[n1 [c1|c1|c1|c1]] [|[n2 [c2|c2|c2|c2]] [|[n3 [c3|c3|c3|c3]]
                 [|[n4 [c4|c4|c4|c4]] [|? ?]]]]]; try done.
  simpl in Hcs. injection Hcs as -> -> -> ->. by exists c1, c2, c3, c4.
Qed.

End VisibilityFacts.

(** X16.  On an application that [init()] has set up, on any page,
    [handleVisibilityChange()] returns normally and leaves the animation
    component paused exactly when the page is not [visible]; it keeps that
    component's observer and recorded elements, and changes no other
    component and nothing on the page. *)
Theorem visibility_pauses_animation (w : Dom.World) (visibilityState : string) :
  let app := (PortfolioApp.init (PortfolioApp.constructor, w)).2 in
  let r := PortfolioApp.handleVisibilityChange visibilityState app in
  r.1 = inr tt ∧ r.2.2 = app.2 ∧
  (PortfolioApp.components r.2.1).*1 = (PortfolioApp.components app.1).*1 ∧
  (∀ other, other ≠ "animation" →
     PortfolioApp.map_get other (PortfolioApp.components r.2.1)
     = PortfolioApp.map_get other (PortfolioApp.components app.1)) ∧
  ∃ c c',
    PortfolioApp.map_get "animation" (PortfolioApp.components app.1)
      = Some (PortfolioApp.Animation c) ∧
    PortfolioApp.map_get "animation" (PortfolioApp.components r.2.1)
      = Some (PortfolioApp.Animation c') ∧
    AnimationManager.isAnimationPaused c'
      = negb (bool_decide (visibilityState = "visible")) ∧
    AnimationManager.intersectionObserver c' = AnimationManager.intersectionObserver c ∧
    AnimationManager.observedElements c' = AnimationManager.observedElements c.
Proof.
  intros app r. subst r.
  destruct (init_registry w) as (nav & sc & an & th & Hreg). fold app in Hreg.
  destruct app as [this w1]. cbn [fst snd] in *.
  assert (PortfolioApp.map_get "animation" (PortfolioApp.components this)
          = Some (PortfolioApp.Animation an)) as Hget by (by rewrite Hreg).
  unfold PortfolioApp.handleVisibilityChange. rewrite Hget.
  cbn [fst snd PortfolioApp.components].
  split; [done|]. split; [done|]. split.
  { rewrite map_set_keys, Hreg. reflexivity. }
  split.
  - intros other Hne. by apply map_get_set_ne.
  - eexists an, _. split; [done|]. split; [apply map_get_set_eq|].
    by case_bool_decide.
Qed.

(** ** Utils.throttle: the window closes *)

Section ThrottleWindow.
Import Utils.
Context {S : Type}.
Variable func : S → Run S.
Variable limit : Z.
Variable stack : nat.



Hypothesis func_returns : ∀ c, ∃ c', func c = Returns c'.



End ThrottleWindow.



(** ** AnimationManager: what is observed *)

Section ObservedFacts.
Import Dom AnimationManager.

Lemma elem_of_querySelectorAll_class c h w :
  h ∈ querySelectorAll_class c w ↔ hasClass c h w = true.
Proof.
  unfold querySelectorAll_class, selectAll, hasClass.
  rewrite list_elem_of_filter. split; [by intros [H _]|].
  intros H. split; [done|]. apply elem_of_seq. split; [lia|]. simpl.
  unfold satisfies in H. destruct (nodes w !! h) as [e|] eqn:He; [|done].
  by apply lookup_lt_Some in He.
Qed.

Lemma contains_classList_add_ne c d e :
  c ≠ d → contains c (classList_add d e) = contains c e.
Proof. intros Hne. by apply (contains_classList_toggle_ne c d true). Qed.

(** The inner loop records and observes every element of its list, puts
    [animate-on-scroll] on each and touches no other class. *)
Lemma observeEach_spec elements : ∀ index this w targets,
  intersectionObserver this = Some targets →
  ∃ this' w',
    observeEach index elements (this, w) = (inr tt, (this', w')) ∧
    isAnimationPaused this' = isAnimationPaused this ∧
    observedElements this' = observedElements this ∪ list_to_set elements ∧
    intersectionObserver this' = Some (targets ∪ list_to_set elements) ∧
    (∀ c h, c ≠ "animate-on-scroll" → hasClass c h w' = hasClass c h w) ∧
    (∀ h, hasClass "animate-on-scroll" h w = true →
          hasClass "animate-on-scroll" h w' = true) ∧
    (∀ h, h ∈ elements → is_Some (nodes w !! h) →
          hasClass "animate-on-scroll" h w' = true).
Proof.
  induction elements as [|element rest IH]; intros index this w targets Ht.
  - exists this, w. cbn [observeEach list_to_set]. rewrite Ht.
    rewrite !(right_id_L ∅ (∪)). repeat split; try done.
    intros h Hh. by apply elem_of_nil in Hh.
  - cbn [observeEach]. rewrite Ht.
    set (w1 := updateNode element (classList_add "animate-on-scroll") w).
    set (w2 := updateNode element (setStyle "animationDelay" _) w1).
    set (this1 := mk _ _ _).
    destruct (IH (Datatypes.S index) this1 w2 (targets ∪ {[element]}) eq_refl)
      as (this' & w' & Hrun & Hp & Ho & Hi & Hc & Hm & Ha).
    exists this', w'. split; [exact Hrun|]. split; [exact Hp|].
    assert (∀ c h, hasClass c h w2 = hasClass c h w1) as H21.
    { intros c h. by apply hasClass_updateNode. }
    split; [|split; [|split; [|split]]].
    + rewrite Ho. subst this1. cbn [observedElements list_to_set].
      by rewrite (assoc_L (∪)).
    + rewrite Hi. cbn [list_to_set]. by rewrite (assoc_L (∪)).
    + intros c h Hne. rewrite Hc, H21 by done. apply hasClass_updateNode.
      intros e. by apply contains_classList_add_ne.
    + intros h Hh. apply Hm. rewrite H21. unfold w1, hasClass, satisfies, updateNode in *.
      simpl. destruct (decide (element = h)) as [-> | Hne].
      * rewrite list_lookup_alter_eq. destruct (nodes w !! h); [|done]. simpl.
        by apply contains_classList_add_mono.
      * by rewrite list_lookup_alter_ne.
    + intros h [-> | Hin]%elem_of_cons Hv.
      * apply Hm. rewrite H21. apply hasClass_updateNode_same; [done|].
        intros e. apply contains_classList_add.
      * apply Ha; [done|]. by do 2 apply updateNode_valid.
Qed.

Lemma observeSelectors_spec sels :
  Forall (λ selector, selector ≠ "animate-on-scroll") sels →
  ∀ this w targets,
  intersectionObserver this = Some targets →
  ∃ this' w' targets',
    observeSelectors sels (this, w) = (inr tt, (this', w')) ∧
    isAnimationPaused this' = isAnimationPaused this ∧
    intersectionObserver this' = Some targets' ∧
    (∀ h, h ∈ observedElements this'
          ↔ h ∈ observedElements this ∨ matchesSelector sels h w) ∧
    (∀ h, h ∈ targets' ↔ h ∈ targets ∨ matchesSelector sels h w) ∧
    (∀ c h, c ≠ "animate-on-scroll" → hasClass c h w' = hasClass c h w) ∧
    (∀ h, hasClass "animate-on-scroll" h w = true →
          hasClass "animate-on-scroll" h w' = true) ∧
    (∀ h, matchesSelector sels h w → hasClass "animate-on-scroll" h w' = true).
Proof.
  induction sels as [|selector rest IH]; intros Hsels this w targets Ht.
  - exists this, w, targets. split; [done|]. split; [done|]. split; [done|].
    assert (∀ h, ¬ matchesSelector [] h w) as Hno.
    { intros h (sel & Hsel & _). by apply elem_of_nil in Hsel. }
    repeat split; try done; try tauto.
    + intros [H | H]; [done|]. by apply Hno in H.
    + intros [H | H]; [done|]. by apply Hno in H.
    + intros h H. by apply Hno in H.
  - apply Forall_cons in Hsels as [Hsel Hrest].
    cbn [observeSelectors]. unfold Js.bind. cbn [snd].
    destruct (observeEach_spec (querySelectorAll_class selector w) 0 this w targets Ht)
      as (this1 & w1 & Hrun1 & Hp1 & Ho1 & Hi1 & Hc1 & Hm1 & Ha1).
    rewrite Hrun1.
    destruct (IH Hrest this1 w1 _ Hi1)
      as (this' & w' & targets' & Hrun & Hp & Hi & Ho & Ht' & Hc & Hm & Ha).
    exists this', w', targets'. split; [exact Hrun|]. split; [congruence|].
    split; [exact Hi|].
    assert (∀ h, matchesSelector (selector :: rest) h w
                 ↔ h ∈ querySelectorAll_class selector w ∨ matchesSelector rest h w1) as Hmatch.
    { intros h. rewrite elem_of_querySelectorAll_class. split.
      - intros (sel & [-> | Hin]%elem_of_cons & Hh); [by left|].
        right. exists sel. split; [done|]. rewrite Hc1; [done|].
        by apply (proj1 (Forall_forall _ _) Hrest).
      - intros [Hh | (sel & Hin & Hh)].
        + exists selector. split; [by left | done].
        + exists sel. split; [by right|]. rewrite <- Hc1; [done|].
          by apply (proj1 (Forall_forall _ _) Hrest). }
    split; [|split; [|split; [|split]]].
    + intros h. rewrite Ho, Ho1, elem_of_union, elem_of_list_to_set, Hmatch. tauto.
    + intros h. rewrite Ht', elem_of_union, elem_of_list_to_set, Hmatch. tauto.
    + intros c h Hne. by rewrite Hc, Hc1.
    + intros h Hh. by apply Hm, Hm1.
    + intros h [Hh | Hh]%Hmatch.
      * apply Hm, Ha1; [done|]. apply elem_of_querySelectorAll_class in Hh.
        unfold hasClass, satisfies in Hh. by destruct (nodes w !! h).
      * by apply Ha.
Qed.

Lemma isObserved_onEntry h acc entry :
  isObserved h (onEntry acc entry).1 = true → isObserved h acc.1 = true.
Proof.
  unfold onEntry. destruct (isIntersecting entry); [|done]. cbn [fst].
  destruct (isObserved h acc.1) eqn:Ho; [done|].
  by rewrite (isObserved_unobserve_mono _ _ _ Ho).
Qed.

Lemma isObserved_notify h entries s :
  isObserved h (notify entries s).1 = true → isObserved h s.1 = true.
Proof.
  unfold notify. destruct (intersectionObserver s.1) as [targets|] eqn:Ht; [|done].
  unfold observerCallback. destruct (isAnimationPaused s.1); [done|].
  generalize (filter (λ entry, target entry ∈ targets) entries). intros batch.
  revert s Ht. induction batch as [|entry rest IH] using rev_ind; intros s Ht; [done|].
  rewrite foldl_snoc. intros H%isObserved_onEntry. by apply (IH s Ht).
Qed.

Lemma step_keeps_record s ev :
  size (observedElements s.1) ≠ 0 →
  observedElements (step s ev).1 = observedElements s.1 ∧
  (∀ h, isObserved h (step s ev).1 = true → isObserved h s.1 = true).
Proof.
  intros Hsize. destruct ev as [| |entries|]; cbn [step fst snd].
  - done.
  - done.
  - split; [apply notify_flags|]. intros h. apply isObserved_notify.
  - unfold handleResize. by rewrite bool_decide_eq_false_2.
Qed.

End ObservedFacts.

(** X18.  With its observer in place, [observeElements] returns normally
    and records and observes, next to what was there before, exactly the
    elements that carry the class of one of the seven selectors.  Each of
    them gets the class [animate-on-scroll]; no other class of any element
    changes, and the pause flag is kept. *)
Theorem observeElements_observes_matching (this : AnimationManager.t) (w : Dom.World)
    (targets : gset nat) :
  AnimationManager.intersectionObserver this = Some targets →
  ∃ this' w',
    AnimationManager.observeElements (this, w) = (inr tt, (this', w')) ∧
    AnimationManager.isAnimationPaused this' = AnimationManager.isAnimationPaused this ∧
    (∀ h, h ∈ AnimationManager.observedElements this'
          ↔ h ∈ AnimationManager.observedElements this
            ∨ AnimationManager.matchesSelector AnimationManager.selectors h w) ∧
    (∀ h, AnimationManager.isObserved h this' = true
          ↔ h ∈ targets ∨ AnimationManager.matchesSelector AnimationManager.selectors h w) ∧
    (∀ h, AnimationManager.matchesSelector AnimationManager.selectors h w →
          Dom.hasClass "animate-on-scroll" h w' = true) ∧
    (∀ c h, c ≠ "animate-on-scroll" → Dom.hasClass c h w' = Dom.hasClass c h w).
Proof.
  intros Ht.
  assert (Forall (λ selector, selector ≠ "animate-on-scroll") AnimationManager.selectors)
    as Hsels by (unfold AnimationManager.selectors; repeat constructor; discriminate).
  destruct (observeSelectors_spec AnimationManager.selectors Hsels this w targets Ht)
    as (this' & w' & targets' & Hrun & Hp & Hi & Ho & Ht' & Hc & _ & Ha).
  exists this', w'. split; [exact Hrun|]. split; [exact Hp|]. split; [exact Ho|].
  split; [|split; [exact Ha | exact Hc]].
  intros h. unfold AnimationManager.isObserved. rewrite Hi, <- Ht'.
  apply bool_decide_eq_true.
Qed.

Lemma observeElements_observes_matching_witness :
  ∃ this' w',
    AnimationManager.observeElements
      (AnimationManager.mk ∅ (Some ∅) false, Page.loaded) = (inr tt, (this', w')) ∧
    AnimationManager.isAnimationPaused this' = false.
Proof.
  destruct (observeElements_observes_matching
              (AnimationManager.mk ∅ (Some ∅) false) Page.loaded ∅ eq_refl)
    as (this' & w' & Hrun & Hp & _).
  exists this', w'. split; [exact Hrun | exact Hp].
Defined.

(** X19.  The component's own set of elements is only ever added to:
    [unobserve] takes an element from the observer, not from the set.  So
    once the set is not empty, no pause, resume, intersection or resize
    changes it, [handleResize] does nothing at any later time, and the
    observer's targets only shrink: an element that was animated and
    dropped is not observed again. *)
Theorem resize_never_reobserves (s : AnimationManager.t * Dom.World)
    (evs : list AnimationManager.Event) :
  size (AnimationManager.observedElements s.1) ≠ 0 →
  let s' := AnimationManager.run evs s in
  AnimationManager.observedElements s'.1 = AnimationManager.observedElements s.1 ∧
  AnimationManager.handleResize s' = (inr tt, s') ∧
  (∀ h, AnimationManager.isObserved h s'.1 = true →
        AnimationManager.isObserved h s.1 = true).
Proof.
  intros Hsize s'.
  assert (AnimationManager.observedElements s'.1 = AnimationManager.observedElements s.1
          ∧ ∀ h, AnimationManager.isObserved h s'.1 = true →
                 AnimationManager.isObserved h s.1 = true) as [Ho Hi].
  { subst s'. unfold AnimationManager.run.
    induction evs as [|ev rest IH] using rev_ind; [done|].
    rewrite foldl_snoc. destruct IH as [Ho Hi].
    destruct (step_keeps_record (foldl AnimationManager.step s rest) ev) as [Ho' Hi'].
    { by rewrite Ho. }
    split; [by rewrite Ho', Ho|]. intros h Hh. by apply Hi, Hi'. }
  split; [exact Ho|]. split; [|exact Hi].
  unfold AnimationManager.handleResize. rewrite bool_decide_eq_false_2; [done|].
  by rewrite Ho.
Qed.

Lemma resize_never_reobserves_witness :
  let s := (AnimationManager.mk {[11]} (Some ∅) false, Page.loaded) in
  AnimationManager.observedElements
    (AnimationManager.run [AnimationManager.Intersection []; AnimationManager.Resize] s).1
  = AnimationManager.observedElements s.1.
Proof.
  intros s.
  apply (resize_never_reobserves s
           [AnimationManager.Intersection []; AnimationManager.Resize]).
  vm_compute. discriminate.
Defined.

(** ** AnimationManager: the typewriter *)

Section TypingFacts.
Import Dom AnimationManager.

Lemma substring_snoc (s : string) : ∀ n,
  n < String.length s →
  String.substring 0 n s +:+ charAt n s = String.substring 0 (Datatypes.S n) s.
Proof.
  unfold charAt. induction s as [|a s IH]; intros n Hn; simpl in Hn; [lia|].
  destruct n as [|n].
  - simpl. by destruct s.
  - cbn [String.substring String.get String.append]. cbn [String.substring] in IH.
    rewrite <- IH by lia. reflexivity.
Qed.

Lemma substring_all (s : string) : String.substring 0 (String.length s) s = s.
Proof. induction s as [|a s IH]; [done|]. simpl. by rewrite IH. Qed.

Lemma textOf_setTimeout h cb delay w : textOf h (setTimeout cb delay w) = textOf h w.
Proof. reflexivity. Qed.

(** After [n] runs of [typeText] the headline shows the first [n]
    characters of the text. *)
Lemma typeText_prefix h txt w n :
  is_Some (nodes w !! h) → textOf h w = "" → n ≤ String.length txt →
  let s := Nat.iter n typeText (mkTyping h txt 0, w) in
  s.1 = mkTyping h txt n ∧ textOf h s.2 = String.substring 0 n txt ∧
  is_Some (nodes s.2 !! h).
Proof.
  intros Hv Hempty. induction n as [|n IH]; intros Hn s.
  - subst s. simpl. split; [done|]. split; [|done]. rewrite Hempty. by destruct txt.
  - subst s. rewrite Nat.iter_succ. destruct IH as (Hc & Ht & Hv'); [lia|].
    destruct (Nat.iter n typeText (mkTyping h txt 0, w)) as [c w'].
    cbn [fst snd] in Hc, Ht, Hv'. subst c. unfold typeText.
    cbn [charIndex text heroTitle].
    rewrite (proj2 (Nat.ltb_lt _ _)) by lia. cbn [fst snd].
    split; [done|]. rewrite textOf_setTimeout. split.
    + rewrite <- substring_snoc by lia. rewrite <- Ht.
      unfold textOf, updateNode. simpl. rewrite list_lookup_alter_eq.
      destruct Hv' as [e He]. by rewrite He.
    + by apply updateNode_valid.
Qed.

End TypingFacts.

(** X20.  The typewriter puts the headline's text back, for a headline
    whose text is made of ASCII characters (one UTF-16 code unit each, as
    [text.length] and [text.charAt] count them).  Started by
    [addTypingEffect] on a page with such a headline, the text is emptied and
    the first run of [typeText] is scheduled 500 ms ahead; after [n] runs
    the headline shows the first [n] characters of its former text, after
    as many runs as the text is long it shows all of it, and the run after
    that changes no text and schedules the removal of the cursor 1000 ms
    ahead, which sets [borderRight] to [none] and keeps the text. *)
Theorem typewriter_retypes_text (this : AnimationManager.t) (w : Dom.World)
    (c : AnimationManager.Typing) :
  AnimationManager.typing w = Some c →
  AnimationManager.isAscii (AnimationManager.text c) = true →
  let h := AnimationManager.heroTitle c in
  let txt := AnimationManager.text c in
  let w0 := (AnimationManager.addTypingEffect (this, w)).2 in
  let after n := Nat.iter n AnimationManager.typeText (c, w0) in
  AnimationManager.textOf h w0 = "" ∧
  last (Dom.timers w0)
    = Some (500%Z, Dom.Arrow "AnimationManager.addTypingEffect.typeText") ∧
  (∀ n, n ≤ String.length txt →
        AnimationManager.textOf h (after n).2 = String.substring 0 n txt) ∧
  AnimationManager.textOf h (after (String.length txt)).2 = AnimationManager.textOf h w ∧
  (let done := after (Datatypes.S (String.length txt)) in
   AnimationManager.textOf h done.2 = AnimationManager.textOf h w ∧
   last (Dom.timers done.2)
     = Some (1000%Z, Dom.Arrow "AnimationManager.addTypingEffect.removeCursor") ∧
   let w' := AnimationManager.removeCursor done.1 done.2 in
   AnimationManager.textOf h w' = AnimationManager.textOf h w ∧
   (Dom.style <$> Dom.nodes w' !! h) ≫= (.!! "borderRight") = Some "none").
Proof.
  intros Hc _ h txt w0 after. unfold AnimationManager.typing in Hc.
  destruct (Dom.querySelector_hero_title w) as [hero|] eqn:Hq; [|done].
  injection Hc as Hc. subst c h.
  cbn [AnimationManager.heroTitle AnimationManager.text] in txt |- *.
  subst after. cbn beta.
  assert (is_Some (Dom.nodes w !! hero)) as [e He].
  { unfold Dom.querySelector_hero_title in Hq. apply head_Some_elem_of in Hq.
    apply list_elem_of_filter in Hq as [_ Hq].
    apply elem_of_querySelectorAll_class in Hq. unfold Dom.hasClass, Dom.satisfies in Hq.
    by destruct (Dom.nodes w !! hero). }
  assert (w0 = Dom.setTimeout (Dom.Arrow "AnimationManager.addTypingEffect.typeText") 500
                 (Dom.updateNode hero (Dom.setStyle "borderRight" "2px solid var(--primary-color)")
                    (Dom.updateNode hero (Dom.setTextContent "") w))) as Hw0.
  { subst w0. unfold AnimationManager.addTypingEffect. by rewrite Hq. }
  assert (AnimationManager.textOf hero w0 = "") as Hempty.
  { rewrite Hw0. unfold AnimationManager.textOf, Dom.setTimeout, Dom.updateNode. simpl.
    by rewrite !list_lookup_alter_eq, He. }
  assert (is_Some (Dom.nodes w0 !! hero)) as Hv0.
  { rewrite Hw0. cbn [Dom.setTimeout Dom.setTimers Dom.nodes].
    do 2 apply updateNode_valid. by exists e. }
  assert (txt = AnimationManager.textOf hero w) as Htxt by reflexivity.
  split; [exact Hempty|]. split.
  { rewrite Hw0. unfold Dom.setTimeout. simpl. by rewrite last_snoc. }
  split.
  { intros n Hn. by apply (typeText_prefix hero txt w0 n Hv0 Hempty Hn). }
  destruct (typeText_prefix hero txt w0 (String.length txt) Hv0 Hempty (le_n _))
    as (Hc & Ht & Hv).
  rewrite substring_all in Ht.
  split; [exact Ht|].
  rewrite Nat.iter_succ.
  destruct (Nat.iter (String.length txt) AnimationManager.typeText _) as [c' w'].
  cbn [fst snd] in Hc, Ht, Hv. subst c'. unfold AnimationManager.typeText.
  cbn [AnimationManager.charIndex AnimationManager.text AnimationManager.heroTitle].
  rewrite Nat.ltb_irrefl. cbn [fst snd].
  split; [by rewrite textOf_setTimeout, Ht|]. split.
  { unfold Dom.setTimeout. simpl. by rewrite last_snoc. }
  unfold AnimationManager.removeCursor. cbn [AnimationManager.heroTitle].
  destruct Hv as [e' He']. split.
  - rewrite <- Htxt, <- Ht. unfold AnimationManager.textOf, Dom.updateNode, Dom.setTimeout.
    simpl. by rewrite list_lookup_alter_eq, He'.
  - unfold Dom.updateNode, Dom.setTimeout. simpl. rewrite list_lookup_alter_eq, He'.
    simpl. by rewrite lookup_insert_eq.
Qed.

Lemma typewriter_retypes_text_witness :
  let c := AnimationManager.mkTyping 9 "Omar" 0 in
  let w0 := (AnimationManager.addTypingEffect (AnimationManager.constructor, Page.loaded)).2 in
  AnimationManager.typing Page.loaded = Some c ∧
  AnimationManager.isAscii (AnimationManager.text c) = true ∧
  AnimationManager.textOf 9 (Nat.iter 4 AnimationManager.typeText (c, w0)).2
  = AnimationManager.textOf 9 Page.loaded.
Proof.
  intros c w0.
  assert (AnimationManager.typing Page.loaded = Some c) as Hc by (vm_compute; reflexivity).
  assert (AnimationManager.isAscii (AnimationManager.text c) = true) as Ha
    by (vm_compute; reflexivity).
  split; [exact Hc|]. split; [exact Ha|].
  exact (proj1 (proj2 (proj2 (proj2
           (typewriter_retypes_text AnimationManager.constructor Page.loaded c Hc Ha))))).
Defined.

(** ** PortfolioApp: resize *)

Section ResizeFacts.
Import Dom PortfolioApp.

(** [init()] of the navigation manager never opens the menu. *)
Lemma navigation_init_menu c w :
  NavigationManager.isMenuOpen (NavigationManager.init (c, w)).2.1
  = NavigationManager.isMenuOpen c.
Proof.
  unfold NavigationManager.init, Js.bind.
  destruct (NavigationManager.cacheElements (c, w)) as [[e|[]] [c1 w1]] eqn:H1.
  - unfold NavigationManager.cacheElements in H1.
    repeat case_match; by simplify_eq.
  - assert (NavigationManager.isMenuOpen c1 = NavigationManager.isMenuOpen c) as <-.
    { unfold NavigationManager.cacheElements in H1.
      repeat case_match; by simplify_eq. }
    destruct (NavigationManager.bindEvents (c1, w1)) as [[e|[]] [c2 w2]] eqn:H2.
    + unfold NavigationManager.bindEvents in H2.
      repeat case_match; by simplify_eq.
    + assert (c2 = c1) as ->.
      { unfold NavigationManager.bindEvents in H2.
        repeat case_match; by simplify_eq. }
      by rewrite (proj1 (setActiveLink_keeps (c1, w2))).
Qed.

(** [init()] of the animation manager always leaves an observer. *)
Lemma animation_init_observer c w :
  is_Some (AnimationManager.intersectionObserver (AnimationManager.init (c, w)).2.1).
Proof.
  unfold AnimationManager.init, Js.bind, Js.modify, AnimationManager.observeElements.
  unfold AnimationManager.setupIntersectionObserver. cbn [fst snd].
  set (this0 := AnimationManager.mk _ (Some ∅) _).
  assert (Forall (λ selector, selector ≠ "animate-on-scroll") AnimationManager.selectors)
    as Hsels by (unfold AnimationManager.selectors; repeat constructor; discriminate).
  destruct (observeSelectors_spec AnimationManager.selectors Hsels this0 w ∅ eq_refl)
    as (this' & w' & targets' & -> & _ & Hi & _).
  unfold AnimationManager.addTypingEffect.
  destruct (querySelector_hero_title w'); cbn [fst snd]; by rewrite Hi.
Qed.

Lemma observeElements_each this w targets :
  AnimationManager.intersectionObserver this = Some targets →
  ∃ this' w',
    AnimationManager.observeElements (this, w) = (inr tt, (this', w')) ∧
    AnimationManager.isAnimationPaused this' = AnimationManager.isAnimationPaused this.
Proof.
  intros Ht.
  assert (Forall (λ selector, selector ≠ "animate-on-scroll") AnimationManager.selectors)
    as Hsels by (unfold AnimationManager.selectors; repeat constructor; discriminate).
  destruct (observeSelectors_spec AnimationManager.selectors Hsels this w targets Ht)
    as (this' & w' & targets' & Hrun & Hp & _).
  by exists this', w'.
Qed.

(** Each registered component is what its own [init()] left. *)
Lemma initializeComponents_each cs : ∀ w cs' w',
  initializeComponents Component_init cs w = (inr cs', w') →
  Forall2 (λ x' x, x'.1 = x.1 ∧ ∃ w1, x'.2 = (Component_init (x.2, w1)).2.1) cs' cs.
Proof.
  induction cs as [|[name c] rest IH]; intros w cs' w' H.
  - simpl in H. unfold Js.ret in H. injection H as <- _. constructor.
  - rewrite initializeComponents_cons in H.
    destruct (initializeComponents Component_init rest _) as [[e|rest'] w''] eqn:Hr;
      [done|]. injection H as <- _.
    constructor; [|by apply (IH _ _ _ Hr)].
    split; [done|]. by exists w.
Qed.

Lemma init_components w :
  ∃ nav sc an th,
    components (PortfolioApp.init (constructor, w)).2.1
    = [("navigation", Navigation nav); ("scroll", Scroll sc);
       ("animation", Animation an); ("theme", Theme th)] ∧
    NavigationManager.isMenuOpen nav = false ∧
    is_Some (AnimationManager.intersectionObserver an).
Proof.
  destruct (init_first_call constructor w eq_refl) as (cs & w' & Hcs & ->).
  cbn [fst snd components].
  apply initializeComponents_each in Hcs.
  change (components (registerComponents (constructor, w)).1)
    with [("navigation", Navigation NavigationManager.constructor);
          ("scroll", Scroll ScrollManager.constructor);
          ("animation", Animation AnimationManager.constructor);
          ("theme", Theme ThemeManager.constructor)] in Hcs.
  apply Forall2_cons_inv_r in Hcs as ([n1 c1] & cs1 & [Hn1 [w1 Hc1]] & Hcs & ->).
  apply Forall2_cons_inv_r in Hcs as ([n2 c2] & cs2 & [Hn2 [w2 Hc2]] & Hcs & ->).
  apply Forall2_cons_inv_r in Hcs as ([n3 c3] & cs3 & [Hn3 [w3 Hc3]] & Hcs & ->).
  apply Forall2_cons_inv_r in Hcs as ([n4 c4] & cs4 & [Hn4 [w4 Hc4]] & Hcs & ->).
  apply Forall2_nil_inv_r in Hcs as ->.
  cbn [fst snd] in *. subst n1 n2 n3 n4.
  unfold Component_init in Hc1, Hc2, Hc3, Hc4.
  pose proof (navigation_init_menu NavigationManager.constructor w1) as Hnav.
  pose proof (animation_init_observer AnimationManager.constructor w3) as Han.
  destruct (NavigationManager.init (NavigationManager.constructor, w1)) as [r1 [nav w1']].
  destruct (ScrollManager.init (ScrollManager.constructor, w2)) as [r2 [sc w2']].
  destruct (AnimationManager.init (AnimationManager.constructor, w3)) as [r3 [an w3']].
  destruct (ThemeManager.init (ThemeManager.constructor, w4)) as [th w4'].
  cbn [fst snd] in *. subst c1 c2 c3 c4.
  by exists nav, sc, an, th.
Qed.

End ResizeFacts.

(** X21.  A resize of the application that [init()] has just set up, on
    any page and at any width, returns normally although nothing catches
    in [handleResize()]: the navigation menu is closed, so the navigation
    manager does nothing, and the animation manager has its observer, so
    re-observing cannot fail.  The navigation, scroll and theme components
    are as before, the registry keeps its names and order, and the
    animation manager keeps its pause flag. *)
Theorem resize_after_init_returns (w : Dom.World) (innerWidth : Z) :
  let app := (PortfolioApp.init (PortfolioApp.constructor, w)).2 in
  let r := PortfolioApp.handleResize innerWidth app in
  r.1 = inr tt ∧
  PortfolioApp.isInitialized r.2.1 = true ∧
  (PortfolioApp.components r.2.1).*1 = ["navigation"; "scroll"; "animation"; "theme"] ∧
  (∀ other, other ≠ "animation" →
     PortfolioApp.map_get other (PortfolioApp.components r.2.1)
     = PortfolioApp.map_get other (PortfolioApp.components app.1)) ∧
  ∃ c c',
    PortfolioApp.map_get "animation" (PortfolioApp.components app.1)
      = Some (PortfolioApp.Animation c) ∧
    PortfolioApp.map_get "animation" (PortfolioApp.components r.2.1)
      = Some (PortfolioApp.Animation c') ∧
    AnimationManager.isAnimationPaused c' = AnimationManager.isAnimationPaused c ∧
    (size (AnimationManager.observedElements c) ≠ 0 → c' = c ∧ r.2.2 = app.2).
Proof.
  intros app r. subst r.
  destruct (init_components w) as (nav & sc & an & th & Hreg & Hnav & [targets Han]).
  assert (PortfolioApp.isInitialized app.1 = true) as Hinit.
  { subst app. by destruct (init_first_call PortfolioApp.constructor w eq_refl)
      as (cs & w' & _ & ->). }
  fold app in Hreg. destruct app as [this w1]. cbn [fst snd] in *.
  unfold PortfolioApp.handleResize. cbn [fst snd]. rewrite Hreg.
  cbn [PortfolioApp.resizeEach PortfolioApp.Component_handleResize].
  unfold NavigationManager.handleResize. cbn [fst]. rewrite Hnav, andb_false_r.
  unfold AnimationManager.handleResize. cbn [fst].
  destruct (decide (size (AnimationManager.observedElements an) = 0)) as [Hz | Hnz].
  - rewrite (bool_decide_eq_true_2 _ Hz).
    destruct (observeElements_each an w1 targets Han) as (an' & w' & -> & Hp).
    cbn [fst snd PortfolioApp.components PortfolioApp.isInitialized].
    split; [done|]. split; [done|]. split; [done|]. split.
    + intros other Hne. cbn [PortfolioApp.map_get].
      repeat case_bool_decide; done.
    + exists an, an'. split; [done|]. split; [done|]. split; [done|]. done.
  - rewrite (bool_decide_eq_false_2 _ Hnz).
    cbn [fst snd PortfolioApp.components PortfolioApp.isInitialized].
    split; [done|]. split; [done|]. split; [done|]. split; [done|].
    exists an, an. by destruct this.
Qed.
